(** * Copula distributions: a shallow embedding of
      [statsmodels/distributions/copula/copulas.py]

    The file embeds the two classes of the module, [Copula] (the abstract
    family contract with its shared behaviour) and [CopulaDistribution]
    (a copula joined with marginal distributions), together with the part
    of NumPy they rely on: arrays with a shape, indexing along an axis,
    [column_stack], [squeeze], broadcasting and in-place addition.

    Python exceptions are values of [exn] carried by the [result] monad.
    The floating-point arithmetic is abstract: every definition is written
    against the classes [Float] and [Elementary], so that the structural
    theorems hold for any arithmetic, IEEE binary64 included.  Four
    instances are given at the end of the definitions: the extended reals
    (exact arithmetic with the IEEE special values), the extended reals
    with every operation rounded to a nearest representable number, the
    kernel's binary64 numbers, and IEEE binary32 as the kernel specifies
    it. *)

From Stdlib Require Import List Arith Bool Lia ZArith Reals Lra.
From Stdlib Require PrimFloat Uint63 String SpecFloat Classical_Prop ClassicalChoice.
Import ListNotations.

(** ** Exceptions and the result monad *)

Inductive exn : Type :=
| IndexError
| ValueError
| TypeError
| NotImplementedError.

Inductive result (A : Type) : Type :=
| Ok (a : A)
| Raise (e : exn).

Arguments Ok {A} a.
Arguments Raise {A} e.

Definition bind {A B : Type} (c : result A) (k : A -> result B) : result B :=
  match c with
  | Ok a => k a
  | Raise e => Raise e
  end.

Notation "x <- c ;; k" := (bind c (fun x => k))
  (at level 61, c at next level, right associativity).

Definition fmap {A B : Type} (f : A -> B) (c : result A) : result B :=
  x <- c ;; Ok (f x).

(** A [for] loop over a Python iterable, threading the loop state and
    stopping at the first exception. *)
Fixpoint for_each {A S : Type} (xs : list A) (body : A -> S -> result S)
  (s : S) : result S :=
  match xs with
  | [] => Ok s
  | x :: xs' => s' <- body x s ;; for_each xs' body s'
  end.

(** [seq[i]] on a Python list or tuple, for a non-negative index. *)
Definition getitem {A : Type} (xs : list A) (i : nat) : result A :=
  match nth_error xs i with
  | Some x => Ok x
  | None => Raise IndexError
  end.

(** [enumerate(xs)] *)
Definition enumerate {A : Type} (xs : list A) : list (nat * A) :=
  combine (seq 0 (length xs)) xs.

(** A parameter value: a float, or a tuple of parameter values. *)
#[warnings="-register-all"]
Inductive pyval (F : Type) : Type :=
| PyFloat (x : F)
| PyTuple (xs : list (pyval F)).

Arguments PyFloat {F} x.
Arguments PyTuple {F} xs.

(** [random_state : {None, int, numpy.random.Generator}] *)
Inductive random_state : Type :=
| RandomNone
| RandomSeed (seed : Z)
| RandomGenerator (gen : nat).

(** ** Floating-point arithmetic, abstractly *)

Class Float (F : Type) : Type := {
  f_add : F -> F -> F;
  f_sub : F -> F -> F;
  f_mul : F -> F -> F;
  f_div : F -> F -> F;
  f_of_nat : nat -> F;      (* an element count promoted to a float *)
  f_0_0 : F;                (* the literal 0.0 *)
  f_0_5 : F;                (* the literal 0.5 *)
  f_1 : F;                  (* the literal 1, promoted to a float *)
  f_1em10 : F               (* the literal 1e-10 *)
}.

(** The elementwise kernels of [np.exp] and [np.log]. *)
Class Elementary (F : Type) : Type := {
  f_exp : F -> F;
  f_log : F -> F
}.

(** ** The part of NumPy the module uses *)

Module NumPy.
Section Arrays.
Context {F : Type} `{Float F}.

(** An array: its shape and its elements in row-major order.  A Python
    float and a 0-dimensional array are both arrays of shape [[]]. *)
Record ndarray : Type := mk_ndarray {
  shape : list nat;
  data : list F
}.

Definition size_of (s : list nat) : nat := fold_right Nat.mul 1 s.

Definition ndim (a : ndarray) : nat := length (shape a).

(** Every array NumPy builds holds as many elements as its shape says. *)
Definition wf (a : ndarray) : Prop := length (data a) = size_of (shape a).

Definition scalar (x : F) : ndarray := {| shape := []; data := [x] |}.

(** [y.shape[-1]] *)
Definition shape_last (a : ndarray) : result nat :=
  match rev (shape a) with
  | [] => Raise IndexError
  | m :: _ => Ok m
  end.

(** The [i]-th block of [size] consecutive elements, and the first [cnt]
    blocks. *)
Definition block (i size : nat) (l : list F) : list F :=
  firstn size (skipn (i * size) l).

Definition chunks (cnt size : nat) (l : list F) : list (list F) :=
  map (fun r => block r size l) (seq 0 cnt).

(** Indexing with an integer along axis [ax] and full slices elsewhere:
    [a[:, i]] is [take_axis 1 a i]. *)
Definition take_axis (ax : nat) (a : ndarray) (i : nat) : result ndarray :=
  let s := shape a in
  match nth_error s ax with
  | None => Raise IndexError
  | Some m =>
      if i <? m then
        let outer := size_of (firstn ax s) in
        let inner := size_of (skipn (S ax) s) in
        Ok {| shape := firstn ax s ++ skipn (S ax) s;
              data := concat (map (block i inner)
                                  (chunks outer (m * inner) (data a))) |}
      else Raise IndexError
  end.

(** [y[..., i]] *)
Definition index_last (a : ndarray) (i : nat) : result ndarray :=
  take_axis (pred (ndim a)) a i.

(** [a[:, i]] *)
Definition index_axis1 (a : ndarray) (i : nat) : result ndarray :=
  take_axis 1 a i.

Definition arr_map (f : F -> F) (a : ndarray) : ndarray :=
  {| shape := shape a; data := map f (data a) |}.

(** *** Broadcasting *)

Definition pad_shape (n : nat) (s : list nat) : list nat :=
  repeat 1 (n - length s) ++ s.

Fixpoint bshape (s1 s2 : list nat) : option (list nat) :=
  match s1, s2 with
  | [], [] => Some []
  | a :: s1', b :: s2' =>
      match bshape s1' s2' with
      | None => None
      | Some r =>
          if a =? b then Some (a :: r)
          else if a =? 1 then Some (b :: r)
          else if b =? 1 then Some (a :: r)
          else None
      end
  | _, _ => None
  end.

Definition broadcast_shapes (s1 s2 : list nat) : option (list nat) :=
  let n := Nat.max (length s1) (length s2) in
  bshape (pad_shape n s1) (pad_shape n s2).

Fixpoint bcast_data (src tgt : list nat) (d : list F) : list F :=
  match src, tgt with
  | s :: src', t :: tgt' =>
      let blocks := map (bcast_data src' tgt') (chunks s (size_of src') d) in
      if s =? t then concat blocks
      else concat (repeat (concat blocks) t)
  | _, _ => d
  end.

Fixpoint broadcastable (src tgt : list nat) : bool :=
  match src, tgt with
  | [], [] => true
  | s :: src', t :: tgt' =>
      ((s =? t) || (s =? 1)) && broadcastable src' tgt'
  | _, _ => false
  end.

Definition broadcast_to (a : ndarray) (tgt : list nat) : result (list F) :=
  let src := pad_shape (length tgt) (shape a) in
  if (ndim a <=? length tgt) && broadcastable src tgt
  then Ok (bcast_data src tgt (data a))
  else Raise ValueError.

Fixpoint map2 (f : F -> F -> F) (xs ys : list F) : list F :=
  match xs, ys with
  | x :: xs', y :: ys' => f x y :: map2 f xs' ys'
  | _, _ => []
  end.

(** [a + b] *)
Definition add (a b : ndarray) : result ndarray :=
  match broadcast_shapes (shape a) (shape b) with
  | None => Raise ValueError
  | Some s =>
      da <- broadcast_to a s ;;
      db <- broadcast_to b s ;;
      Ok {| shape := s; data := map2 f_add da db |}
  end.

(** [a += b].  A Python float or NumPy scalar is immutable, so the
    statement rebinds the name to [a + b]; an array of one dimension or
    more is updated in place and keeps its shape. *)
Definition iadd (a b : ndarray) : result ndarray :=
  match shape a with
  | [] => add a b
  | s =>
      match broadcast_shapes s (shape b) with
      | None => Raise ValueError
      | Some s' =>
          if list_eq_dec Nat.eq_dec s' s then add a b else Raise ValueError
      end
  end.

(** *** Stacking *)

(** What [column_stack] does to an argument of fewer than two
    dimensions: [np.array(arr, ndmin=2).T]. *)
Definition as_column (a : ndarray) : ndarray :=
  match shape a with
  | [] => {| shape := [1; 1]; data := data a |}
  | [n] => {| shape := [n; 1]; data := data a |}
  | _ => a
  end.

Definition row_size (a : ndarray) : nat := size_of (skipn 1 (shape a)).

(** [np.concatenate(arrs, 1)] *)
Definition concatenate_axis1 (arrs : list ndarray) : result ndarray :=
  match arrs with
  | [] => Raise ValueError
  | a :: rest =>
      match shape a with
      | s0 :: _ :: tl =>
          if forallb
               (fun b =>
                  match shape b with
                  | t0 :: _ :: tl' =>
                      (t0 =? s0) && if list_eq_dec Nat.eq_dec tl' tl
                                    then true else false
                  | _ => false
                  end) rest
          then
            Ok {| shape :=
                    s0 :: list_sum (map (fun b => nth 1 (shape b) 0) arrs)
                       :: tl;
                  data :=
                    concat
                      (map (fun r =>
                              concat
                                (map (fun b => block r (row_size b) (data b))
                                     arrs))
                           (seq 0 s0)) |}
          else Raise ValueError
      | _ => Raise ValueError
      end
  end.

(** [np.column_stack(arrs)] *)
Definition column_stack (arrs : list ndarray) : result ndarray :=
  concatenate_axis1 (map as_column arrs).

(** [a.squeeze()] *)
Definition squeeze (a : ndarray) : ndarray :=
  {| shape := filter (fun d => negb (d =? 1)) (shape a); data := data a |}.

(** *** Assignment to a column *)

(** A value assigned to a slice of fewer dimensions first loses its
    leading dimensions of size one, as many as it has too many. *)
Fixpoint strip_leading_ones (extra : nat) (s : list nat) : list nat :=
  match extra, s with
  | S extra', 1 :: s' => strip_leading_ones extra' s'
  | _, _ => s
  end.

(** [a[:, i] = v]: the value is broadcast to the shape of the slice and
    written over it. *)
Definition put_axis1 (a : ndarray) (i : nat) (v : ndarray)
  : result ndarray :=
  match shape a with
  | s0 :: s1 :: tl =>
      if i <? s1 then
        let inner := size_of tl in
        let stripped :=
          {| shape := strip_leading_ones (ndim v - length (s0 :: tl))
                        (shape v);
             data := data v |} in
        vd <- broadcast_to stripped (s0 :: tl) ;;
        Ok {| shape := shape a;
              data :=
                concat
                  (map (fun r =>
                          let row := block r (s1 * inner) (data a) in
                          firstn (i * inner) row
                            ++ block r inner vd
                            ++ skipn (S i * inner) row)
                       (seq 0 s0)) |}
      else Raise IndexError
  | _ => Raise IndexError
  end.

(** [a[..., :k]], the first [k] entries along the last axis of an array
    of one dimension or more. *)
Definition take_columns (k : nat) (a : ndarray) : ndarray :=
  let pre := removelast (shape a) in
  let m := last (shape a) 0 in
  {| shape := pre ++ [Nat.min k m];
     data := concat (map (firstn k) (chunks (size_of pre) m (data a))) |}.

(** *** Two matrices in closed form *)

(** The matrix whose columns are the arrays [cols], each of [n] elements. *)
Definition stacked (cols : list (ndarray)) (n : nat) : ndarray :=
  {| shape := [n; length cols];
     data :=
       concat
         (map (fun r => concat (map (fun c => block r 1 (data c)) cols))
              (seq 0 n)) |}.

(** The [(n, m)] matrix [a] with column [i] replaced by [v]. *)
Definition put_column (a : ndarray) (i : nat) (v : ndarray) n m
  : ndarray :=
  {| shape := [n; m];
     data :=
       concat
         (map (fun r =>
                 firstn i (block r m (data a))
                   ++ block r 1 (data v)
                   ++ skipn (S i) (block r m (data a)))
              (seq 0 n)) |}.

End Arrays.
Arguments ndarray F : clear implicits.
End NumPy.

(** ** class Copula *)

Module Copula.
Import NumPy.
Section Contract.
Context {F : Type} `{Float F} `{Elementary F}.

(** [scipy.stats.kendalltau(a, b)[0]], for two arrays of one size. *)
Variable kendalltau : ndarray F -> ndarray F -> F.

(** [numpy.mean] of a Python list of floats.  NumPy chooses the order in
    which the terms are added, and with it the rounding of the sum. *)
Variable np_mean : list F -> F.

(** A concrete family, as a subclass of [Copula]: [pdf] and [cdf] are
    abstract and always supplied, with the signature [(self, u, args=())]
    of the base class; the other three methods are inherited unless the
    family overrides them. *)
Record family : Type := {
  k_dim : nat;
  pdf : ndarray F -> pyval F -> result (ndarray F);
  cdf : ndarray F -> pyval F -> result (ndarray F);
  logpdf_override : option (ndarray F -> pyval F -> result (ndarray F));
  rvs_override :
    option (Z -> pyval F -> random_state -> result (ndarray F));
  arg_from_tau_override : option (F -> result F)
}.

(** *** The methods of the base class *)

Definition base_rvs (nobs : Z) (args : pyval F) (rs : random_state)
  : result (ndarray F) :=
  Raise NotImplementedError.

(** [*args] at a call site: the elements of a tuple; a float cannot be
    unpacked. *)
Definition unpack (args : pyval F) : result (list (pyval F)) :=
  match args with
  | PyTuple xs => Ok xs
  | PyFloat _ => Raise TypeError
  end.

(** [self.pdf(u, *args)]: the unpacked elements are bound positionally
    to the one parameter [args=()] left after [u]. *)
Definition pdf_star (self : family) (u : ndarray F) (args : pyval F)
  : result (ndarray F) :=
  xs <- unpack args ;;
  match xs with
  | [] => pdf self u (PyTuple [])
  | [a] => pdf self u a
  | _ :: _ :: _ => Raise TypeError
  end.

Definition base_logpdf (self : family) (u : ndarray F) (args : pyval F)
  : result (ndarray F) :=
  p <- pdf_star self u args ;;
  Ok (arr_map f_log p).

Definition base_arg_from_tau (tau : F) : result F :=
  Raise NotImplementedError.

(** *** Method resolution *)

Definition rvs (self : family) :=
  match rvs_override self with
  | Some m => m
  | None => base_rvs
  end.

Definition logpdf (self : family) :=
  match logpdf_override self with
  | Some m => m
  | None => base_logpdf self
  end.

Definition _arg_from_tau (self : family) :=
  match arg_from_tau_override self with
  | Some m => m
  | None => base_arg_from_tau
  end.

(** *** Shared behaviour *)

Definition tau_simulated (self : family) (nobs : Z) (rs : random_state)
  : result F :=
  x <- rvs self nobs (PyTuple []) rs ;;
  x0 <- index_axis1 x 0 ;;
  x1 <- index_axis1 x 1 ;;
  Ok (kendalltau x0 x1).

(** [(i, j) for i in range(k) for j in range(i+1, k)] *)
Definition pairs (k : nat) : list (nat * nat) :=
  flat_map (fun i => map (fun j => (i, j)) (seq (i + 1) (k - (i + 1))))
           (seq 0 k).

Definition pair_tau (x : ndarray F) (ij : nat * nat) (taus : list F)
  : result (list F) :=
  xi <- index_last x (fst ij) ;;
  xj <- index_last x (snd ij) ;;
  Ok (taus ++ [kendalltau xi xj]).

Definition fit_corr_param (self : family) (data : ndarray F) : result F :=
  let x := data in
  ncols <- getitem (shape x) 1 ;;
  tau <- (if ncols =? 2 then
            x0 <- index_axis1 x 0 ;;
            x1 <- index_axis1 x 1 ;;
            Ok (kendalltau x0 x1)
          else
            let k := k_dim self in
            taus <- for_each (pairs k) (pair_tau x) [] ;;
            Ok (np_mean taus)) ;;
  _arg_from_tau self tau.

End Contract.
Arguments family F : clear implicits.
End Copula.

(** ** The scatter plot of class Copula

    Matplotlib is known by the calls made on it: a pair of axes holds what
    was drawn on it, in order, and a figure is known by its axes. *)

Module Plot.
Import NumPy.

Module Labels.
Import String.
Definition u : string := "u"%string.
Definition v : string := "v"%string.
End Labels.

Section Scatter.
Context {F : Type}.

Inductive artist : Type :=
| Scatter (xs ys : ndarray F)
| XLabel (text : String.string)
| YLabel (text : String.string).

Definition axes : Type := list artist.

(** [utils.create_mpl_ax(ax)]: fresh axes on a new figure when [ax] is
    [None], the axes given otherwise. *)
Definition create_mpl_ax (ax : option axes) : axes :=
  match ax with
  | None => []
  | Some a => a
  end.

Definition plot_scatter (self : Copula.family F)
  (sample : option (ndarray F)) (nobs : Z) (rs : random_state)
  (ax : option axes) : result (axes * ndarray F) :=
  if negb (Copula.k_dim self =? 2) then Raise ValueError
  else
    sample <- match sample with
              | None => Copula.rvs self nobs (PyTuple []) rs
              | Some s => Ok s
              end ;;
    let ax := create_mpl_ax ax in
    x0 <- index_axis1 sample 0 ;;
    x1 <- index_axis1 sample 1 ;;
    Ok (ax ++ [Scatter x0 x1; XLabel Labels.u; YLabel Labels.v], sample).

End Scatter.
End Plot.

(** ** class CopulaDistribution *)

Module CopulaDistribution.
Import NumPy.
Section Joint.
Context {F : Type} `{Float F} `{Elementary F}.

(** A marginal distribution: [dist.cdf(x, *params)] and its siblings. *)
Record dist : Type := {
  dist_cdf : ndarray F -> list F -> result (ndarray F);
  dist_logpdf : ndarray F -> list F -> result (ndarray F);
  dist_ppf : ndarray F -> list F -> result (ndarray F)
}.

Record t : Type := {
  copula : Copula.family F;
  marginals : list dist;
  cop_args : pyval F;
  k_vars : nat
}.

Definition __init__ (copula : Copula.family F) (marginals : list dist)
  (cop_args : pyval F) : t :=
  {| copula := copula;
     marginals := marginals;
     cop_args := cop_args;
     k_vars := length marginals |}.

(** [cop_args = self.cop_args] when the argument is [None]. *)
Definition resolve_cop_args (self : t) (a : option (pyval F)) : pyval F :=
  match a with
  | None => cop_args self
  | Some c => c
  end.

(** [[()] * self.k_vars], the default of [rvs]. *)
Definition rvs_default_marg_args (self : t) : list (list F) :=
  repeat [] (k_vars self).

(** [[()] * y.shape[-1]], the default of [cdf] and [logpdf]. *)
Definition y_default_marg_args (y : ndarray F) : result (list (list F)) :=
  n <- shape_last y ;;
  Ok (repeat [] n).

(** [0.5 + (1 - 1e-10) * (u - 0.5)] *)
Definition contract (u : F) : F :=
  f_add f_0_5 (f_mul (f_sub f_1 f_1em10) (f_sub u f_0_5)).

Definition rvs_body (marg_args : list (list F)) (id : nat * dist)
  (sample : ndarray F) : result (ndarray F) :=
  let (i, d) := id in
  col <- index_axis1 sample i ;;
  a <- getitem marg_args i ;;
  v <- dist_ppf d (arr_map contract col) a ;;
  put_axis1 sample i v.

Definition rvs (self : t) (nobs : Z) (cop_args : option (pyval F))
  (marg_args : option (list (list F))) (rs : random_state)
  : result (ndarray F) :=
  let cop_args := resolve_cop_args self cop_args in
  let marg_args :=
    match marg_args with
    | None => rvs_default_marg_args self
    | Some m => m
    end in
  sample <- Copula.rvs (copula self) nobs cop_args rs ;;
  for_each (enumerate (marginals self)) (rvs_body marg_args) sample.

Definition cdf_body (self : t) (y : ndarray F) (marg_args : list (list F))
  (i : nat) (cdf_marg : list (ndarray F)) : result (list (ndarray F)) :=
  d <- getitem (marginals self) i ;;
  yi <- index_last y i ;;
  a <- getitem marg_args i ;;
  c <- dist_cdf d yi a ;;
  Ok (cdf_marg ++ [c]).

Definition cdf (self : t) (y : ndarray F) (cop_args : option (pyval F))
  (marg_args : option (list (list F))) : result (ndarray F) :=
  let cop_args := resolve_cop_args self cop_args in
  marg_args <- match marg_args with
               | None => y_default_marg_args y
               | Some m => Ok m
               end ;;
  cdf_marg <- for_each (seq 0 (k_vars self)) (cdf_body self y marg_args) [] ;;
  u <- column_stack cdf_marg ;;
  let u := if ndim y =? 1 then squeeze u else u in
  Copula.cdf (copula self) u cop_args.

Definition logpdf_body (self : t) (y : ndarray F)
  (marg_args : list (list F)) (i : nat)
  (st : ndarray F * list (ndarray F))
  : result (ndarray F * list (ndarray F)) :=
  let (lpdf, cdf_marg) := st in
  d <- getitem (marginals self) i ;;
  yi <- index_last y i ;;
  a <- getitem marg_args i ;;
  l <- dist_logpdf d yi a ;;
  lpdf <- iadd lpdf l ;;
  d <- getitem (marginals self) i ;;
  yi <- index_last y i ;;
  a <- getitem marg_args i ;;
  c <- dist_cdf d yi a ;;
  Ok (lpdf, cdf_marg ++ [c]).

Definition logpdf (self : t) (y : ndarray F) (cop_args : option (pyval F))
  (marg_args : option (list (list F))) : result (ndarray F) :=
  let cop_args := resolve_cop_args self cop_args in
  marg_args <- match marg_args with
               | None => y_default_marg_args y
               | Some m => Ok m
               end ;;
  st <- for_each (seq 0 (k_vars self)) (logpdf_body self y marg_args)
          (scalar f_0_0, []) ;;
  let (lpdf, cdf_marg) := st in
  u <- column_stack cdf_marg ;;
  let u := if ndim y =? 1 then squeeze u else u in
  cl <- Copula.logpdf (copula self) u cop_args ;;
  iadd lpdf cl.

Definition pdf (self : t) (y : ndarray F) (cop_args : option (pyval F))
  (marg_args : option (list (list F))) : result (ndarray F) :=
  l <- logpdf self y cop_args marg_args ;;
  Ok (arr_map f_exp l).

End Joint.
Arguments dist F : clear implicits.
Arguments t F : clear implicits.
End CopulaDistribution.

(** ** Four arithmetics *)

(** *** The extended reals

    Exact real arithmetic with the special values of IEEE 754: no
    rounding, no overflow, one zero. *)

Module XReal.

Inductive xreal : Type :=
| Finite (r : R)
| PosInf
| NegInf
| NaN.

Definition is_finite (x : xreal) : Prop :=
  match x with
  | Finite _ => True
  | _ => False
  end.

(** A value of the closed unit interval. *)
Definition in_unit_interval (x : xreal) : Prop :=
  exists r, x = Finite r /\ (0 <= r <= 1)%R.

(** The infinity that has the sign of [r]; [NaN] when [r] is zero. *)
Definition inf_of_sign (r : R) : xreal :=
  if Rlt_dec 0 r then PosInf
  else if Rlt_dec r 0 then NegInf
  else NaN.

Definition opp (x : xreal) : xreal :=
  match x with
  | Finite r => Finite (- r)
  | PosInf => NegInf
  | NegInf => PosInf
  | NaN => NaN
  end.

Definition add (x y : xreal) : xreal :=
  match x, y with
  | Finite a, Finite b => Finite (a + b)
  | NaN, _ | _, NaN => NaN
  | PosInf, NegInf | NegInf, PosInf => NaN
  | PosInf, _ | _, PosInf => PosInf
  | NegInf, _ | _, NegInf => NegInf
  end.

Definition sub (x y : xreal) : xreal := add x (opp y).

Definition mul (x y : xreal) : xreal :=
  match x, y with
  | Finite a, Finite b => Finite (a * b)
  | NaN, _ | _, NaN => NaN
  | Finite a, PosInf | PosInf, Finite a => inf_of_sign a
  | Finite a, NegInf | NegInf, Finite a => inf_of_sign (- a)
  | PosInf, PosInf | NegInf, NegInf => PosInf
  | PosInf, NegInf | NegInf, PosInf => NegInf
  end.

Definition div (x y : xreal) : xreal :=
  match x, y with
  | Finite a, Finite b =>
      if Req_dec_T b 0 then inf_of_sign a else Finite (a / b)
  | NaN, _ | _, NaN => NaN
  | Finite _, _ => Finite 0
  | PosInf, Finite b => if Rlt_dec b 0 then NegInf else PosInf
  | NegInf, Finite b => if Rlt_dec b 0 then PosInf else NegInf
  | _, _ => NaN
  end.

Definition exp (x : xreal) : xreal :=
  match x with
  | Finite r => Finite (Rtrigo_def.exp r)
  | PosInf => PosInf
  | NegInf => Finite 0
  | NaN => NaN
  end.

Definition log (x : xreal) : xreal :=
  match x with
  | Finite r =>
      if Rlt_dec 0 r then Finite (ln r)
      else if Rlt_dec r 0 then NaN
      else NegInf
  | PosInf => PosInf
  | _ => NaN
  end.

#[global] Instance xreal_float : Float xreal := {
  f_add := add;
  f_sub := sub;
  f_mul := mul;
  f_div := div;
  f_of_nat := fun n => Finite (INR n);
  f_0_0 := Finite 0;
  f_0_5 := Finite (/ 2);
  f_1 := Finite 1;
  f_1em10 := Finite (/ 10000000000)
}.

#[global] Instance xreal_elementary : Elementary xreal := {
  f_exp := exp;
  f_log := log
}.

End XReal.

(** *** IEEE binary64, the [float64] of NumPy *)

Module Binary64.
Import PrimFloat.

Definition binary64_float : Float PrimFloat.float := {|
  f_add := PrimFloat.add;
  f_sub := PrimFloat.sub;
  f_mul := PrimFloat.mul;
  f_div := PrimFloat.div;
  f_of_nat := fun n => PrimFloat.of_uint63 (Uint63.of_Z (Z.of_nat n));
  f_0_0 := 0%float;
  f_0_5 := 0.5%float;
  f_1 := 1%float;
  f_1em10 := 0x1.b7cdfd9d7bdbbp-34%float   (* 1e-10, to the nearest *)
|}.

End Binary64.

(** *** IEEE binary32, the [float32] of NumPy

    The operations are those of the kernel's specification of IEEE
    arithmetic, at 24 bits of precision.  When an array of [float32] meets
    a Python float, NumPy converts the float to [float32] and computes in
    [float32]: the literals below are the Python floats so converted. *)

Module Binary32.
Import SpecFloat.

Definition prec : Z := 24.
Definition emax : Z := 128.

(** [m * 2 ^ e], to the nearest [float32]. *)
Definition of_scaled (m e : Z) : spec_float :=
  binary_normalize prec emax m e false.

(** The Python float [x], held in binary64, to the nearest [float32]. *)
Definition of_binary64 (x : spec_float) : spec_float :=
  match x with
  | S754_finite s m e => binary_normalize prec emax (cond_Zopp s (Zpos m)) e s
  | _ => x
  end.

Definition zero : spec_float := S754_zero false.
Definition half : spec_float := of_scaled 1 (-1).
Definition one : spec_float := of_scaled 1 0.

(** [1e-10] as Python holds it: [0x1.b7cdfd9d7bdbbp-34]. *)
Definition python_1em10 : spec_float :=
  binary_normalize 53 1024 7737125245533627 (-86) false.

(** [1 - 1e-10] as Python computes it, in binary64. *)
Definition python_1_minus_1em10 : spec_float :=
  SFsub 53 1024 (binary_normalize 53 1024 1 0 false) python_1em10.

Definition binary32_float : Float spec_float := {|
  f_add := SFadd prec emax;
  f_sub := SFsub prec emax;
  f_mul := SFmul prec emax;
  f_div := SFdiv prec emax;
  f_of_nat := fun n => of_scaled (Z.of_nat n) 0;
  f_0_0 := zero;
  f_0_5 := half;
  f_1 := one;
  f_1em10 := of_binary64 python_1em10
|}.

End Binary32.

(** *** Rounding to nearest

    The extended reals again, with every operation and every literal
    rounded by a function [rnd].  IEEE 754 asks of an operation the
    representable number nearest to the exact result, and says which one
    on a tie; below, [rnd] is any function that returns a nearest
    representable number, so that what holds for every such [rnd] holds
    whatever the rule on ties.  The condition is asked between [-1] and
    [1] only, where no format overflows. *)

Module Rounded.
Import XReal.

Section Rounding.
Variable rnd : R -> R.

Definition round (x : xreal) : xreal :=
  match x with
  | Finite r => Finite (rnd r)
  | _ => x
  end.

Definition rounded_float : Float xreal := {|
  f_add := fun x y => round (add x y);
  f_sub := fun x y => round (sub x y);
  f_mul := fun x y => round (mul x y);
  f_div := fun x y => round (div x y);
  f_of_nat := fun n => Finite (rnd (INR n));
  f_0_0 := Finite (rnd 0);
  f_0_5 := Finite (rnd (/ 2));
  f_1 := Finite (rnd 1);
  f_1em10 := Finite (rnd (/ 10000000000))
|}.

End Rounding.

(** [rnd] returns a representable number, and none is nearer. *)
Definition rounds_to_nearest (format : R -> Prop) (rnd : R -> R) : Prop :=
  forall x : R,
    (-1 <= x <= 1)%R ->
    format (rnd x)
    /\ forall f : R, format f -> (Rabs (rnd x - x) <= Rabs (f - x))%R.

(** [k * 2 ^ -35] *)
Definition grid (k : Z) : R := (IZR k / 34359738368)%R.

(** The multiples of [2 ^ -35] between [-1] and [1] are representable. *)
Definition resolves_grid (format : R -> Prop) : Prop :=
  forall k : Z, (Z.abs k <= 34359738368)%Z -> format (grid k).

(** The finite numbers of binary64: [m * 2 ^ e] with a significand of 53
    bits and an exponent between those of the least subnormal number and
    of the greatest number. *)
Definition binary64 (x : R) : Prop :=
  exists m e : Z,
    x = (IZR m * powerRZ 2 e)%R
    /\ (Z.abs m < 2 ^ 53)%Z
    /\ (-1074 <= e <= 971)%Z.

(** The finite numbers of binary32. *)
Definition binary32 (x : R) : Prop :=
  exists m e : Z,
    x = (IZR m * powerRZ 2 e)%R
    /\ (Z.abs m < 2 ^ 24)%Z
    /\ (-149 <= e <= 104)%Z.

(** A representable number of the open unit interval. *)
Definition interior (format : R -> Prop) (x : xreal) : Prop :=
  exists r, x = Finite r /\ format r /\ (0 < r < 1)%R.

End Rounded.

(** ** Vocabulary of the statements

    What the loops of [rvs], [cdf] and [logpdf] hold after [i] rounds, and
    what is asked of a marginal. *)

Module Loops.
Import NumPy.
Import CopulaDistribution.
Section States.
Context {F : Type} `{Float F}.

(** What a method of marginal [i] returns on the [i]-th column of [y],
    when it returns. *)
Definition marginal_value
  (method : dist F -> ndarray F -> list F -> result (ndarray F))
  (ds : list (dist F)) (y : ndarray F) (margs : list (list F)) (i : nat)
  : ndarray F :=
  match nth_error ds i, index_last y i, nth_error margs i with
  | Some d, Ok yi, Some a =>
      match method d yi a with
      | Ok v => v
      | Raise _ => y
      end
  | _, _, _ => y
  end.

(** A marginal that answers every call with one value per element. *)
Definition elementwise (ds : list (dist F)) (margs : list (list F))
  : Prop :=
  forall i d a x,
    nth_error ds i = Some d ->
    nth_error margs i = Some a ->
    wf x ->
    exists l c,
      dist_logpdf d x a = Ok l /\ dist_cdf d x a = Ok c
      /\ shape l = shape x /\ wf l
      /\ shape c = shape x /\ wf c.

(** The array a marginal's [ppf] returns for column [i], when it returns
    one. *)
Definition ppf_of_column (ds : list (dist F)) (margs : list (list F))
  (sample : ndarray F) (i : nat) : ndarray F :=
  match nth_error ds i, index_axis1 sample i, nth_error margs i with
  | Some d, Ok col, Some a =>
      match dist_ppf d (arr_map contract col) a with
      | Ok v => v
      | Raise _ => sample
      end
  | _, _, _ => sample
  end.

(** The sample after the first [i] marginals: their columns transformed
    into [vs], the others as drawn. *)
Definition transformed_upto (n m : nat) (sample : ndarray F)
  (vs : nat -> ndarray F) (i : nat) (s : ndarray F) : Prop :=
  shape s = [n; m] /\ wf s
  /\ forall j, j < m ->
       index_axis1 s j = if j <? i then Ok (vs j) else index_axis1 sample j.

(** The running sum after [i] marginals, element by element. *)
Definition running (s : list nat) (lf : nat -> ndarray F) (i : nat)
  : ndarray F :=
  {| shape := s;
     data :=
       map (fun j =>
              fold_left f_add
                (map (fun t => nth j (data (lf t)) f_0_0) (seq 0 i)) f_0_0)
           (seq 0 (size_of s)) |}.

Definition lpdf_after (s : list nat) (lf : nat -> ndarray F) (i : nat)
  : ndarray F :=
  match i with
  | 0 => scalar f_0_0
  | S _ => running s lf i
  end.

End States.
End Loops.

(** ** The decomposition of Sklar, as the specification words it

    The sum over the marginals of their log-densities plus the log-density
    of the copula, at each observation; the terms are added in the order of
    the marginals, starting from [0.0], the copula's last. *)

Module Sklar.
Import NumPy.
Section Decomposition.
Context {F : Type} `{Float F}.

Definition log_density (marginal_logpdfs : list (ndarray F))
  (copula_logpdf : ndarray F) : ndarray F :=
  {| shape := shape copula_logpdf;
     data :=
       map (fun j =>
              f_add
                (fold_left f_add
                   (map (fun l => nth j (data l) f_0_0) marginal_logpdfs)
                   f_0_0)
                (nth j (data copula_logpdf) f_0_0))
           (seq 0 (size_of (shape copula_logpdf))) |}.

End Decomposition.
End Sklar.

(** ** Collaborators used in the examples

    Concrete families and marginals are outside the module; the few below
    follow its contracts and serve as inputs on which the embedding is
    evaluated. *)

Module Examples.
Import NumPy.
Section Collaborators.
Context {F : Type} `{Float F} `{Elementary F}.

Definition two : F := f_of_nat 2.
Definition three : F := f_of_nat 3.

(** The parameter of a one-parameter family: the one given when the
    family was built if [args] is empty, else the one in [args] (a bare
    float counts as a tuple of one). *)
Definition one_parameter (th0 : F) (args : pyval F) : result F :=
  match args with
  | PyTuple [] => Ok th0
  | PyTuple [PyFloat th] => Ok th
  | PyFloat th => Ok th
  | PyTuple [PyTuple _] => Raise TypeError
  | PyTuple _ => Raise ValueError
  end.

(** [a, b = args], for a two-parameter family. *)
Definition two_parameters (ab0 : F * F) (args : pyval F) : result (F * F) :=
  match args with
  | PyTuple [] => Ok ab0
  | PyTuple [PyFloat a; PyFloat b] => Ok (a, b)
  | PyTuple [_; _] => Raise TypeError
  | PyTuple _ => Raise ValueError
  | PyFloat _ => Raise TypeError
  end.

(** A bivariate function of the two coordinates, row by row. *)
Definition by_rows (f : F -> F -> F) (u : ndarray F) : result (ndarray F) :=
  u0 <- index_last u 0 ;;
  u1 <- index_last u 1 ;;
  Ok {| shape := shape u0; data := map2 f (data u0) (data u1) |}.

(** The Farlie-Gumbel-Morgenstern family, bivariate:
    [c(u, v) = 1 + th (1 - 2u) (1 - 2v)],
    [C(u, v) = u v (1 + th (1 - u) (1 - v))], [tau = 2 th / 9]. *)
Definition fgm_density (th u v : F) : F :=
  f_add f_1
    (f_mul (f_mul th (f_sub f_1 (f_mul two u))) (f_sub f_1 (f_mul two v))).

Definition fgm_distribution (th u v : F) : F :=
  f_mul (f_mul u v)
    (f_add f_1 (f_mul (f_mul th (f_sub f_1 u)) (f_sub f_1 v))).

Definition fgm (th0 : F) : Copula.family F :=
  {| Copula.k_dim := 2;
     Copula.pdf := fun u args =>
       th <- one_parameter th0 args ;; by_rows (fgm_density th) u;
     Copula.cdf := fun u args =>
       th <- one_parameter th0 args ;; by_rows (fgm_distribution th) u;
     Copula.logpdf_override := None;
     Copula.rvs_override := None;
     Copula.arg_from_tau_override :=
       Some (fun tau => Ok (f_div (f_mul (f_of_nat 9) tau) two)) |}.

(** The iterated FGM family, with two parameters:
    [c(u, v) = 1 + a (1 - 2u) (1 - 2v) + b u v (2 - 3u) (2 - 3v)],
    [C(u, v) = u v (1 + a (1 - u) (1 - v) + b u v (1 - u) (1 - v))]. *)
Definition iterated_density (ab : F * F) (u v : F) : F :=
  f_add
    (f_add f_1
       (f_mul (f_mul (fst ab) (f_sub f_1 (f_mul two u)))
          (f_sub f_1 (f_mul two v))))
    (f_mul (f_mul (snd ab) (f_mul u v))
       (f_mul (f_sub two (f_mul three u)) (f_sub two (f_mul three v)))).

Definition iterated_distribution (ab : F * F) (u v : F) : F :=
  f_mul (f_mul u v)
    (f_add
       (f_add f_1 (f_mul (f_mul (fst ab) (f_sub f_1 u)) (f_sub f_1 v)))
       (f_mul (f_mul (snd ab) (f_mul u v))
          (f_mul (f_sub f_1 u) (f_sub f_1 v)))).

Definition iterated_fgm (ab0 : F * F) : Copula.family F :=
  {| Copula.k_dim := 2;
     Copula.pdf := fun u args =>
       ab <- two_parameters ab0 args ;; by_rows (iterated_density ab) u;
     Copula.cdf := fun u args =>
       ab <- two_parameters ab0 args ;;
       by_rows (iterated_distribution ab) u;
     Copula.logpdf_override := None;
     Copula.rvs_override := None;
     Copula.arg_from_tau_override := None |}.

(** The independence copula in [k] dimensions: density one, distribution
    function the product of the coordinates; nothing overridden. *)
Definition product_body (u : ndarray F) (i : nat) (acc : ndarray F)
  : result (ndarray F) :=
  ui <- index_last u i ;;
  Ok {| shape := shape ui; data := map2 f_mul (data acc) (data ui) |}.

Definition independence (k : nat) : Copula.family F :=
  {| Copula.k_dim := k;
     Copula.pdf := fun u _ =>
       u0 <- index_last u 0 ;; Ok (arr_map (fun _ => f_1) u0);
     Copula.cdf := fun u _ =>
       u0 <- index_last u 0 ;;
       for_each (seq 0 k) (product_body u) (arr_map (fun _ => f_1) u0);
     Copula.logpdf_override := None;
     Copula.rvs_override := None;
     Copula.arg_from_tau_override := None |}.

(** A three-dimensional family whose parameter is read off Kendall's tau
    as for the FGM family. *)
Definition trivariate : Copula.family F :=
  {| Copula.k_dim := 3;
     Copula.pdf := Copula.pdf (independence 3);
     Copula.cdf := Copula.cdf (independence 3);
     Copula.logpdf_override := None;
     Copula.rvs_override := None;
     Copula.arg_from_tau_override :=
       Some (fun tau => Ok (f_div (f_mul (f_of_nat 9) tau) two)) |}.

(** A generator whose every draw falls on the corner [(0, 1)] of the unit
    square, the two boundary values a uniform draw can take. *)
Definition corner_draws (nobs : Z) (args : pyval F) (rs : random_state)
  : result (ndarray F) :=
  Ok {| shape := [Z.to_nat nobs; 2];
        data := concat (repeat [f_0_0; f_1] (Z.to_nat nobs)) |}.

Definition corner_family : Copula.family F :=
  {| Copula.k_dim := 2;
     Copula.pdf := fun u _ => by_rows (fgm_density f_0_0) u;
     Copula.cdf := fun u _ => by_rows (fgm_distribution f_0_0) u;
     Copula.logpdf_override := None;
     Copula.rvs_override := Some corner_draws;
     Copula.arg_from_tau_override := None |}.

(** A marginal without parameters, applied elementwise. *)
Definition standard (f : F -> F) (x : ndarray F) (params : list F)
  : result (ndarray F) :=
  match params with
  | [] => Ok (arr_map f x)
  | _ :: _ => Raise TypeError
  end.

(** The exponential distribution of rate one: [F(x) = 1 - exp(-x)],
    [log f(x) = -x], [Q(q) = -log(1 - q)], unbounded at [q = 1]. *)
Definition expon : CopulaDistribution.dist F :=
  {| CopulaDistribution.dist_cdf :=
       standard (fun x => f_sub f_1 (f_exp (f_sub f_0_0 x)));
     CopulaDistribution.dist_logpdf :=
       standard (fun x => f_sub f_0_0 x);
     CopulaDistribution.dist_ppf :=
       standard (fun q => f_sub f_0_0 (f_log (f_sub f_1 q))) |}.

(** The Lomax distribution of shape and scale one:
    [F(x) = x / (1 + x)], [Q(q) = q / (1 - q)], unbounded at [q = 1];
    its [logpdf] is left out. *)
Definition lomax : CopulaDistribution.dist F :=
  {| CopulaDistribution.dist_cdf :=
       standard (fun x => f_div x (f_add f_1 x));
     CopulaDistribution.dist_logpdf := fun _ _ => Raise NotImplementedError;
     CopulaDistribution.dist_ppf :=
       standard (fun q => f_div q (f_sub f_1 q)) |}.

(** Two Lomax marginals on the corner generator. *)
Definition boundary_joint : CopulaDistribution.t F :=
  CopulaDistribution.__init__ corner_family [lomax; lomax] (PyTuple []).

End Collaborators.

Import XReal.

(** The arithmetic mean, in exact arithmetic. *)
Definition arithmetic_mean (xs : list xreal) : xreal :=
  div (fold_left add xs (Finite 0)) (Finite (INR (length xs))).

(** Kendall's tau of two samples without ties: concordant minus
    discordant pairs, over the number of pairs. *)
Definition sgn (x : xreal) : R :=
  match x with
  | Finite r => if Rlt_dec 0 r then 1 else if Rlt_dec r 0 then -1 else 0
  | PosInf => 1
  | NegInf => -1
  | NaN => 0
  end.

Definition concordance (a b : list xreal) (ij : nat * nat) : R :=
  let (i, j) := ij in
  sgn (sub (nth i a NaN) (nth j a NaN))
  * sgn (sub (nth i b NaN) (nth j b NaN)).

Definition kendall_tau (a b : ndarray xreal) : xreal :=
  let ps := Copula.pairs (length (data a)) in
  div (Finite (fold_right Rplus 0%R
                  (map (concordance (data a) (data b)) ps)))
      (Finite (INR (length ps))).

(** A finite number. *)
Definition num (r : R) : xreal := Finite r.

(** Two exponential marginals joined by the FGM copula, [th = 1/2]. *)
Definition joint : CopulaDistribution.t xreal :=
  CopulaDistribution.__init__ (fgm (num (/ 2))) [expon; expon] (PyTuple []).

(** The same marginals on the corner generator. *)
Definition corner_joint : CopulaDistribution.t xreal :=
  CopulaDistribution.__init__ corner_family [expon; expon] (PyTuple []).

Definition y_2x2 : ndarray xreal :=
  {| shape := [2; 2]; data := [num 1; num 2; num 3; num 4] |}.

Definition y_2x3 : ndarray xreal :=
  {| shape := [2; 3]; data := [num 1; num 2; num 5; num 3; num 4; num 6] |}.

Definition y_2x1 : ndarray xreal :=
  {| shape := [2; 1]; data := [num 1; num 3] |}.

Definition y_flat : ndarray xreal :=
  {| shape := [2]; data := [num 1; num 2] |}.

Definition u_1x2 : ndarray xreal :=
  {| shape := [1; 2]; data := [num (/ 2); num (/ 4)] |}.

Definition vector (xs : list xreal) : ndarray xreal :=
  {| shape := [length xs]; data := xs |}.

(** The columns of [y_2x2] and what the exponential marginal returns on
    them. *)
Definition columns_2x2 : list (ndarray xreal) :=
  [vector [num 1; num 3]; vector [num 2; num 4]].

Definition logpdfs_2x2 : list (ndarray xreal) :=
  map (arr_map (fun v => f_sub f_0_0 v)) columns_2x2.

Definition cdfs_2x2 : list (ndarray xreal) :=
  map (arr_map (fun v => f_sub f_1 (f_exp (f_sub f_0_0 v)))) columns_2x2.

Definition columns_3x3 : list (ndarray xreal) :=
  [vector [num 1; num 2; num 3]; vector [num 2; num 3; num 1]; vector [num 3; num 1; num 2]].

(** The sample the corner generator draws for [nobs = 2]. *)
Definition corner_sample : ndarray xreal :=
  {| shape := [2; 2]; data := [num 0; num 1; num 0; num 1] |}.

Definition data_3x3 : ndarray xreal :=
  {| shape := [3; 3];
     data := [num 1; num 2; num 3;  num 2; num 3; num 1;  num 3; num 1; num 2] |}.

(** One observation, and what the exponential marginal returns on its
    coordinates. *)
Definition observation : list xreal := [num 1; num 2].

Definition observation_logpdfs : list xreal :=
  map (fun v => f_sub f_0_0 v) observation.

Definition observation_cdfs : list xreal :=
  map (fun v => f_sub f_1 (f_exp (f_sub f_0_0 v))) observation.

Definition y_scalar : ndarray xreal := scalar (num 1).

(** Two exponential marginals joined by the iterated FGM copula, with its
    two parameters given as [cop_args]. *)
Definition joint_two_parameters : CopulaDistribution.t xreal :=
  CopulaDistribution.__init__ (iterated_fgm (num 0, num 0)) [expon; expon]
    (PyTuple [PyFloat (num (/ 2)); PyFloat (num (/ 4))]).

End Examples.

(** * Facts *)

(** ** The result monad and loops *)


Lemma for_each_app : forall (A S : Type) (xs ys : list A)
    (body : A -> S -> result S) s,
  for_each (xs ++ ys) body s = (s' <- for_each xs body s ;; for_each ys body s').
Proof.
  induction xs as [| x xs IH]; intros ys body s; simpl; [reflexivity |].
  destruct (body x s); simpl; [apply IH | reflexivity].
Qed.

Lemma getitem_nth : forall (A : Type) (xs : list A) i d,
  i < length xs -> getitem xs i = Ok (nth i xs d).
Proof.
  intros A xs i d Hi. unfold getitem.
  rewrite (nth_error_nth' xs d Hi). reflexivity.
Qed.


(** ** Arrays *)

Section ArrayFacts.
Import NumPy.
Context {F : Type} `{Float F}.

Lemma block_length : forall i size (l : list F),
  S i * size <= length l -> length (block i size l) = size.
Proof.
  intros i size l Hl. unfold block.
  rewrite length_firstn, length_skipn. simpl in Hl. lia.
Qed.

Lemma block_concat : forall size (ls : list (list F)) i,
  Forall (fun b => length b = size) ls ->
  i < length ls ->
  block i size (concat ls) = nth i ls [].
Proof.
  intros size ls. induction ls as [| b ls IH]; intros i Hall Hi.
  - simpl in Hi. lia.
  - inversion Hall as [| ? ? Hb Hls]; subst. unfold block in *. simpl.
    destruct i as [| i].
    + simpl. rewrite firstn_app, Nat.sub_diag, firstn_all. simpl.
      apply app_nil_r.
    + simpl in Hi.
      replace (S i * length b) with (i * length b + length b) by lia.
      rewrite <- skipn_skipn, skipn_app, skipn_all, Nat.sub_diag.
      simpl. apply IH; [assumption | lia].
Qed.

Lemma chunks_length : forall cnt size (l : list F),
  length (chunks cnt size l) = cnt.
Proof.
  intros. unfold chunks. rewrite length_map, length_seq. reflexivity.
Qed.

Lemma chunks_S : forall cnt size (l : list F),
  chunks (S cnt) size l = firstn size l :: chunks cnt size (skipn size l).
Proof.
  intros cnt size l. unfold chunks. simpl. f_equal.
  rewrite <- seq_shift, map_map. apply map_ext. intros r.
  unfold block. rewrite skipn_skipn. f_equal. f_equal. lia.
Qed.

Lemma concat_chunks : forall cnt size (l : list F),
  length l = cnt * size -> concat (chunks cnt size l) = l.
Proof.
  induction cnt as [| cnt IH]; intros size l Hl.
  - simpl in Hl. apply length_zero_iff_nil in Hl. subst. reflexivity.
  - rewrite chunks_S. simpl. rewrite IH.
    + apply firstn_skipn.
    + rewrite length_skipn. simpl in Hl. lia.
Qed.

Lemma chunks_concat : forall size (ls : list (list F)),
  Forall (fun b => length b = size) ls ->
  chunks (length ls) size (concat ls) = ls.
Proof.
  intros size ls Hall. unfold chunks.
  apply nth_ext with (d := []) (d' := []).
  - rewrite length_map, length_seq. reflexivity.
  - intros i Hi. rewrite length_map, length_seq in Hi.
    rewrite (nth_indep _ [] ((fun r => block r size (concat ls)) 0))
      by (rewrite length_map, length_seq; assumption).
    rewrite (map_nth (fun r => block r size (concat ls))).
    rewrite seq_nth by assumption. simpl.
    apply block_concat; assumption.
Qed.

Lemma chunks_Forall_length : forall cnt size (l : list F),
  length l = cnt * size ->
  Forall (fun b => length b = size) (chunks cnt size l).
Proof.
  intros cnt size l Hl. unfold chunks. apply Forall_forall.
  intros b Hb. apply in_map_iff in Hb. destruct Hb as [r [<- Hr]].
  apply in_seq in Hr. apply block_length. nia.
Qed.


Lemma map2_repeat_l : forall f x (ys : list F),
  map2 f (repeat x (length ys)) ys = map (f x) ys.
Proof.
  intros f x ys. induction ys as [| y ys IH]; simpl; [reflexivity |].
  f_equal. exact IH.
Qed.

(** *** Broadcasting between equal shapes, and from a scalar *)

Lemma pad_shape_same : forall s, pad_shape (length s) s = s.
Proof.
  intros s. unfold pad_shape. rewrite Nat.sub_diag. reflexivity.
Qed.

Lemma bshape_same : forall s, bshape s s = Some s.
Proof.
  induction s as [| a s IH]; simpl; [reflexivity |].
  rewrite IH, Nat.eqb_refl. reflexivity.
Qed.

Lemma broadcast_shapes_same : forall s, broadcast_shapes s s = Some s.
Proof.
  intros s. unfold broadcast_shapes.
  rewrite Nat.max_id, pad_shape_same. apply bshape_same.
Qed.

Lemma broadcastable_same : forall s, broadcastable s s = true.
Proof.
  induction s as [| a s IH]; simpl; [reflexivity |].
  rewrite IH, Nat.eqb_refl. reflexivity.
Qed.

Lemma bcast_data_same : forall s (d : list F),
  length d = size_of s -> bcast_data s s d = d.
Proof.
  induction s as [| a s IH]; intros d Hd; simpl; [reflexivity |].
  rewrite Nat.eqb_refl.
  assert (Hch : map (bcast_data s s) (chunks a (size_of s) d)
                = chunks a (size_of s) d).
  { rewrite <- (map_id (chunks a (size_of s) d)) at 2.
    apply map_ext_in. intros b Hb. apply IH.
    pose proof (chunks_Forall_length a (size_of s) d Hd) as Hall.
    rewrite Forall_forall in Hall. auto. }
  rewrite Hch. apply concat_chunks. exact Hd.
Qed.

Lemma broadcast_to_same : forall a : ndarray F,
  wf a -> broadcast_to a (shape a) = Ok (data a).
Proof.
  intros a Ha. unfold broadcast_to, ndim.
  rewrite pad_shape_same, Nat.leb_refl, broadcastable_same. simpl.
  rewrite bcast_data_same by exact Ha. reflexivity.
Qed.

Lemma add_same_shape : forall a b : ndarray F,
  wf a -> wf b -> shape b = shape a ->
  add a b = Ok {| shape := shape a; data := map2 f_add (data a) (data b) |}.
Proof.
  intros a b Ha Hb Hs. unfold add. rewrite Hs, broadcast_shapes_same.
  rewrite (broadcast_to_same a Ha). rewrite <- Hs.
  rewrite (broadcast_to_same b Hb). reflexivity.
Qed.

Lemma iadd_same_shape : forall a b : ndarray F,
  wf a -> wf b -> shape b = shape a ->
  iadd a b = Ok {| shape := shape a; data := map2 f_add (data a) (data b) |}.
Proof.
  intros a b Ha Hb Hs. unfold iadd.
  destruct (shape a) as [| n s] eqn:Hsa.
  - rewrite <- Hsa. apply add_same_shape; congruence.
  - rewrite Hs, broadcast_shapes_same.
    destruct (list_eq_dec Nat.eq_dec (n :: s) (n :: s)) as [_ | Hne];
      [| congruence].
    rewrite <- Hsa. apply add_same_shape; congruence.
Qed.

Lemma size_of_repeat_1 : forall n, size_of (repeat 1 n) = 1.
Proof.
  induction n as [| n IH]; simpl; [reflexivity | rewrite IH; reflexivity].
Qed.

Lemma bshape_ones : forall s, bshape (repeat 1 (length s)) s = Some s.
Proof.
  induction s as [| b s IH]; simpl; [reflexivity |].
  rewrite IH. destruct b as [| [| b]]; reflexivity.
Qed.

Lemma broadcastable_ones : forall s,
  broadcastable (repeat 1 (length s)) s = true.
Proof.
  induction s as [| b s IH]; simpl; [reflexivity |].
  rewrite IH. destruct b as [| [| b]]; reflexivity.
Qed.

Lemma concat_repeat : forall (x : F) n t,
  concat (repeat (repeat x n) t) = repeat x (t * n).
Proof.
  intros x n t. induction t as [| t IH]; simpl; [reflexivity |].
  rewrite IH, repeat_app. reflexivity.
Qed.

Lemma bcast_data_ones : forall s (x : F),
  bcast_data (repeat 1 (length s)) s [x] = repeat x (size_of s).
Proof.
  induction s as [| t s IH]; intros x; simpl; [reflexivity |].
  rewrite size_of_repeat_1. unfold chunks, block. simpl.
  rewrite IH, app_nil_r.
  destruct t as [| [| t]]; simpl.
  - reflexivity.
  - rewrite Nat.add_0_r. reflexivity.
  - rewrite concat_repeat, <- !repeat_app; f_equal; lia.
Qed.

Lemma iadd_scalar : forall (x : F) (b : ndarray F),
  wf b -> iadd (scalar x) b = Ok (arr_map (f_add x) b).
Proof.
  intros x b Hb. unfold iadd, scalar, add. simpl.
  unfold broadcast_shapes. simpl. unfold pad_shape at 1. simpl.
  rewrite Nat.sub_0_r, app_nil_r, pad_shape_same, bshape_ones.
  unfold broadcast_to at 1. unfold ndim. simpl.
  unfold pad_shape. simpl.
  rewrite Nat.sub_0_r, app_nil_r, broadcastable_ones, bcast_data_ones.
  simpl. rewrite (broadcast_to_same b Hb). simpl.
  unfold arr_map. f_equal. f_equal.
  rewrite <- Hb. apply map2_repeat_l.
Qed.

(** *** Matrices: rows, columns and their update *)

Lemma block_1 : forall i (l : list F) d,
  i < length l -> block i 1 l = [nth i l d].
Proof.
  intros i l d Hi. unfold block. rewrite Nat.mul_1_r.
  revert i Hi. induction l as [| x l IH]; intros i Hi; simpl in Hi.
  - lia.
  - destruct i as [| i]; simpl.
    + destruct l; reflexivity.
    + apply IH. lia.
Qed.

Lemma take_axis1_matrix : forall (a : ndarray F) n m i,
  shape a = [n; m] -> i < m ->
  index_axis1 a i
  = Ok {| shape := [n];
          data := concat (map (block i 1) (chunks n m (data a))) |}.
Proof.
  intros a n m i Hs Hi. unfold index_axis1, take_axis. rewrite Hs. simpl.
  apply Nat.ltb_lt in Hi. rewrite Hi.
  rewrite !Nat.mul_1_r. reflexivity.
Qed.

Lemma index_last_matrix : forall (a : ndarray F) n m i,
  shape a = [n; m] -> index_last a i = index_axis1 a i.
Proof.
  intros a n m i Hs. unfold index_last, index_axis1, ndim.
  rewrite Hs. reflexivity.
Qed.

Lemma index_last_eq : forall (a : ndarray F) pre m i,
  shape a = pre ++ [m] ->
  index_last a i
  = if i <? m
    then Ok {| shape := pre;
               data := concat (map (block i 1)
                                   (chunks (size_of pre) m (data a))) |}
    else Raise IndexError.
Proof.
  intros a pre m i Hs. unfold index_last, take_axis, ndim.
  rewrite Hs, length_app. cbn [length].
  replace (pred (length pre + 1)) with (length pre) by lia.
  assert (Hn : nth_error (pre ++ [m]) (length pre) = Some m).
  { rewrite nth_error_app2, Nat.sub_diag by lia. reflexivity. }
  assert (Hf : firstn (length pre) (pre ++ [m]) = pre).
  { rewrite firstn_app, Nat.sub_diag, firstn_all. apply app_nil_r. }
  assert (Hk : skipn (S (length pre)) (pre ++ [m]) = []).
  { apply skipn_all2. rewrite length_app. simpl. lia. }
  rewrite Hn, Hf, Hk. cbn [size_of fold_right].
  rewrite app_nil_r, Nat.mul_1_r. reflexivity.
Qed.

Lemma index_last_shape : forall (a : ndarray F) pre m i c,
  shape a = pre ++ [m] -> index_last a i = Ok c -> shape c = pre.
Proof.
  intros a pre m i c Hs Hc. rewrite (index_last_eq _ _ _ i Hs) in Hc.
  destruct (i <? m); [| discriminate].
  inversion Hc. reflexivity.
Qed.

Lemma index_last_out : forall (a : ndarray F) pre m i,
  shape a = pre ++ [m] -> m <= i -> index_last a i = Raise IndexError.
Proof.
  intros a pre m i Hs Hi. rewrite (index_last_eq _ _ _ i Hs).
  apply Nat.ltb_ge in Hi. rewrite Hi. reflexivity.
Qed.

Lemma concat_length_const : forall (ls : list (list F)) size,
  Forall (fun b => length b = size) ls ->
  length (concat ls) = length ls * size.
Proof.
  intros ls size Hall. induction Hall as [| b ls Hb _ IH]; simpl;
    [reflexivity |].
  rewrite length_app, IH, Hb. reflexivity.
Qed.

Lemma index_last_wf : forall (a : ndarray F) pre m i c,
  shape a = pre ++ [m] -> wf a -> index_last a i = Ok c -> wf c.
Proof.
  intros a pre m i c Hs Ha Hc. rewrite (index_last_eq _ _ _ i Hs) in Hc.
  destruct (i <? m) eqn:Hi; [| discriminate].
  apply Nat.ltb_lt in Hi.
  inversion Hc; subst; clear Hc. unfold wf in *. simpl.
  rewrite Hs in Ha.
  assert (Hsz : size_of (pre ++ [m]) = size_of pre * m).
  { clear. induction pre as [| p pre IH]; simpl; [lia |].
    rewrite IH. lia. }
  rewrite Hsz in Ha.
  rewrite (concat_length_const _ 1).
  - rewrite length_map, chunks_length. lia.
  - apply Forall_forall. intros b Hb.
    apply in_map_iff in Hb. destruct Hb as [blk [<- Hblk]].
    pose proof (chunks_Forall_length _ _ _ Ha) as Hall.
    rewrite Forall_forall in Hall. specialize (Hall _ Hblk).
    apply block_length. lia.
Qed.

(** *** Writing a column of a matrix *)

Lemma block_update : forall (row B : list F) i j,
  i < length row -> j < length row -> length B = 1 ->
  block j 1 (firstn i row ++ B ++ skipn (S i) row)
  = if j =? i then B else block j 1 row.
Proof.
  intros row B i j Hi Hj HB.
  destruct B as [| b [| ? ?]]; try discriminate.
  assert (Hlen : length (firstn i row ++ [b] ++ skipn (S i) row)
                 = length row).
  { rewrite !length_app, length_firstn, length_skipn. simpl. lia. }
  rewrite (block_1 j _ b) by lia.
  assert (Hfi : length (firstn i row) = i)
    by (rewrite length_firstn; lia).
  destruct (Nat.eqb_spec j i) as [-> | Hne].
  - rewrite app_nth2 by lia. rewrite Hfi, Nat.sub_diag. reflexivity.
  - rewrite (block_1 j row b) by lia. f_equal.
    destruct (Nat.lt_ge_cases j i) as [Hlt | Hge].
    + rewrite app_nth1 by lia. rewrite nth_firstn.
      apply Nat.ltb_lt in Hlt. rewrite Hlt. reflexivity.
    + rewrite app_nth2 by lia. rewrite Hfi.
      rewrite app_nth2 by (simpl; lia). cbn [length].
      rewrite nth_skipn. f_equal. lia.
Qed.

Lemma put_axis1_matrix : forall (a v : ndarray F) n m i,
  shape a = [n; m] -> i < m -> shape v = [n] -> wf v ->
  put_axis1 a i v = Ok (put_column a i v n m).
Proof.
  intros a v n m i Hs Hi Hv Hwv. unfold put_axis1. rewrite Hs.
  apply Nat.ltb_lt in Hi. rewrite Hi.
  assert (Hstrip : {| shape := strip_leading_ones
                                 (ndim v - length [n]) (shape v);
                      data := data v |} = v).
  { unfold ndim. rewrite Hv. destruct v as [sv dv]. simpl in Hv. subst sv.
    reflexivity. }
  rewrite Hstrip.
  rewrite <- Hv, (broadcast_to_same v Hwv).
  cbn [bind size_of fold_right]. unfold put_column.
  f_equal. f_equal. f_equal.
  apply map_ext. intros r. rewrite !Nat.mul_1_r. reflexivity.
Qed.

Lemma put_column_rows : forall (a v : ndarray F) n m i,
  shape a = [n; m] -> wf a -> i < m -> shape v = [n] -> wf v ->
  Forall (fun b => length b = m)
    (map (fun r =>
            firstn i (block r m (data a))
              ++ block r 1 (data v)
              ++ skipn (S i) (block r m (data a)))
         (seq 0 n)).
Proof.
  intros a v n m i Hs Ha Hi Hv Hwv.
  unfold wf in *. rewrite Hs in Ha. rewrite Hv in Hwv. simpl in Ha, Hwv.
  apply Forall_forall. intros b Hb. apply in_map_iff in Hb.
  destruct Hb as [r [<- Hr]]. apply in_seq in Hr.
  rewrite !length_app, length_firstn, length_skipn.
  rewrite (block_length r m) by nia.
  rewrite (block_length r 1) by lia. lia.
Qed.

Lemma put_column_wf : forall (a v : ndarray F) n m i,
  shape a = [n; m] -> wf a -> i < m -> shape v = [n] -> wf v ->
  wf (put_column a i v n m).
Proof.
  intros a v n m i Hs Ha Hi Hv Hwv. unfold wf, put_column. simpl.
  rewrite (concat_length_const _ m)
    by (apply put_column_rows; assumption).
  rewrite length_map, length_seq. lia.
Qed.

Lemma put_column_index : forall (a v : ndarray F) n m i j,
  shape a = [n; m] -> wf a -> i < m -> shape v = [n] -> wf v -> j < m ->
  index_axis1 (put_column a i v n m) j
  = if j =? i then Ok v else index_axis1 a j.
Proof.
  intros a v n m i j Hs Ha Hi Hv Hwv Hj.
  pose proof (put_column_rows a v n m i Hs Ha Hi Hv Hwv) as Hrows.
  rewrite (take_axis1_matrix _ n m j) by (reflexivity || assumption).
  unfold put_column at 1. cbn [data].
  set (rows := map _ (seq 0 n)) in *.
  assert (Hn : length rows = n)
    by (unfold rows; rewrite length_map, length_seq; reflexivity).
  rewrite <- Hn at 2. rewrite (chunks_concat m rows Hrows).
  unfold rows. rewrite map_map.
  unfold wf in Ha, Hwv. rewrite Hs in Ha. rewrite Hv in Hwv.
  simpl in Ha, Hwv.
  assert (Hupd : forall r, In r (seq 0 n) ->
            block j 1 (firstn i (block r m (data a))
                         ++ block r 1 (data v)
                         ++ skipn (S i) (block r m (data a)))
            = if j =? i then block r 1 (data v)
              else block j 1 (block r m (data a))).
  { intros r Hr. apply in_seq in Hr. apply block_update.
    - rewrite block_length by nia. exact Hi.
    - rewrite block_length by nia. exact Hj.
    - apply block_length. lia. }
  rewrite (map_ext_in _ _ _ Hupd).
  destruct (j =? i).
  - f_equal. destruct v as [sv dv]. simpl in *. subst sv. f_equal.
    apply (concat_chunks n 1 dv). lia.
  - rewrite (take_axis1_matrix a n m j Hs Hj). f_equal. f_equal.
    unfold chunks. rewrite map_map. reflexivity.
Qed.

(** *** Stacking columns *)

Lemma concatenate_columns : forall (arrs : list (ndarray F)) n,
  arrs <> [] ->
  Forall (fun b => shape b = [n; 1]) arrs ->
  concatenate_axis1 arrs = Ok (stacked arrs n).
Proof.
  intros arrs n Hne Hall. unfold concatenate_axis1.
  destruct arrs as [| a rest]; [congruence |].
  inversion Hall as [| ? ? Ha Hrest]; subst. rewrite Ha.
  assert (Hchk : forallb
                   (fun b : ndarray F =>
                      match shape b with
                      | t0 :: _ :: tl' =>
                          (t0 =? n)
                          && (if list_eq_dec Nat.eq_dec tl' []
                              then true else false)
                      | _ => false
                      end) rest = true).
  { apply forallb_forall. intros b Hb. rewrite Forall_forall in Hrest.
    rewrite (Hrest b Hb), Nat.eqb_refl. reflexivity. }
  rewrite Hchk. unfold stacked. f_equal. f_equal.
  - f_equal.
    assert (Hsum : forall l : list (ndarray F),
              Forall (fun b => shape b = [n; 1]) l ->
              list_sum (map (fun b => nth 1 (shape b) 0) l) = length l).
    { induction 1 as [| b l Hb _ IH]; simpl; [reflexivity |].
      rewrite Hb, IH. reflexivity. }
    rewrite (Hsum _ Hall). reflexivity.
  - f_equal. apply map_ext. intros r. f_equal.
    apply map_ext_in. intros b Hb. rewrite Forall_forall in Hall.
    unfold row_size. rewrite (Hall b Hb). reflexivity.
Qed.

Lemma column_stack_vectors : forall (cols : list (ndarray F)) n,
  cols <> [] ->
  Forall (fun c => shape c = [n]) cols ->
  column_stack cols = Ok (stacked cols n).
Proof.
  intros cols n Hne Hall. unfold column_stack.
  rewrite (concatenate_columns (map as_column cols) n).
  - unfold stacked. rewrite length_map. f_equal. f_equal. f_equal.
    apply map_ext. intros r. rewrite map_map. f_equal.
    apply map_ext_in. intros c Hc. rewrite Forall_forall in Hall.
    unfold as_column. rewrite (Hall c Hc). reflexivity.
  - destruct cols; [congruence | discriminate].
  - apply Forall_forall. intros b Hb. apply in_map_iff in Hb.
    destruct Hb as [c [<- Hc]]. rewrite Forall_forall in Hall.
    unfold as_column. rewrite (Hall c Hc). reflexivity.
Qed.

Lemma column_stack_scalars : forall (cols : list (ndarray F)),
  cols <> [] ->
  Forall (fun c => shape c = []) cols ->
  column_stack cols = Ok (stacked cols 1).
Proof.
  intros cols Hne Hall. unfold column_stack.
  rewrite (concatenate_columns (map as_column cols) 1).
  - unfold stacked. rewrite length_map. f_equal. f_equal. f_equal.
    apply map_ext. intros r. rewrite map_map. f_equal.
    apply map_ext_in. intros c Hc. rewrite Forall_forall in Hall.
    unfold as_column. rewrite (Hall c Hc). reflexivity.
  - destruct cols; [congruence | discriminate].
  - apply Forall_forall. intros b Hb. apply in_map_iff in Hb.
    destruct Hb as [c [<- Hc]]. rewrite Forall_forall in Hall.
    unfold as_column. rewrite (Hall c Hc). reflexivity.
Qed.

Lemma stacked_rows : forall (cols : list (ndarray F)) n,
  Forall (fun c => length (data c) = n) cols ->
  Forall (fun b => length b = length cols)
    (map (fun r => concat (map (fun c => block r 1 (data c)) cols))
         (seq 0 n)).
Proof.
  intros cols n Hall. apply Forall_forall. intros b Hb.
  apply in_map_iff in Hb. destruct Hb as [r [<- Hr]]. apply in_seq in Hr.
  rewrite (concat_length_const _ 1).
  - rewrite length_map. lia.
  - apply Forall_forall. intros x Hx. apply in_map_iff in Hx.
    destruct Hx as [c [<- Hc]]. rewrite Forall_forall in Hall.
    pose proof (Hall c Hc) as Hw. apply block_length. lia.
Qed.

Lemma stacked_wf : forall (cols : list (ndarray F)) n,
  Forall (fun c => length (data c) = n) cols ->
  wf (stacked cols n).
Proof.
  intros cols n Hall. unfold wf, stacked. simpl.
  rewrite (concat_length_const _ (length cols))
    by (apply stacked_rows; assumption).
  rewrite length_map, length_seq. lia.
Qed.

Lemma vectors_lengths : forall (cols : list (ndarray F)) n,
  Forall (fun c => shape c = [n] /\ wf c) cols ->
  Forall (fun c => length (data c) = n) cols.
Proof.
  intros cols n Hall. apply Forall_forall. intros c Hc.
  rewrite Forall_forall in Hall. destruct (Hall c Hc) as [Hs Hw].
  unfold wf in Hw. rewrite Hs in Hw. simpl in Hw. lia.
Qed.

(** Column [i] of the stacked matrix is the [i]-th array stacked. *)
Lemma stacked_index : forall (cols : list (ndarray F)) n i c,
  Forall (fun c => shape c = [n] /\ wf c) cols ->
  nth_error cols i = Some c ->
  index_axis1 (stacked cols n) i = Ok c.
Proof.
  intros cols n i c Hall Hc.
  assert (Hi : i < length cols)
    by (apply nth_error_Some; congruence).
  pose proof (stacked_rows cols n (vectors_lengths cols n Hall)) as Hrows.
  rewrite (take_axis1_matrix _ n (length cols) i)
    by (reflexivity || assumption).
  unfold stacked. cbn [data].
  set (rows := map _ (seq 0 n)) in *.
  assert (Hn : length rows = n)
    by (unfold rows; rewrite length_map, length_seq; reflexivity).
  rewrite <- Hn at 2. rewrite (chunks_concat _ rows Hrows).
  unfold rows. rewrite map_map.
  assert (Hin : In c cols) by (eapply nth_error_In; eassumption).
  rewrite Forall_forall in Hall.
  destruct (Hall c Hin) as [Hs Hw].
  assert (Hblk : forall r, In r (seq 0 n) ->
            block i 1 (concat (map (fun c0 => block r 1 (data c0)) cols))
            = block r 1 (data c)).
  { intros r Hr. apply in_seq in Hr.
    rewrite block_concat.
    - rewrite (nth_indep _ [] ((fun c0 => block r 1 (data c0)) c))
        by (rewrite length_map; exact Hi).
      rewrite (map_nth (fun c0 => block r 1 (data c0))).
      rewrite (nth_error_nth _ _ _ Hc). reflexivity.
    - apply Forall_forall. intros x Hx. apply in_map_iff in Hx.
      destruct Hx as [c0 [<- Hc0]].
      destruct (Hall c0 Hc0) as [Hs0 Hw0].
      unfold wf in Hw0. rewrite Hs0 in Hw0. simpl in Hw0.
      apply block_length. lia.
    - rewrite length_map. exact Hi. }
  rewrite (map_ext_in _ _ _ Hblk).
  f_equal. destruct c as [sc dc]. simpl in *. subst sc. f_equal.
  unfold wf in Hw. simpl in Hw. apply (concat_chunks n 1 dc). lia.
Qed.

End ArrayFacts.

(** * The claims *)

(** ** The base contract *)

Section CopulaFacts.
Import NumPy.
Context {F : Type} `{Float F} `{Elementary F}.

(** X18: what the inherited [logpdf] computes, by the number of parameters
    in [args]: the tuple is unpacked at the call of [pdf]. *)
Lemma base_logpdf_by_arity : forall (fam : Copula.family F) u,
  Copula.logpdf_override fam = None ->
  Copula.logpdf fam u (PyTuple [])
  = fmap (arr_map f_log) (Copula.pdf fam u (PyTuple []))
  /\ (forall a,
        Copula.logpdf fam u (PyTuple [a])
        = fmap (arr_map f_log) (Copula.pdf fam u a))
  /\ (forall a b rest,
        Copula.logpdf fam u (PyTuple (a :: b :: rest)) = Raise TypeError)
  /\ (forall x, Copula.logpdf fam u (PyFloat x) = Raise TypeError).
Proof.
  intros fam u Hno. unfold Copula.logpdf. rewrite Hno.
  unfold Copula.base_logpdf, Copula.pdf_star, fmap.
  repeat split; reflexivity.
Qed.

(** C9: a family that leaves [rvs] to the base class gets
    [NotImplementedError] from it for every [nobs], [args] and
    [random_state], and one that leaves the tau-inversion hook
    [_arg_from_tau] to the base class gets [NotImplementedError] for every
    [tau]. *)
Theorem base_rvs_and_arg_from_tau_not_implemented :
  forall fam : Copula.family F,
    Copula.rvs_override fam = None ->
    Copula.arg_from_tau_override fam = None ->
    (forall nobs args rs,
       Copula.rvs fam nobs args rs = Raise NotImplementedError)
    /\ (forall tau,
          Copula._arg_from_tau fam tau = Raise NotImplementedError).
Proof.
  intros fam Hrvs Htau. unfold Copula.rvs, Copula._arg_from_tau.
  rewrite Hrvs, Htau. split; reflexivity.
Qed.

End CopulaFacts.

(** The independence copula overrides neither method. *)
Lemma base_rvs_and_arg_from_tau_not_implemented_witness :
  (forall nobs args rs,
     Copula.rvs (Examples.independence (F := XReal.xreal) 2) nobs args rs
     = Raise NotImplementedError)
  /\ (forall tau,
        Copula._arg_from_tau (Examples.independence (F := XReal.xreal) 2) tau
        = Raise NotImplementedError).
Proof.
  apply (base_rvs_and_arg_from_tau_not_implemented
           (Examples.independence 2)); reflexivity.
Defined.

(** C2, at an input where it fails: the iterated FGM family takes two
    parameters and does not override [logpdf].  With [args = (1/2, 1/4)]
    the density [pdf(u, args)] is defined, and so is its logarithm, but the
    inherited [logpdf(u, args)] calls [pdf(u, 1/2, 1/4)], one argument more
    than [pdf] takes. *)
Theorem base_logpdf_two_parameters :
  let fam := Examples.iterated_fgm (Examples.num 0, Examples.num 0) in
  let args := PyTuple [PyFloat (Examples.num (/ 2)); PyFloat (Examples.num (/ 4))] in
  Copula.logpdf fam Examples.u_1x2 args = Raise TypeError
  /\ exists p,
       Copula.pdf fam Examples.u_1x2 args = Ok p
       /\ NumPy.shape p = [1]
       /\ fmap (NumPy.arr_map f_log) (Copula.pdf fam Examples.u_1x2 args)
          = Ok (NumPy.arr_map f_log p).
Proof.
  split.
  - reflexivity.
  - eexists. split; [reflexivity |]. split; reflexivity.
Qed.

(** ** The joint distribution *)

Section JointFacts.
Import NumPy.
Import CopulaDistribution.
Context {F : Type} `{Float F} `{Elementary F}.

(** C6: [pdf] is the exponential of [logpdf], elementwise, and raises
    whatever [logpdf] raises: there is no other path to a density. *)
Theorem pdf_is_exp_of_logpdf :
  forall (self : CopulaDistribution.t F) y cop_args marg_args,
    pdf self y cop_args marg_args
    = match logpdf self y cop_args marg_args with
      | Ok l => Ok {| shape := shape l; data := map f_exp (data l) |}
      | Raise e => Raise e
      end.
Proof.
  intros self y ca ma. unfold pdf.
  destruct (logpdf self y ca ma); reflexivity.
Qed.

(** C10: without [marg_args], [cdf] and [logpdf] behave as with one empty
    tuple per entry of the last axis of [y], and [rvs] as with one empty
    tuple per marginal; the length of the former list is [y.shape[-1]]
    whatever the number of marginals. *)
Theorem default_marg_args_lengths :
  forall (self : CopulaDistribution.t F) y cop_args nobs rs,
    cdf self y cop_args None
    = (n <- shape_last y ;; cdf self y cop_args (Some (repeat [] n)))
    /\ logpdf self y cop_args None
       = (n <- shape_last y ;; logpdf self y cop_args (Some (repeat [] n)))
    /\ rvs self nobs cop_args None rs
       = rvs self nobs cop_args (Some (repeat [] (k_vars self))) rs
    /\ (forall pre m (d : list F),
          shape_last {| shape := pre ++ [m]; data := d |} = Ok m
          /\ y_default_marg_args {| shape := pre ++ [m]; data := d |}
             = Ok (repeat [] m)
          /\ length (repeat (@nil F) m) = m)
    /\ length (rvs_default_marg_args self) = k_vars self.
Proof.
  intros self y ca nobs rs.
  assert (Hlast : forall pre m (d : list F),
            shape_last {| shape := pre ++ [m]; data := d |} = Ok m).
  { intros pre m d. unfold shape_last. simpl.
    rewrite rev_app_distr. reflexivity. }
  repeat split.
  - unfold cdf, y_default_marg_args.
    destruct (shape_last y); reflexivity.
  - unfold logpdf, y_default_marg_args.
    destruct (shape_last y); reflexivity.
  - apply Hlast.
  - unfold y_default_marg_args. rewrite Hlast. reflexivity.
  - apply repeat_length.
  - apply repeat_length.
Qed.

End JointFacts.

(** ** Fitting the correlation parameter *)

Section PairFacts.

Lemma pairs_In : forall k i j,
  In (i, j) (Copula.pairs k) <-> i < j < k.
Proof.
  intros k i j. unfold Copula.pairs. rewrite in_flat_map. split.
  - intros [i' [Hi' Hij]]. apply in_seq in Hi'.
    apply in_map_iff in Hij. destruct Hij as [j' [Heq Hj']].
    inversion Heq; subst. apply in_seq in Hj'. lia.
  - intros Hij. exists i. split.
    + apply in_seq. lia.
    + apply in_map_iff. exists j. split; [reflexivity |].
      apply in_seq. lia.
Qed.

Lemma NoDup_flat_map_fst : forall (f : nat -> list nat) (l : list nat),
  NoDup l -> (forall i, NoDup (f i)) ->
  NoDup (flat_map (fun i => map (fun j => (i, j)) (f i)) l).
Proof.
  intros f l Hl Hf. induction Hl as [| i l Hi Hl IH]; simpl.
  - constructor.
  - apply NoDup_app.
    + apply NoDup_map_NoDup_ForallPairs; [| apply Hf].
      intros a b _ _ Hab. congruence.
    + exact IH.
    + intros [i' j'] Hin1 Hin2. apply in_map_iff in Hin1.
      destruct Hin1 as [j0 [Heq _]]. inversion Heq; subst.
      apply in_flat_map in Hin2. destruct Hin2 as [i0 [Hi0 Hin2]].
      apply in_map_iff in Hin2. destruct Hin2 as [j1 [Heq1 _]].
      inversion Heq1; subst. contradiction.
Qed.

Lemma pairs_NoDup : forall k, NoDup (Copula.pairs k).
Proof.
  intros k. unfold Copula.pairs. apply NoDup_flat_map_fst.
  - apply seq_NoDup.
  - intros i. apply seq_NoDup.
Qed.

Lemma pairs_length_upto : forall k m,
  m <= k ->
  2 * length (flat_map
                (fun i => map (fun j => (i, j)) (seq (i + 1) (k - (i + 1))))
                (seq 0 m))
  = m * (2 * k - m - 1).
Proof.
  intros k m. induction m as [| m IH]; intros Hm.
  - reflexivity.
  - rewrite seq_S, flat_map_app, length_app. simpl.
    rewrite app_nil_r, length_map, length_seq.
    specialize (IH ltac:(lia)). nia.
Qed.

Lemma pairs_length : forall k,
  length (Copula.pairs k) = k * (k - 1) / 2.
Proof.
  intros k. unfold Copula.pairs.
  pose proof (pairs_length_upto k k (Nat.le_refl k)) as Hl.
  apply Nat.div_unique_exact; [lia |].
  rewrite Hl. destruct k; [reflexivity |]. nia.
Qed.

End PairFacts.

Section FitFacts.
Import NumPy.
Context {F : Type} `{Float F}.
Variable kendalltau : ndarray F -> ndarray F -> F.
Variable np_mean : list F -> F.

Lemma pair_taus : forall (x : ndarray F) (col : nat -> ndarray F) k ps acc,
  (forall i, i < k -> index_last x i = Ok (col i)) ->
  (forall i j, In (i, j) ps -> i < k /\ j < k) ->
  for_each ps (Copula.pair_tau kendalltau x) acc
  = Ok (acc ++ map (fun ij => kendalltau (col (fst ij)) (col (snd ij))) ps).
Proof.
  intros x col k ps. induction ps as [| [i j] ps IH]; intros acc Hcol Hin.
  - simpl. rewrite app_nil_r. reflexivity.
  - destruct (Hin i j (or_introl eq_refl)) as [Hi Hj].
    simpl. unfold Copula.pair_tau at 1. simpl.
    rewrite (Hcol i Hi), (Hcol j Hj). simpl.
    rewrite IH.
    + rewrite <- app_assoc. reflexivity.
    + exact Hcol.
    + intros i' j' H'. apply Hin. right. exact H'.
Qed.

Lemma pair_taus_stop : forall (x : ndarray F) rows m ps acc,
  shape x = rows ++ [m] ->
  (exists i j, In (i, j) ps /\ (m <= i \/ m <= j)) ->
  for_each ps (Copula.pair_tau kendalltau x) acc = Raise IndexError.
Proof.
  intros x rows m ps. induction ps as [| [i j] ps IH]; intros acc Hs Hex.
  - destruct Hex as [i [j [[] _]]].
  - simpl. unfold Copula.pair_tau at 1. cbn [fst snd].
    rewrite (index_last_eq x rows m i Hs), (index_last_eq x rows m j Hs).
    destruct (Nat.ltb_spec i m) as [Hi | Hi]; [| reflexivity].
    destruct (Nat.ltb_spec j m) as [Hj | Hj]; [| reflexivity].
    cbn [bind]. apply IH; [exact Hs |].
    destruct Hex as [i' [j' [[Heq | Hin] Hout]]].
    + inversion Heq; subst. lia.
    + exists i', j'. split; assumption.
Qed.

(** C5, amended: [fit_corr_param] takes its branch on the number [m] of
    columns of the data, not on [k_dim].  On a matrix of two columns it
    hands the tau-inversion hook the Kendall's tau of the two columns,
    whatever [k_dim]; on any other matrix with [k_dim] columns or more,
    [np.mean] of the Kendall's taus of the pairs of columns [(i, j)],
    [i < j < k_dim], each unordered pair once, [k_dim (k_dim - 1) / 2] of
    them; on any other matrix with fewer columns than [k_dim >= 2], the
    loop over the pairs raises [IndexError]. *)
Theorem fit_corr_param_tau :
  forall (fam : Copula.family F) (data : ndarray F) n m
         (col : nat -> ndarray F),
    let k := Copula.k_dim fam in
    let tau := fun ij : nat * nat =>
                 kendalltau (col (fst ij)) (col (snd ij)) in
    shape data = [n; m] ->
    (forall i, i < m -> index_last data i = Ok (col i)) ->
    (m = 2 ->
     Copula.fit_corr_param kendalltau np_mean fam data
     = Copula._arg_from_tau fam (tau (0, 1)))
    /\ (m <> 2 -> k <= m ->
        Copula.fit_corr_param kendalltau np_mean fam data
        = Copula._arg_from_tau fam (np_mean (map tau (Copula.pairs k))))
    /\ (m <> 2 -> m < k -> 2 <= k ->
        Copula.fit_corr_param kendalltau np_mean fam data
        = Raise IndexError)
    /\ length (Copula.pairs k) = k * (k - 1) / 2
    /\ NoDup (Copula.pairs k)
    /\ (forall i j, In (i, j) (Copula.pairs k) <-> i < j < k).
Proof.
  intros fam data n m col k tau Hs Hcol.
  split; [| split; [| split; [| split; [| split]]]].
  - intros H2. unfold Copula.fit_corr_param. rewrite Hs. simpl.
    rewrite H2. simpl.
    rewrite <- !(index_last_matrix data n m) by exact Hs.
    rewrite (Hcol 0), (Hcol 1) by lia. reflexivity.
  - intros H2 Hk. unfold Copula.fit_corr_param. rewrite Hs.
    cbn [getitem nth_error bind].
    destruct (Nat.eqb_spec m 2) as [Heq | _]; [contradiction |].
    fold k.
    rewrite (pair_taus data col m (Copula.pairs k) [] Hcol).
    + reflexivity.
    + intros i j Hij. apply pairs_In in Hij. lia.
  - intros H2 Hm Hk. unfold Copula.fit_corr_param. rewrite Hs.
    cbn [getitem nth_error bind].
    destruct (Nat.eqb_spec m 2) as [Heq | _]; [contradiction |].
    fold k.
    rewrite (pair_taus_stop data [n] m (Copula.pairs k) [] Hs).
    + reflexivity.
    + exists 0, (k - 1). split.
      * apply pairs_In. lia.
      * right. lia.
  - apply pairs_length.
  - apply pairs_NoDup.
  - apply pairs_In.
Qed.

End FitFacts.

(** ** Sampling *)

Section RvsFacts.
Import NumPy.
Import CopulaDistribution.
Import Loops.
Context {F : Type} `{Float F}.

Lemma block_incl : forall i size (l : list F), incl (block i size l) l.
Proof.
  intros i size l e He. unfold block in He.
  rewrite <- (firstn_skipn (i * size) l). apply in_or_app. right.
  rewrite <- (firstn_skipn size (skipn (i * size) l)).
  apply in_or_app. left. exact He.
Qed.

Lemma take_axis_incl : forall ax (a : ndarray F) i c,
  take_axis ax a i = Ok c -> incl (data c) (data a).
Proof.
  intros ax a i c Hc e He. unfold take_axis in Hc.
  destruct (nth_error (shape a) ax) as [m |]; [| discriminate].
  destruct (i <? m); [| discriminate].
  inversion Hc; subst; clear Hc. simpl in He.
  apply in_concat in He. destruct He as [b [Hb He]].
  apply in_map_iff in Hb. destruct Hb as [blk [<- Hblk]].
  apply block_incl in He. unfold chunks in Hblk.
  apply in_map_iff in Hblk. destruct Hblk as [r [<- _]].
  apply block_incl in He. exact He.
Qed.

Variables (ds : list (dist F)) (margs : list (list F)).
Variables (n m : nat) (sample : ndarray F) (vs : nat -> ndarray F).

Hypothesis sample_shape : shape sample = [n; m].
Hypothesis sample_wf : wf sample.
Hypothesis enough_columns : length ds <= m.
Hypothesis ppf_columns : forall i d col,
  nth_error ds i = Some d ->
  index_axis1 sample i = Ok col ->
  exists a,
    nth_error margs i = Some a
    /\ dist_ppf d (arr_map contract col) a = Ok (vs i)
    /\ shape (vs i) = [n] /\ wf (vs i).

Lemma rvs_step : forall i d s,
  nth_error ds i = Some d ->
  transformed_upto n m sample vs i s ->
  exists s', rvs_body margs (i, d) s = Ok s' /\ transformed_upto n m sample vs (S i) s'.
Proof.
  intros i d s Hd [Hs [Hw Hcols]].
  assert (Hi : i < m).
  { apply Nat.lt_le_trans with (length ds); [| exact enough_columns].
    apply nth_error_Some. congruence. }
  pose proof (Hcols i Hi) as Hcol. rewrite Nat.ltb_irrefl in Hcol.
  rewrite (take_axis1_matrix sample n m i sample_shape Hi) in Hcol.
  destruct (ppf_columns i d _ Hd
              (take_axis1_matrix sample n m i sample_shape Hi))
    as [a [Ha [Hv [Hvs Hvw]]]].
  exists (put_column s i (vs i) n m). split.
  - unfold rvs_body. rewrite Hcol. simpl.
    unfold getitem. rewrite Ha. simpl. rewrite Hv. simpl.
    apply put_axis1_matrix; assumption.
  - split; [reflexivity |].
    split; [apply put_column_wf; assumption |].
    intros j Hj.
    rewrite (put_column_index s (vs i) n m i j) by assumption.
    destruct (Nat.eqb_spec j i) as [-> | Hne].
    + assert (Hlt : (i <? S i) = true) by (apply Nat.ltb_lt; lia).
      rewrite Hlt. reflexivity.
    + rewrite (Hcols j Hj).
      destruct (Nat.ltb_spec j i) as [Hlt | Hge];
        destruct (Nat.ltb_spec j (S i)) as [Hlt' | Hge'];
        try reflexivity; lia.
Qed.

Lemma rvs_loop : forall ds' i s,
  (forall j d, nth_error ds' j = Some d -> nth_error ds (i + j) = Some d) ->
  transformed_upto n m sample vs i s ->
  exists out,
    for_each (combine (seq i (length ds')) ds') (rvs_body margs) s = Ok out
    /\ transformed_upto n m sample vs (i + length ds') out.
Proof.
  induction ds' as [| d ds' IH]; intros i s Hnth Hinv.
  - exists s. simpl. rewrite Nat.add_0_r. split; [reflexivity | exact Hinv].
  - assert (Hd : nth_error ds i = Some d).
    { rewrite <- (Nat.add_0_r i). apply Hnth. reflexivity. }
    destruct (rvs_step i d s Hd Hinv) as [s' [Hs' Hinv']].
    destruct (IH (S i) s') as [out [Hout Hfin]].
    + intros j d' Hj. replace (S i + j) with (i + S j) by lia.
      apply Hnth. exact Hj.
    + exact Hinv'.
    + exists out. split.
      * cbn [length seq combine for_each]. rewrite Hs'. exact Hout.
      * replace (i + length (d :: ds')) with (S i + length ds')
          by (simpl; lia).
        exact Hfin.
Qed.

Lemma rvs_all : exists out,
  for_each (enumerate ds) (rvs_body margs) sample = Ok out
  /\ transformed_upto n m sample vs (length ds) out.
Proof.
  apply (rvs_loop ds 0 sample).
  - intros j d Hj. exact Hj.
  - split; [exact sample_shape |]. split; [exact sample_wf |].
    intros j _. reflexivity.
Qed.

End RvsFacts.

Section RvsClaims.
Import NumPy.
Import CopulaDistribution.
Import Loops.
Context {F : Type} `{Float F}.

Lemma rvs_transforms_columns :
  forall (copula : Copula.family F) (ds : list (dist F)) cop_args0
         nobs cop_args marg_args rs sample n m,
    let self := __init__ copula ds cop_args0 in
    let margs := match marg_args with
                 | None => repeat [] (length ds)
                 | Some a => a
                 end in
    Copula.rvs copula nobs (resolve_cop_args self cop_args) rs = Ok sample ->
    shape sample = [n; m] ->
    wf sample ->
    length ds <= m ->
    length ds <= length margs ->
    (forall i d col a,
       nth_error ds i = Some d ->
       index_axis1 sample i = Ok col ->
       nth_error margs i = Some a ->
       exists v,
         dist_ppf d (arr_map contract col) a = Ok v
         /\ shape v = [n] /\ wf v) ->
    exists out,
      rvs self nobs cop_args marg_args rs = Ok out
      /\ transformed_upto n m sample (ppf_of_column ds margs sample)
           (length ds) out.
Proof.
  intros copula ds ca0 nobs ca ma rs sample n m self margs
         Hdraw Hs Hw Hm Hlen Hppf.
  destruct (rvs_all ds margs n m sample (ppf_of_column ds margs sample)
              Hs Hw Hm) as [out [Hout Hinv]].
  - intros i d col Hd Hcol.
    assert (Hi : i < length margs).
    { apply Nat.lt_le_trans with (length ds); [| exact Hlen].
      apply nth_error_Some. congruence. }
    destruct (nth_error margs i) as [a |] eqn:Ha;
      [| apply nth_error_None in Ha; lia].
    destruct (Hppf i d col a Hd Hcol Ha) as [v [Hv [Hvs Hvw]]].
    exists a. unfold ppf_of_column. rewrite Hd, Hcol, Ha, Hv.
    repeat split; assumption.
  - exists out. split; [| exact Hinv].
    unfold rvs, rvs_default_marg_args.
    change (CopulaDistribution.copula self) with copula.
    change (marginals self) with ds.
    change (k_vars self) with (length ds).
    rewrite Hdraw. cbn [bind].
    destruct ma; exact Hout.
Qed.

(** C3: when the copula draws an [(n, m)] matrix with a column for each
    marginal and each [ppf] returns one value per draw, [rvs] returns a
    matrix whose column [i] is [marginals[i].ppf] applied to
    [0.5 + (1 - 1e-10) * (u_i - 0.5)], [u_i] the column the copula drew,
    with [marg_args[i]] as positional arguments. *)
Theorem rvs_column_is_ppf_of_contracted_draw :
  forall (copula : Copula.family F) (ds : list (dist F)) cop_args0
         nobs cop_args marg_args rs sample n m,
    let self := __init__ copula ds cop_args0 in
    let margs := match marg_args with
                 | None => repeat [] (length ds)
                 | Some a => a
                 end in
    Copula.rvs copula nobs (resolve_cop_args self cop_args) rs = Ok sample ->
    shape sample = [n; m] ->
    wf sample ->
    length ds <= m ->
    length ds <= length margs ->
    (forall i d col a,
       nth_error ds i = Some d ->
       index_axis1 sample i = Ok col ->
       nth_error margs i = Some a ->
       exists v,
         dist_ppf d (arr_map contract col) a = Ok v
         /\ shape v = [n] /\ wf v) ->
    exists out,
      rvs self nobs cop_args marg_args rs = Ok out
      /\ shape out = [n; m]
      /\ forall i d u_i a,
           nth_error ds i = Some d ->
           index_axis1 sample i = Ok u_i ->
           nth_error margs i = Some a ->
           index_axis1 out i
           = dist_ppf d
               (arr_map (fun u => f_add f_0_5
                                    (f_mul (f_sub f_1 f_1em10)
                                           (f_sub u f_0_5))) u_i) a.
Proof.
  intros copula ds ca0 nobs ca ma rs sample n m self margs
         Hdraw Hs Hw Hm Hlen Hppf.
  destruct (rvs_transforms_columns copula ds ca0 nobs ca ma rs sample n m
              Hdraw Hs Hw Hm Hlen Hppf) as [out [Hout [Hso [_ Hcols]]]].
  exists out. split; [exact Hout |]. split; [exact Hso |].
  intros i d col a Hd Hcol Ha.
  assert (Hi : i < length ds) by (apply nth_error_Some; congruence).
  rewrite (Hcols i) by lia.
  apply Nat.ltb_lt in Hi. rewrite Hi.
  destruct (Hppf i d col a Hd Hcol Ha) as [v [Hv _]].
  unfold ppf_of_column. fold margs. rewrite Hd, Hcol, Ha, Hv.
  symmetry. exact Hv.
Qed.

End RvsClaims.

(** ** Boundary draws, in an arithmetic that rounds to nearest *)

Section RoundingFacts.
Import XReal.
Import Rounded.
Import CopulaDistribution.
Variable format : R -> Prop.
Variable rnd : R -> R.
Hypothesis Hnearest : rounds_to_nearest format rnd.

Lemma rnd_representable : forall x : R,
  (-1 <= x <= 1)%R -> format x -> rnd x = x.
Proof.
  intros x Hx Hf. destruct (Hnearest x Hx) as [_ Hn].
  specialize (Hn x Hf). unfold Rabs in Hn.
  repeat destruct Rcase_abs; lra.
Qed.

Lemma rnd_monotone : forall x y : R,
  (-1 <= x)%R -> (x <= y)%R -> (y <= 1)%R -> (rnd x <= rnd y)%R.
Proof.
  intros x y Hx Hxy Hy.
  destruct (Req_dec x y) as [-> | Hne]; [lra |].
  destruct (Hnearest x ltac:(lra)) as [Fx Nx].
  destruct (Hnearest y ltac:(lra)) as [Fy Ny].
  specialize (Nx (rnd y) Fy). specialize (Ny (rnd x) Fx).
  unfold Rabs in *. repeat destruct Rcase_abs; lra.
Qed.

Lemma rnd_between : forall lo hi x : R,
  format lo -> format hi ->
  (-1 <= lo)%R -> (lo <= x <= hi)%R -> (hi <= 1)%R ->
  (lo <= rnd x <= hi)%R.
Proof.
  intros lo hi x Flo Fhi Hlo Hx Hhi.
  pose proof (rnd_representable lo ltac:(lra) Flo) as Elo.
  pose proof (rnd_representable hi ltac:(lra) Fhi) as Ehi.
  pose proof (rnd_monotone lo x ltac:(lra) ltac:(lra) ltac:(lra)).
  pose proof (rnd_monotone x hi ltac:(lra) ltac:(lra) ltac:(lra)).
  lra.
Qed.

(** The contraction, operation by operation. *)
Lemma contract_rounded : forall r : R,
  contract (H := rounded_float rnd) (Finite r)
  = Finite (rnd (rnd (/ 2)
                 + rnd (rnd (rnd 1 - rnd (/ 10000000000))
                        * rnd (r - rnd (/ 2)))))%R.
Proof.
  intros r. reflexivity.
Qed.

Section Order.
Hypothesis Hm1 : format (-1).
Hypothesis Hmh : format (- / 2).
Hypothesis H0 : format 0.
Hypothesis Hh : format (/ 2).
Hypothesis H1 : format 1.

Lemma factor_in_unit_interval :
  (0 <= rnd (rnd 1 - rnd (/ 10000000000)) <= 1)%R.
Proof.
  rewrite (rnd_representable 1) by (lra || assumption).
  assert (Ht : (0 <= rnd (/ 10000000000) <= 1)%R).
  { apply rnd_between; try assumption; lra. }
  apply rnd_between; try assumption; lra.
Qed.

Lemma centred_draw : forall r : R,
  (0 <= r <= 1)%R -> (- / 2 <= rnd (r - rnd (/ 2)) <= / 2)%R.
Proof.
  intros r Hr. rewrite (rnd_representable (/ 2)) by (lra || assumption).
  apply rnd_between; try assumption; lra.
Qed.

Lemma contract_nondecreasing : forall r s : R,
  (0 <= r)%R -> (r <= s)%R -> (s <= 1)%R ->
  (rnd (rnd (/ 2)
        + rnd (rnd (rnd 1 - rnd (/ 10000000000)) * rnd (r - rnd (/ 2))))
   <= rnd (rnd (/ 2)
           + rnd (rnd (rnd 1 - rnd (/ 10000000000))
                  * rnd (s - rnd (/ 2)))))%R.
Proof.
  intros r s Hr Hrs Hs.
  pose proof factor_in_unit_interval as Hc.
  pose proof (centred_draw r ltac:(lra)) as Hcr.
  pose proof (centred_draw s ltac:(lra)) as Hcs.
  set (c := rnd (rnd 1 - rnd (/ 10000000000))) in *.
  assert (Hd : (rnd (r - rnd (/ 2)) <= rnd (s - rnd (/ 2)))%R).
  { rewrite (rnd_representable (/ 2)) by (lra || assumption).
    apply rnd_monotone; lra. }
  set (a := rnd (r - rnd (/ 2))) in *.
  set (b := rnd (s - rnd (/ 2))) in *.
  assert (Hp : (rnd (c * a) <= rnd (c * b))%R).
  { apply rnd_monotone; nra. }
  assert (Hpa : (- / 2 <= rnd (c * a) <= / 2)%R).
  { apply rnd_between; try assumption; nra. }
  assert (Hpb : (- / 2 <= rnd (c * b) <= / 2)%R).
  { apply rnd_between; try assumption; nra. }
  rewrite (rnd_representable (/ 2)) by (lra || assumption).
  apply rnd_monotone; lra.
Qed.

Lemma contract_one_half :
  rnd (rnd (/ 2)
       + rnd (rnd (rnd 1 - rnd (/ 10000000000)) * rnd (/ 2 - rnd (/ 2))))%R
  = (/ 2)%R.
Proof.
  rewrite (rnd_representable (/ 2)) by (lra || assumption).
  replace (/ 2 - / 2)%R with 0%R by lra.
  rewrite (rnd_representable 0) by (lra || assumption).
  rewrite Rmult_0_r.
  rewrite (rnd_representable 0) by (lra || assumption).
  rewrite Rplus_0_r.
  apply rnd_representable; [lra | assumption].
Qed.

End Order.

Hypothesis Hgrid : resolves_grid format.

Lemma grid_representable : forall (k : Z) (x : R),
  (Z.abs k <= 34359738368)%Z -> x = grid k -> format x.
Proof.
  intros k x Hk ->. apply Hgrid. exact Hk.
Qed.

Lemma contract_interior : forall u,
  in_unit_interval u ->
  interior format (contract (H := rounded_float rnd) u).
Proof.
  intros u [r [-> Hr]]. rewrite contract_rounded.
  assert (G : forall (k : Z) (x : R),
            (Z.abs k <= 34359738368)%Z ->
            x = (IZR k / 34359738368)%R -> format x).
  { intros k x Hk Hx. apply (grid_representable k x Hk). exact Hx. }
  assert (Hm1 : format (-1)) by (apply (G (-34359738368)%Z); [lia | lra]).
  assert (Hmh : format (- / 2)) by (apply (G (-17179869184)%Z); [lia | lra]).
  assert (H0 : format 0) by (apply (G 0%Z); [lia | lra]).
  assert (Hh : format (/ 2)) by (apply (G 17179869184%Z); [lia | lra]).
  assert (H1 : format 1) by (apply (G 34359738368%Z); [lia | lra]).
  pose proof (centred_draw Hmh Hh r Hr) as Hs.
  rewrite (rnd_representable (/ 2)) in * by (lra || assumption).
  rewrite (rnd_representable 1) by (lra || assumption).
  assert (Ht : (3 / 34359738368 <= rnd (/ 10000000000)
                <= 4 / 34359738368)%R).
  { apply rnd_between; try lra.
    - apply (G 3%Z); [lia | lra].
    - apply (G 4%Z); [lia | lra]. }
  assert (Hc : (34359738364 / 34359738368
                <= rnd (1 - rnd (/ 10000000000))
                <= 34359738365 / 34359738368)%R).
  { apply rnd_between; try lra.
    - apply (G 34359738364%Z); [lia | lra].
    - apply (G 34359738365%Z); [lia | lra]. }
  set (c := rnd (1 - rnd (/ 10000000000))) in *.
  set (s := rnd (r - / 2)) in *.
  assert (Hp : (- (17179869183 / 34359738368) <= rnd (c * s)
                <= 17179869183 / 34359738368)%R).
  { apply rnd_between; try lra.
    - apply (G (-17179869183)%Z); [lia | lra].
    - apply (G 17179869183%Z); [lia | lra].
    - nra. }
  assert (Hg : (1 / 34359738368 <= rnd (/ 2 + rnd (c * s))
                <= 34359738367 / 34359738368)%R).
  { apply rnd_between; try lra.
    - apply (G 1%Z); [lia | lra].
    - apply (G 34359738367%Z); [lia | lra]. }
  eexists. split; [reflexivity |]. split.
  - destruct (Hnearest (/ 2 + rnd (c * s))%R ltac:(lra)) as [Hf _]. exact Hf.
  - lra.
Qed.

End RoundingFacts.

Section BoundaryFacts.
Import NumPy.
Import CopulaDistribution.
Import Loops.
Import XReal.


End BoundaryFacts.

(** ** Binary64 is such an arithmetic *)

Section FormatFacts.
Import Rounded.

Lemma IZR_pow2 : forall z : Z,
  (0 <= z)%Z -> IZR (2 ^ z) = powerRZ 2 z.
Proof.
  intros z Hz. rewrite <- (Z2Nat.id z Hz).
  rewrite <- pow_IZR, pow_powerRZ. reflexivity.
Qed.

Lemma powerRZ_2_split : forall a b : Z,
  powerRZ 2 (a + b) = (powerRZ 2 a * powerRZ 2 b)%R.
Proof.
  intros a b. apply powerRZ_add. lra.
Qed.

Lemma binary64_resolves_grid : resolves_grid binary64.
Proof.
  intros k Hk. exists k, (-35)%Z. split; [| split; [| lia]].
  - unfold grid.
    replace (powerRZ 2 (-35)) with (/ 34359738368)%R; [reflexivity |].
    change (-35)%Z with (Z.opp 35). rewrite powerRZ_neg'.
    rewrite <- IZR_pow2 by lia. reflexivity.
  - change (2 ^ 53)%Z with 9007199254740992%Z. lia.
Qed.

(** Among finitely many candidates one is at the least distance. *)
Lemma least_distance : forall (P : Z -> Prop) (d : Z -> R) (N : Z),
  (0 <= N)%Z -> P 0%Z ->
  exists k, P k /\ (Z.abs k <= N)%Z
            /\ forall j, P j -> (Z.abs j <= N)%Z -> (d k <= d j)%R.
Proof.
  intros P d N HN H0. revert N HN. apply natlike_ind.
  - exists 0%Z. split; [exact H0 |]. split; [lia |].
    intros j _ Hj. assert (j = 0%Z) by lia. subst j. lra.
  - intros N HN [k [Pk [Hk Hmin]]].
    assert (Hadd : forall a k0,
              (Z.abs a <= Z.succ N)%Z ->
              P k0 -> (Z.abs k0 <= Z.succ N)%Z ->
              exists k1, P k1 /\ (Z.abs k1 <= Z.succ N)%Z
                         /\ (d k1 <= d k0)%R /\ (P a -> (d k1 <= d a)%R)).
    { intros a k0 Ha Pk0 Hk0.
      destruct (Classical_Prop.classic (P a)) as [Pa | NPa].
      - destruct (Rle_dec (d k0) (d a)) as [Hle | Hgt].
        + exists k0. repeat split; try assumption; lra.
        + exists a. repeat split; try assumption; lra.
      - exists k0. repeat split; try assumption; [lra | contradiction]. }
    destruct (Hadd (Z.succ N) k ltac:(lia) Pk ltac:(lia))
      as [k1 [Pk1 [Hk1 [H1k H1a]]]].
    destruct (Hadd (- Z.succ N)%Z k1 ltac:(lia) Pk1 Hk1)
      as [k2 [Pk2 [Hk2 [H2k H2a]]]].
    exists k2. split; [exact Pk2 |]. split; [exact Hk2 |].
    intros j Pj Hj.
    destruct (Z.eq_dec j (Z.succ N)) as [-> | Hn1].
    { specialize (H1a Pj). lra. }
    destruct (Z.eq_dec j (- Z.succ N)) as [-> | Hn2].
    { specialize (H2a Pj). lra. }
    specialize (Hmin j Pj ltac:(lia)). lra.
Qed.

Lemma binary64_nearest : forall x : R,
  (-1 <= x <= 1)%R ->
  exists y : R,
    binary64 y
    /\ forall f : R, binary64 f -> (Rabs (y - x) <= Rabs (f - x))%R.
Proof.
  intros x Hx.
  set (u := powerRZ 2 (-1074)).
  assert (Hu : (0 < u)%R) by (apply powerRZ_lt; lra).
  assert (Hscale : forall e : Z,
            (-1074 <= e)%Z -> powerRZ 2 e = (IZR (2 ^ (e + 1074)) * u)%R).
  { intros e He. rewrite IZR_pow2 by lia. unfold u.
    rewrite <- powerRZ_2_split. f_equal. lia. }
  assert (Htwo : (IZR (2 ^ 1075) * u = 2)%R).
  { change 1075%Z with (1 + 1074)%Z. rewrite <- (Hscale 1%Z) by lia.
    simpl. lra. }
  assert (P0 : binary64 (IZR 0 * u)).
  { exists 0%Z, 0%Z. split; [simpl; lra |]. split; [| lia].
    change (2 ^ 53)%Z with 9007199254740992%Z. lia. }
  destruct (least_distance (fun k => binary64 (IZR k * u))
              (fun k => Rabs (IZR k * u - x)) (2 ^ 1075)
              ltac:(apply Z.pow_nonneg; lia) P0)
    as [k [Pk [Hk Hmin]]].
  exists (IZR k * u)%R. split; [exact Pk |].
  intros f Hf.
  assert (Hrep : exists j : Z, f = (IZR j * u)%R).
  { destruct Hf as [m [e [-> [_ [He _]]]]].
    exists (m * 2 ^ (e + 1074))%Z.
    rewrite mult_IZR, (Hscale e He). ring. }
  destruct Hrep as [j ->].
  destruct (Z_le_gt_dec (Z.abs j) (2 ^ 1075)) as [Hj | Hj].
  - exact (Hmin j Hf Hj).
  - apply Rle_trans with (Rabs (IZR 0 * u - x)).
    + apply Hmin; [exact P0 |]. rewrite Z.abs_0. apply Z.pow_nonneg. lia.
    + assert (Hbig : (2 < Rabs (IZR j * u))%R).
      { rewrite Rabs_mult, (Rabs_pos_eq u) by lra.
        rewrite <- abs_IZR. rewrite <- Htwo.
        apply Rmult_lt_compat_r; [exact Hu |].
        apply IZR_lt. lia. }
      replace (IZR 0 * u - x)%R with (- x)%R by (simpl; lra).
      unfold Rabs in *. repeat destruct Rcase_abs; lra.
Qed.

(** Rounding to a nearest number of binary64. *)
Lemma binary64_rounding_exists :
  exists rnd : R -> R, rounds_to_nearest binary64 rnd.
Proof.
  destruct (ClassicalChoice.choice
              (fun (x y : R) =>
                 (-1 <= x <= 1)%R ->
                 binary64 y
                 /\ forall f : R,
                      binary64 f -> (Rabs (y - x) <= Rabs (f - x))%R))
    as [rnd Hrnd].
  - intros x.
    destruct (Classical_Prop.classic (-1 <= x <= 1)%R) as [Hx | Hx].
    + destruct (binary64_nearest x Hx) as [y Hy]. exists y.
      intros _. exact Hy.
    + exists 0%R. intros Hx'. contradiction.
  - exists rnd. exact Hrnd.
Qed.

(** The numbers of binary64 below one stop at [1 - 2 ^ -53]. *)
Lemma binary64_below_one : forall r : R,
  binary64 r -> (r < 1)%R -> (r <= 1 - / 9007199254740992)%R.
Proof.
  intros r [m [e [-> [Hm [He _]]]]] Hr.
  change (2 ^ 53)%Z with 9007199254740992%Z in Hm.
  assert (Hv : powerRZ 2 (-53) = (/ 9007199254740992)%R).
  { change (-53)%Z with (Z.opp 53). rewrite powerRZ_neg'.
    rewrite <- IZR_pow2 by lia. reflexivity. }
  destruct (Z_le_gt_dec (-53) e) as [Hbig | Hsmall].
  - assert (Hs : powerRZ 2 e
                 = (IZR (2 ^ (e + 53)) * / 9007199254740992)%R).
    { rewrite IZR_pow2 by lia. rewrite <- Hv, <- powerRZ_2_split.
      f_equal. lia. }
    rewrite Hs in *. rewrite <- Rmult_assoc, <- mult_IZR in *.
    set (j := (m * 2 ^ (e + 53))%Z) in *.
    assert (Hj : (j < 9007199254740992)%Z).
    { apply lt_IZR. lra. }
    assert (Hj' : (IZR j <= 9007199254740991)%R).
    { apply IZR_le. lia. }
    lra.
  - assert (Hp : (0 < powerRZ 2 e <= / 18014398509481984)%R).
    { split; [apply powerRZ_lt; lra |].
      assert (H54 : powerRZ 2 (-54) = (/ 18014398509481984)%R).
      { change (-54)%Z with (Z.opp 54). rewrite powerRZ_neg'.
        rewrite <- IZR_pow2 by lia. reflexivity. }
      rewrite <- H54.
      replace (-54)%Z with (e + (-54 - e))%Z by lia.
      rewrite powerRZ_2_split, <- (IZR_pow2 (-54 - e)) by lia.
      assert (H1 : (1 <= IZR (2 ^ (-54 - e)))%R).
      { apply IZR_le.
        assert (0 < 2 ^ (-54 - e))%Z by (apply Z.pow_pos_nonneg; lia).
        lia. }
      pose proof (powerRZ_lt 2 e ltac:(lra)). nra. }
    assert (Hm' : (IZR m <= 9007199254740991)%R).
    { apply IZR_le. lia. }
    nra.
Qed.

Lemma binary64_one_minus : forall (rnd : R -> R) (r : R),
  rounds_to_nearest binary64 rnd ->
  binary64 r -> (0 < r < 1)%R -> (0 < rnd (1 - r))%R.
Proof.
  intros rnd r Hrnd Hf Hr.
  pose proof (binary64_below_one r Hf ltac:(lra)) as Hgap.
  assert (Hlo : binary64 (/ 9007199254740992)).
  { exists 1%Z, (-53)%Z. split; [| split; [| lia]].
    - change (-53)%Z with (Z.opp 53). rewrite powerRZ_neg'.
      rewrite <- IZR_pow2 by lia.
      change (2 ^ 53)%Z with 9007199254740992%Z. lra.
    - change (2 ^ 53)%Z with 9007199254740992%Z. lia. }
  assert (Hhi : binary64 1).
  { exists 1%Z, 0%Z. split; [simpl; lra |]. split; [| lia].
    change (2 ^ 53)%Z with 9007199254740992%Z. lia. }
  pose proof (rnd_between binary64 rnd Hrnd (/ 9007199254740992) 1 (1 - r)
                Hlo Hhi ltac:(lra) ltac:(lra) ltac:(lra)).
  lra.
Qed.

(** Both formats hold [0], [1/2], [-1/2] and [1]. *)
Lemma binary32_halves :
  binary32 (- / 2) /\ binary32 0 /\ binary32 (/ 2) /\ binary32 1.
Proof.
  assert (Hm : forall m : Z, (Z.abs m <= 1)%Z -> (Z.abs m < 2 ^ 24)%Z).
  { intros m Hm. change (2 ^ 24)%Z with 16777216%Z. lia. }
  repeat split.
  - exists (-1)%Z, (-1)%Z. split; [simpl; lra |]. split; [apply Hm |]; lia.
  - exists 0%Z, 0%Z. split; [simpl; lra |]. split; [apply Hm |]; lia.
  - exists 1%Z, (-1)%Z. split; [simpl; lra |]. split; [apply Hm |]; lia.
  - exists 1%Z, 0%Z. split; [simpl; lra |]. split; [apply Hm |]; lia.
Qed.

Lemma binary64_halves :
  binary64 (- / 2) /\ binary64 0 /\ binary64 (/ 2) /\ binary64 1.
Proof.
  assert (Hm : forall m : Z, (Z.abs m <= 1)%Z -> (Z.abs m < 2 ^ 53)%Z).
  { intros m Hm. change (2 ^ 53)%Z with 9007199254740992%Z. lia. }
  repeat split.
  - exists (-1)%Z, (-1)%Z. split; [simpl; lra |]. split; [apply Hm |]; lia.
  - exists 0%Z, 0%Z. split; [simpl; lra |]. split; [apply Hm |]; lia.
  - exists 1%Z, (-1)%Z. split; [simpl; lra |]. split; [apply Hm |]; lia.
  - exists 1%Z, 0%Z. split; [simpl; lra |]. split; [apply Hm |]; lia.
Qed.

End FormatFacts.

(** The kernel's binary64 agrees: the two boundary draws are contracted
    to values strictly between zero and one, and [rvs] returns finite
    values for the two Lomax marginals on the corner generator. *)
Remark contract_binary64_boundary :
  let contract64 :=
    CopulaDistribution.contract (H := Binary64.binary64_float) in
  PrimFloat.ltb PrimFloat.zero (contract64 PrimFloat.zero) = true
  /\ PrimFloat.ltb (contract64 PrimFloat.zero) PrimFloat.one = true
  /\ PrimFloat.ltb PrimFloat.zero (contract64 PrimFloat.one) = true
  /\ PrimFloat.ltb (contract64 PrimFloat.one) PrimFloat.one = true
  /\ exists out,
       CopulaDistribution.rvs (H := Binary64.binary64_float)
         (Examples.boundary_joint (H := Binary64.binary64_float))
         2 None None RandomNone
       = Ok out
       /\ forallb PrimFloat.is_finite (NumPy.data out) = true.
Proof.
  repeat split; try (vm_compute; reflexivity).
  eexists. split; vm_compute; reflexivity.
Qed.

(** ** The loops of [cdf] and [logpdf] *)

Section LoopFacts.
Import NumPy.
Import CopulaDistribution.
Import Loops.
Context {F : Type} `{Float F}.

Lemma map_seq_nth : forall (A B : Type) (g : A -> B) (d : list A) x0,
  map (fun j => g (nth j d x0)) (seq 0 (length d)) = map g d.
Proof.
  intros A B g d x0. induction d as [| x d IH]; simpl; [reflexivity |].
  f_equal. rewrite <- seq_shift, map_map. exact IH.
Qed.

Lemma map2_map_seq : forall (G : nat -> F) (d : list F) x0,
  map2 f_add (map G (seq 0 (length d))) d
  = map (fun j => f_add (G j) (nth j d x0)) (seq 0 (length d)).
Proof.
  intros G d x0. revert G. induction d as [| x d IH]; intros G; simpl;
    [reflexivity |].
  f_equal. rewrite <- seq_shift, !map_map. apply (IH (fun j => G (S j))).
Qed.

Lemma for_each_ext_in : forall (A S : Type) (xs : list A)
    (f g : A -> S -> result S) s,
  (forall x s', In x xs -> f x s' = g x s') ->
  for_each xs f s = for_each xs g s.
Proof.
  induction xs as [| x xs IH]; intros f g s Hfg; simpl; [reflexivity |].
  rewrite (Hfg x s (or_introl eq_refl)).
  destruct (g x s) as [s' | e]; simpl; [| reflexivity].
  apply IH. intros x' s'' Hx'. apply Hfg. right. exact Hx'.
Qed.

Lemma running_wf : forall s lf i, wf (running s lf i).
Proof.
  intros s lf i. unfold wf, running. simpl.
  rewrite length_map, length_seq. reflexivity.
Qed.

Lemma iadd_running : forall s lf i (l : ndarray F),
  shape l = s -> wf l -> l = lf i ->
  iadd (lpdf_after s lf i) l = Ok (running s lf (S i)).
Proof.
  intros s lf i l Hs Hw Hl. destruct i as [| i]; simpl.
  - rewrite (iadd_scalar f_0_0 l Hw). unfold arr_map, running.
    rewrite Hs. f_equal. f_equal. unfold wf in Hw. rewrite Hs in Hw.
    rewrite <- Hw. subst l. simpl.
    symmetry. apply (map_seq_nth F F (f_add f_0_0)).
  - rewrite iadd_same_shape;
      [| apply running_wf | exact Hw | rewrite Hs; reflexivity].
    f_equal. unfold running. cbn [shape data]. f_equal.
    unfold wf in Hw. rewrite Hs in Hw. rewrite <- Hw.
    rewrite (map2_map_seq _ (data l) f_0_0).
    apply map_ext. intros j.
    rewrite (seq_S (S i) 0), map_app, fold_left_app. simpl.
    subst l. reflexivity.
Qed.

Variables (self : CopulaDistribution.t F) (y : ndarray F).
Variables (margs : list (list F)) (s : list nat).
Variables (lf cf : nat -> ndarray F) (bound : nat).

Hypothesis calls : forall i,
  i < bound ->
  exists d yi a,
    nth_error (marginals self) i = Some d
    /\ index_last y i = Ok yi
    /\ nth_error margs i = Some a
    /\ dist_logpdf d yi a = Ok (lf i)
    /\ dist_cdf d yi a = Ok (cf i)
    /\ shape (lf i) = s /\ wf (lf i).

Lemma cdf_loop : forall i,
  i <= bound ->
  for_each (seq 0 i) (cdf_body self y margs) [] = Ok (map cf (seq 0 i)).
Proof.
  induction i as [| i IH]; intros Hi; [reflexivity |].
  rewrite seq_S, for_each_app, IH by lia. simpl.
  destruct (calls i Hi) as [d [yi [a [Hd [Hy [Ha [_ [Hc _]]]]]]]].
  unfold cdf_body, getitem. rewrite Hd. simpl. rewrite Hy. simpl.
  rewrite Ha. simpl. rewrite Hc. simpl.
  rewrite map_app. reflexivity.
Qed.

Lemma logpdf_loop : forall i,
  i <= bound ->
  for_each (seq 0 i) (logpdf_body self y margs) (scalar f_0_0, [])
  = Ok (lpdf_after s lf i, map cf (seq 0 i)).
Proof.
  induction i as [| i IH]; intros Hi; [reflexivity |].
  rewrite seq_S, for_each_app, IH by lia. simpl.
  destruct (calls i Hi) as [d [yi [a [Hd [Hy [Ha [Hl [Hc [Hs Hw]]]]]]]]].
  unfold logpdf_body, getitem. rewrite Hd. cbn [bind]. rewrite Hy.
  cbn [bind]. rewrite Ha. cbn [bind]. rewrite Hl. cbn [bind].
  rewrite (iadd_running s lf i (lf i) Hs Hw eq_refl). cbn [bind].
  rewrite Hc. cbn [bind]. rewrite map_app. reflexivity.
Qed.

End LoopFacts.

(** ** The log-density *)

Section SklarFacts.
Import NumPy.
Import CopulaDistribution.
Import Loops.
Context {F : Type} `{Float F} `{Elementary F}.

Lemma shape_last_matrix : forall (y : ndarray F) n k,
  shape y = [n; k] -> y_default_marg_args y = Ok (repeat [] k).
Proof.
  intros y n k Hs. unfold y_default_marg_args, shape_last.
  rewrite Hs. reflexivity.
Qed.

(** C1: on an [(n, k_vars)] matrix of observations, when the marginals
    return one log-density and one cdf value per observation, [logpdf] is
    the sum over the marginals of [marginals[i].logpdf(y_i, *marg_args[i])]
    plus [copula.logpdf(u, cop_args)], where [u] is the matrix whose
    column [i] is [marginals[i].cdf(y_i, *marg_args[i])]. *)
Theorem logpdf_is_sklar_sum :
  forall (copula : Copula.family F) (ds : list (dist F)) cop_args0
         (y : ndarray F) cop_args marg_args n
         (logpdfs cdfs : list (ndarray F)),
    let self := __init__ copula ds cop_args0 in
    let k := length ds in
    let margs := match marg_args with
                 | None => repeat [] k
                 | Some a => a
                 end in
    shape y = [n; k] ->
    1 <= k ->
    length logpdfs = k ->
    length cdfs = k ->
    (forall i d y_i,
       nth_error ds i = Some d ->
       index_last y i = Ok y_i ->
       exists a l c,
         nth_error margs i = Some a
         /\ nth_error logpdfs i = Some l
         /\ nth_error cdfs i = Some c
         /\ dist_logpdf d y_i a = Ok l
         /\ dist_cdf d y_i a = Ok c
         /\ shape l = [n] /\ wf l
         /\ shape c = [n] /\ wf c) ->
    exists u,
      shape u = [n; k]
      /\ wf u
      /\ (forall i c, nth_error cdfs i = Some c -> index_axis1 u i = Ok c)
      /\ forall cl,
           Copula.logpdf copula u (resolve_cop_args self cop_args) = Ok cl ->
           shape cl = [n] ->
           wf cl ->
           logpdf self y cop_args marg_args
           = Ok (Sklar.log_density logpdfs cl).
Proof.
  intros copula ds ca0 y ca ma n lps cdfs self k margs
         Hs Hk Hlps Hcdfs Hcalls.
  set (dflt := scalar f_0_0).
  set (lf := fun i => nth i lps dflt).
  set (cf := fun i => nth i cdfs dflt).
  assert (Hall : forall i, i < k ->
            exists d yi a,
              nth_error (marginals self) i = Some d
              /\ index_last y i = Ok yi
              /\ nth_error margs i = Some a
              /\ dist_logpdf d yi a = Ok (lf i)
              /\ dist_cdf d yi a = Ok (cf i)
              /\ shape (lf i) = [n] /\ wf (lf i)).
  { intros i Hi. change (marginals self) with ds.
    destruct (nth_error ds i) as [d |] eqn:Hd;
      [| apply nth_error_None in Hd; fold k in Hd; lia].
    pose proof (index_last_eq y [n] k i Hs) as Hy.
    apply Nat.ltb_lt in Hi. rewrite Hi in Hy.
    destruct (Hcalls i d _ Hd Hy)
      as [a [l [c [Ha [Hl [Hc [Hlp [Hcd [Hsl [Hwl _]]]]]]]]]].
    exists d. eexists. exists a. unfold lf, cf.
    rewrite (nth_error_nth _ _ dflt Hl), (nth_error_nth _ _ dflt Hc).
    split; [reflexivity |]. split; [exact Hy |].
    split; [exact Ha |]. split; [exact Hlp |]. split; [exact Hcd |].
    split; assumption. }
  assert (Hcols : Forall (fun c => shape c = [n] /\ wf c) cdfs).
  { apply Forall_forall. intros c Hc. apply In_nth_error in Hc.
    destruct Hc as [i Hi].
    assert (Hik : i < k)
      by (rewrite <- Hcdfs; apply nth_error_Some; congruence).
    destruct (nth_error ds i) as [d |] eqn:Hd;
      [| apply nth_error_None in Hd; fold k in Hd; lia].
    pose proof (index_last_eq y [n] k i Hs) as Hy.
    apply Nat.ltb_lt in Hik. rewrite Hik in Hy.
    destruct (Hcalls i d _ Hd Hy)
      as [a [l [c' [_ [_ [Hc' [_ [_ [_ [_ Hc'']]]]]]]]]].
    rewrite Hi in Hc'. inversion Hc'; subst c'. exact Hc''. }
  exists (stacked cdfs n).
  split; [simpl; rewrite Hcdfs; reflexivity |].
  split; [apply stacked_wf, vectors_lengths; exact Hcols |].
  split; [intros i c Hc; apply stacked_index; assumption |].
  intros cl Hcl Hscl Hwcl.
  unfold logpdf.
  assert (Hmargs : match ma with
                   | None => y_default_marg_args y
                   | Some m => Ok m
                   end = Ok margs).
  { unfold margs. destruct ma; [reflexivity |].
    apply (shape_last_matrix y n k Hs). }
  rewrite Hmargs. cbn [bind].
  change (k_vars self) with k.
  rewrite (logpdf_loop self y margs [n] lf cf k Hall k (Nat.le_refl k)).
  cbn [bind].
  assert (Hcf : map cf (seq 0 k) = cdfs).
  { unfold cf. rewrite <- Hcdfs.
    rewrite (map_seq_nth _ _ (fun c => c) cdfs dflt). apply map_id. }
  rewrite Hcf.
  rewrite (column_stack_vectors cdfs n).
  - cbn [bind]. unfold ndim. rewrite Hs. cbn [length Nat.eqb].
    change (CopulaDistribution.copula self) with copula.
    rewrite Hcl. cbn [bind].
    destruct k as [| k']; [lia |]. cbn [lpdf_after].
    rewrite iadd_same_shape;
      [| apply running_wf | exact Hwcl | rewrite Hscl; reflexivity].
    f_equal. unfold Sklar.log_density, running. cbn [shape data].
    rewrite Hscl. f_equal.
    unfold wf in Hwcl. rewrite Hscl in Hwcl. rewrite <- Hwcl.
    rewrite (map2_map_seq _ (data cl) f_0_0).
    apply map_ext. intros j. f_equal. f_equal.
    unfold lf. rewrite <- Hlps.
    apply (map_seq_nth _ _ (fun l => nth j (data l) f_0_0) lps dflt).
  - intros ->. simpl in Hcdfs. lia.
  - apply Forall_forall. intros c Hc. rewrite Forall_forall in Hcols.
    apply (Hcols c Hc).
Qed.

End SklarFacts.

(** ** Shapes *)

Section ShapeFacts.
Import NumPy.
Import CopulaDistribution.
Import Loops.
Context {F : Type} `{Float F} `{Elementary F}.

Variables (copula : Copula.family F) (ds : list (dist F)).
Variables (cop_args0 : pyval F) (y : ndarray F).
Variables (margs : list (list F)) (rows : list nat) (m : nat).

Let self := __init__ copula ds cop_args0.
Let lf := marginal_value dist_logpdf ds y margs.
Let cf := marginal_value dist_cdf ds y margs.

Hypothesis y_shape : shape y = rows ++ [m].
Hypothesis y_wf : wf y.
Hypothesis marginals_elementwise : elementwise ds margs.

Lemma elementwise_calls : forall i,
  i < length ds -> i < m -> i < length margs ->
  exists d yi a,
    nth_error (marginals self) i = Some d
    /\ index_last y i = Ok yi
    /\ nth_error margs i = Some a
    /\ dist_logpdf d yi a = Ok (lf i)
    /\ dist_cdf d yi a = Ok (cf i)
    /\ shape (lf i) = rows /\ wf (lf i).
Proof.
  intros i Hi Him Hia. change (marginals self) with ds.
  destruct (nth_error ds i) as [d |] eqn:Hd;
    [| apply nth_error_None in Hd; lia].
  destruct (nth_error margs i) as [a |] eqn:Ha;
    [| apply nth_error_None in Ha; lia].
  pose proof (index_last_eq y rows m i y_shape) as Hy.
  apply Nat.ltb_lt in Him. rewrite Him in Hy.
  pose proof (index_last_wf y rows m i _ y_shape y_wf Hy) as Hwy.
  destruct (marginals_elementwise i d a _ Hd Ha Hwy)
    as [l [c [Hl [Hc [Hsl [Hwl _]]]]]].
  exists d. eexists. exists a.
  unfold lf, cf, marginal_value. rewrite Hd, Hy, Ha, Hl, Hc.
  repeat (split; [reflexivity |]).
  split; [exact Hsl | exact Hwl].
Qed.

Lemma elementwise_cdfs : forall i,
  i < length ds -> i < m -> i < length margs ->
  shape (cf i) = rows /\ wf (cf i).
Proof.
  intros i Hi Him Hia.
  destruct (nth_error ds i) as [d |] eqn:Hd;
    [| apply nth_error_None in Hd; lia].
  destruct (nth_error margs i) as [a |] eqn:Ha;
    [| apply nth_error_None in Ha; lia].
  pose proof (index_last_eq y rows m i y_shape) as Hy.
  apply Nat.ltb_lt in Him. rewrite Him in Hy.
  pose proof (index_last_wf y rows m i _ y_shape y_wf Hy) as Hwy.
  destruct (marginals_elementwise i d a _ Hd Ha Hwy)
    as [l [c [Hl [Hc [_ [_ [Hsc Hwc]]]]]]].
  unfold cf, marginal_value. rewrite Hd, Hy, Ha, Hc.
  split; [exact Hsc | exact Hwc].
Qed.

(** The three methods, once the stacked matrix [u] of the cdf values is
    known and the copula answers on it with arrays of shape [rows]. *)
Lemma results_have_shape : forall u0 cop_args c l,
  length ds <= m -> length ds <= length margs -> 1 <= length ds ->
  column_stack (map cf (seq 0 (length ds))) = Ok u0 ->
  let u := if ndim y =? 1 then squeeze u0 else u0 in
  Copula.cdf copula u cop_args = Ok c ->
  Copula.logpdf copula u cop_args = Ok l ->
  shape l = rows -> wf l ->
  cdf self y (Some cop_args) (Some margs) = Ok c
  /\ exists lp,
       logpdf self y (Some cop_args) (Some margs) = Ok lp
       /\ shape lp = rows
       /\ pdf self y (Some cop_args) (Some margs) = Ok (arr_map f_exp lp).
Proof.
  intros u0 ca c l Hm Hma Hk Hstack u Hc Hl Hsl Hwl.
  assert (Hcalls : forall i, i < length ds ->
            exists d yi a,
              nth_error (marginals self) i = Some d
              /\ index_last y i = Ok yi
              /\ nth_error margs i = Some a
              /\ dist_logpdf d yi a = Ok (lf i)
              /\ dist_cdf d yi a = Ok (cf i)
              /\ shape (lf i) = rows /\ wf (lf i)).
  { intros i Hi. apply elementwise_calls; lia. }
  split.
  - unfold cdf. cbn [bind resolve_cop_args].
    change (k_vars self) with (length ds).
    rewrite (cdf_loop self y margs rows lf cf (length ds) Hcalls
               (length ds) (Nat.le_refl _)).
    cbn [bind]. rewrite Hstack. cbn [bind]. exact Hc.
  - assert (Hlp : logpdf self y (Some ca) (Some margs)
                  = Ok {| shape := rows;
                          data := map2 f_add
                                    (data (running rows lf (length ds)))
                                    (data l) |}).
    { unfold logpdf. cbn [bind resolve_cop_args].
      change (k_vars self) with (length ds).
      rewrite (logpdf_loop self y margs rows lf cf (length ds) Hcalls
                 (length ds) (Nat.le_refl _)).
      cbn [bind]. rewrite Hstack. cbn [bind].
      change (CopulaDistribution.copula self) with copula.
      fold u. rewrite Hl. cbn [bind].
      destruct (length ds) as [| k']; [lia |]. cbn [lpdf_after].
      rewrite iadd_same_shape;
        [reflexivity | apply running_wf | exact Hwl | exact Hsl]. }
    eexists. split; [exact Hlp |]. split; [reflexivity |].
    unfold pdf. rewrite Hlp. reflexivity.
Qed.

End ShapeFacts.

Section ShapeClaims.
Import NumPy.
Import CopulaDistribution.
Import Loops.
Context {F : Type} `{Float F} `{Elementary F}.

Lemma defaults_resolved : forall (self : CopulaDistribution.t F) y ca ma dm,
  y_default_marg_args y = Ok dm ->
  let cargs := resolve_cop_args self ca in
  let margs := match ma with None => dm | Some a => a end in
  cdf self y ca ma = cdf self y (Some cargs) (Some margs)
  /\ logpdf self y ca ma = logpdf self y (Some cargs) (Some margs)
  /\ pdf self y ca ma = pdf self y (Some cargs) (Some margs).
Proof.
  intros self y ca ma dm Hdm cargs margs.
  unfold pdf, logpdf, cdf. destruct ma as [a |]; simpl.
  - repeat split; reflexivity.
  - rewrite Hdm. repeat split; reflexivity.
Qed.

Lemma y_default_last : forall (y : ndarray F) rows m,
  shape y = rows ++ [m] -> y_default_marg_args y = Ok (repeat [] m).
Proof.
  intros y rows m Hs. unfold y_default_marg_args, shape_last.
  rewrite Hs, rev_app_distr. reflexivity.
Qed.

(** C7: with marginals that answer elementwise and a copula that returns
    one value per row, a flat vector of length [k_vars] gives a
    0-dimensional result from [cdf], [pdf] and [logpdf], and an
    [(n, k_vars)] matrix gives a result of length [n]. *)
Theorem shape_contract :
  forall (copula : Copula.family F) (ds : list (dist F)) cop_args0
         (y : ndarray F) cop_args marg_args,
    let self := __init__ copula ds cop_args0 in
    let k := length ds in
    let margs := match marg_args with
                 | None => repeat [] k
                 | Some a => a
                 end in
    let cargs := resolve_cop_args self cop_args in
    2 <= k ->
    wf y ->
    k <= length margs ->
    elementwise ds margs ->
    (forall u rows,
       wf u -> shape u = rows ++ [k] ->
       exists c l,
         Copula.cdf copula u cargs = Ok c
         /\ Copula.logpdf copula u cargs = Ok l
         /\ shape c = rows /\ shape l = rows /\ wf l) ->
    (shape y = [k] ->
     exists c p l,
       cdf self y cop_args marg_args = Ok c
       /\ pdf self y cop_args marg_args = Ok p
       /\ logpdf self y cop_args marg_args = Ok l
       /\ shape c = [] /\ shape p = [] /\ shape l = [])
    /\ (forall n,
          shape y = [n; k] ->
          exists c p l,
            cdf self y cop_args marg_args = Ok c
            /\ pdf self y cop_args marg_args = Ok p
            /\ logpdf self y cop_args marg_args = Ok l
            /\ shape c = [n] /\ shape p = [n] /\ shape l = [n]).
Proof.
  intros copula ds ca0 y ca ma self k margs cargs Hk Hwy Hma Hel Hcop.
  set (cf := marginal_value dist_cdf ds y margs).
  assert (Hne : map cf (seq 0 k) <> []).
  { destruct k as [| k']; [lia | discriminate]. }
  assert (Hlen : length (map cf (seq 0 k)) = k)
    by (rewrite length_map, length_seq; reflexivity).
  assert (Hmain : forall rows u0,
            shape y = rows ++ [k] ->
            column_stack (map cf (seq 0 k)) = Ok u0 ->
            wf (if ndim y =? 1 then squeeze u0 else u0) ->
            shape (if ndim y =? 1 then squeeze u0 else u0) = rows ++ [k] ->
            exists c p l,
              cdf self y ca ma = Ok c
              /\ pdf self y ca ma = Ok p
              /\ logpdf self y ca ma = Ok l
              /\ shape c = rows /\ shape p = rows /\ shape l = rows).
  { intros rows u0 Hs Hstack Hwu Hsu.
    destruct (Hcop _ rows Hwu Hsu) as [c [l [Hc [Hl [Hsc [Hsl Hwl]]]]]].
    destruct (results_have_shape copula ds ca0 y margs rows k Hs Hwy Hel
                u0 cargs c l (Nat.le_refl _) Hma ltac:(fold k; lia)
                Hstack Hc Hl Hsl Hwl) as [Hcdf [lp [Hlp [Hslp Hpdf]]]].
    destruct (defaults_resolved self y ca ma (repeat [] k)
                (y_default_last y rows k Hs)) as [E1 [E2 E3]].
    fold margs cargs in E1, E2, E3.
    exists c, (arr_map f_exp lp), lp.
    rewrite E1, E2, E3.
    repeat split; assumption. }
  split.
  - intros Hs.
    assert (Hscal : Forall (fun c => shape c = [] /\ wf c)
                      (map cf (seq 0 k))).
    { apply Forall_forall. intros c Hc. apply in_map_iff in Hc.
      destruct Hc as [i [<- Hi]]. apply in_seq in Hi.
      apply (elementwise_cdfs ds y margs [] k Hs Hwy Hel i); fold k; lia. }
    apply (Hmain [] (stacked (map cf (seq 0 k)) 1) Hs).
    + apply column_stack_scalars; [exact Hne |].
      apply Forall_forall. intros c Hc. rewrite Forall_forall in Hscal.
      apply (Hscal c Hc).
    + unfold ndim. rewrite Hs. cbn [length Nat.eqb].
      assert (Hw1 : wf (stacked (map cf (seq 0 k)) 1)).
      { apply stacked_wf. apply Forall_forall. intros c Hc.
        rewrite Forall_forall in Hscal. destruct (Hscal c Hc) as [Hsc Hwc].
        unfold wf in Hwc. rewrite Hsc in Hwc. exact Hwc. }
      unfold wf, squeeze in *. cbn [data shape stacked] in *.
      rewrite Hw1, Hlen. cbn [filter Nat.eqb negb].
      destruct (Nat.eqb_spec k 1) as [E | _]; [lia |].
      simpl. lia.
    + unfold ndim. rewrite Hs. cbn [length Nat.eqb].
      unfold squeeze. cbn [shape stacked]. rewrite Hlen.
      cbn [filter Nat.eqb negb].
      destruct (Nat.eqb_spec k 1) as [E | _]; [lia |]. reflexivity.
  - intros n Hs.
    assert (Hvec : Forall (fun c => shape c = [n] /\ wf c)
                     (map cf (seq 0 k))).
    { apply Forall_forall. intros c Hc. apply in_map_iff in Hc.
      destruct Hc as [i [<- Hi]]. apply in_seq in Hi.
      apply (elementwise_cdfs ds y margs [n] k Hs Hwy Hel i); fold k; lia. }
    apply (Hmain [n] (stacked (map cf (seq 0 k)) n) Hs).
    + apply column_stack_vectors; [exact Hne |].
      apply Forall_forall. intros c Hc. rewrite Forall_forall in Hvec.
      apply (Hvec c Hc).
    + unfold ndim. rewrite Hs. cbn [length Nat.eqb].
      apply stacked_wf, vectors_lengths. exact Hvec.
    + unfold ndim. rewrite Hs. cbn [length Nat.eqb].
      cbn [shape stacked]. rewrite Hlen. reflexivity.
Qed.

End ShapeClaims.

(** ** A last axis that is not [k_vars] long *)

Section MismatchFacts.
Import NumPy.
Import CopulaDistribution.
Import Loops.
Context {F : Type} `{Float F} `{Elementary F}.

Lemma size_of_snoc : forall rows m, size_of (rows ++ [m]) = size_of rows * m.
Proof.
  induction rows as [| p rows IH]; intros m; simpl; [lia |].
  rewrite IH. lia.
Qed.

Lemma take_columns_shape : forall (y : ndarray F) rows m k,
  shape y = rows ++ [m] -> k <= m ->
  shape (take_columns k y) = rows ++ [k].
Proof.
  intros y rows m k Hs Hk. unfold take_columns. cbn [shape].
  rewrite Hs, removelast_last, last_last, Nat.min_l by exact Hk.
  reflexivity.
Qed.

Lemma index_last_take_columns : forall (y : ndarray F) rows m k i,
  shape y = rows ++ [m] -> wf y -> k <= m -> i < k ->
  index_last (take_columns k y) i = index_last y i.
Proof.
  intros y rows m k i Hs Hw Hk Hi.
  rewrite (index_last_eq y rows m i Hs).
  rewrite (index_last_eq _ rows k i (take_columns_shape y rows m k Hs Hk)).
  assert (Him : (i <? m) = true) by (apply Nat.ltb_lt; lia).
  assert (Hik : (i <? k) = true) by (apply Nat.ltb_lt; lia).
  rewrite Him, Hik. f_equal. f_equal.
  unfold take_columns. cbn [data].
  rewrite Hs, removelast_last, last_last.
  unfold wf in Hw. rewrite Hs, size_of_snoc in Hw.
  pose proof (chunks_Forall_length (size_of rows) m (data y) Hw) as Hall.
  set (chs := chunks (size_of rows) m (data y)) in *.
  assert (Hn : length (map (firstn k) chs) = size_of rows)
    by (unfold chs; rewrite length_map, chunks_length; reflexivity).
  rewrite <- Hn at 1. rewrite chunks_concat.
  - rewrite map_map. f_equal. apply map_ext_in. intros b Hb.
    rewrite Forall_forall in Hall. pose proof (Hall b Hb) as Hlb.
    rewrite (block_1 i (firstn k b) f_0_0)
      by (rewrite length_firstn; lia).
    rewrite (block_1 i b f_0_0) by lia.
    rewrite nth_firstn. apply Nat.ltb_lt in Hi. rewrite Hi. reflexivity.
  - apply Forall_forall. intros b Hb. apply in_map_iff in Hb.
    destruct Hb as [b0 [<- Hb0]]. rewrite Forall_forall in Hall.
    rewrite length_firstn, (Hall b0 Hb0). lia.
Qed.

Lemma getitem_repeat : forall (A : Type) (x : A) n i,
  i < n -> getitem (repeat x n) i = Ok x.
Proof.
  intros A x n i Hi. rewrite (getitem_nth _ (repeat x n) i x)
    by (rewrite repeat_length; exact Hi).
  rewrite nth_repeat. reflexivity.
Qed.

(** Where the loops stop when [y] has too few columns. *)
Lemma loops_stop_at_missing_column :
  forall (self : CopulaDistribution.t F) (y : ndarray F) margs rows m,
    shape y = rows ++ [m] -> wf y ->
    m < length (marginals self) ->
    k_vars self = length (marginals self) ->
    m <= length margs ->
    elementwise (marginals self) margs ->
    for_each (seq 0 (k_vars self)) (cdf_body self y margs) []
    = Raise IndexError
    /\ for_each (seq 0 (k_vars self)) (logpdf_body self y margs)
         (scalar f_0_0, [])
       = Raise IndexError.
Proof.
  intros self y margs rows m Hs Hw Hm Hk Hma Hel.
  set (lf := marginal_value dist_logpdf (marginals self) y margs).
  set (cf := marginal_value dist_cdf (marginals self) y margs).
  assert (Hcalls : forall i, i < m ->
            exists d yi a,
              nth_error (marginals self) i = Some d
              /\ index_last y i = Ok yi
              /\ nth_error margs i = Some a
              /\ dist_logpdf d yi a = Ok (lf i)
              /\ dist_cdf d yi a = Ok (cf i)
              /\ shape (lf i) = rows /\ wf (lf i)).
  { intros i Hi.
    destruct self as [cop ds ca kv]. cbn [marginals] in *.
    apply (elementwise_calls cop ds ca y margs rows m Hs Hw Hel i); lia. }
  assert (Hseq : seq 0 (k_vars self)
                 = seq 0 m ++ m :: seq (S m) (k_vars self - S m)).
  { rewrite Hk.
    replace (length (marginals self))
      with (m + S (length (marginals self) - S m)) at 1 by lia.
    rewrite seq_app. reflexivity. }
  destruct (nth_error (marginals self) m) as [d |] eqn:Hd;
    [| apply nth_error_None in Hd; lia].
  rewrite Hseq, !for_each_app.
  rewrite (cdf_loop self y margs rows lf cf m Hcalls m (Nat.le_refl m)).
  rewrite (logpdf_loop self y margs rows lf cf m Hcalls m (Nat.le_refl m)).
  cbn [bind for_each]. unfold cdf_body, logpdf_body, getitem.
  rewrite Hd. cbn [bind].
  rewrite (index_last_out y rows m m Hs (Nat.le_refl m)).
  split; reflexivity.
Qed.

(** C8, as the code has it: the last axis of [y] is never compared with
    [k_vars].  When it is shorter, the loop over the marginals raises
    [IndexError] on reading the first missing column [y[..., m]], before
    anything is stacked; when it is longer, nothing is raised on that
    account: only the first [k_vars] columns are read, and the result is
    that of [y[..., :k_vars]]. *)
Theorem last_axis_mismatch :
  forall (copula : Copula.family F) (ds : list (dist F)) cop_args0
         (y : ndarray F) cop_args marg_args rows m,
    let self := __init__ copula ds cop_args0 in
    let k := length ds in
    let margs := match marg_args with
                 | None => repeat [] m
                 | Some a => a
                 end in
    shape y = rows ++ [m] ->
    wf y ->
    (m < k ->
     m <= length margs ->
     elementwise ds margs ->
     cdf self y cop_args marg_args = Raise IndexError
     /\ logpdf self y cop_args marg_args = Raise IndexError)
    /\ (k < m ->
        cdf self y cop_args marg_args
        = cdf self (take_columns k y) cop_args marg_args
        /\ logpdf self y cop_args marg_args
           = logpdf self (take_columns k y) cop_args marg_args).
Proof.
  intros copula ds ca0 y ca ma rows m self k margs Hs Hw. split.
  - intros Hm Hma Hel.
    destruct (loops_stop_at_missing_column self y margs rows m Hs Hw Hm
                eq_refl Hma Hel) as [Hc Hl].
    destruct (defaults_resolved self y ca ma (repeat [] m)
                (y_default_last y rows m Hs)) as [E1 [E2 _]].
    fold margs in E1, E2. rewrite E1, E2.
    unfold cdf, logpdf. cbn [bind]. rewrite Hc, Hl. split; reflexivity.
  - intros Hk.
    assert (Hkm : k <= m) by lia.
    pose proof (take_columns_shape y rows m k Hs Hkm) as Hs'.
    destruct (defaults_resolved self y ca ma (repeat [] m)
                (y_default_last y rows m Hs)) as [E1 [E2 _]].
    destruct (defaults_resolved self (take_columns k y) ca ma (repeat [] k)
                (y_default_last _ rows k Hs')) as [E1' [E2' _]].
    rewrite E1, E2, E1', E2'. clear E1 E2 E1' E2'.
    set (ma1 := match ma with None => repeat [] m | Some a => a end).
    set (ma2 := match ma with None => repeat [] k | Some a => a end).
    assert (Hargs : forall i, i < k -> getitem ma1 i = getitem ma2 i).
    { intros i Hi. unfold ma1, ma2. destruct ma; [reflexivity |].
      rewrite !getitem_repeat by lia. reflexivity. }
    assert (Hnd : ndim (take_columns k y) = ndim y).
    { unfold ndim. rewrite Hs, Hs', !length_app. reflexivity. }
    assert (Hcdf : forall i acc, In i (seq 0 (k_vars self)) ->
              cdf_body self y ma1 i acc
              = cdf_body self (take_columns k y) ma2 i acc).
    { intros i acc Hi. apply in_seq in Hi.
      change (k_vars self) with k in Hi.
      unfold cdf_body.
      rewrite (index_last_take_columns y rows m k i Hs Hw Hkm)
        by lia.
      rewrite (Hargs i) by lia. reflexivity. }
    assert (Hlog : forall i st, In i (seq 0 (k_vars self)) ->
              logpdf_body self y ma1 i st
              = logpdf_body self (take_columns k y) ma2 i st).
    { intros i st Hi. apply in_seq in Hi.
      change (k_vars self) with k in Hi.
      unfold logpdf_body.
      rewrite (index_last_take_columns y rows m k i Hs Hw Hkm)
        by lia.
      rewrite (Hargs i) by lia. reflexivity. }
    unfold cdf, logpdf. cbn [bind].
    rewrite (for_each_ext_in _ _ _ _ _ _ Hcdf).
    rewrite (for_each_ext_in _ _ _ _ _ _ Hlog).
    rewrite Hnd. split; reflexivity.
Qed.

End MismatchFacts.

(** * The claims on concrete inputs *)

Section ExampleFacts.
Import NumPy.
Import CopulaDistribution.
Import Loops.
Import XReal.
Import Examples.

Lemma expon_elementwise : forall margs,
  (forall i a, nth_error margs i = Some a -> a = []) ->
  elementwise [expon; expon] margs.
Proof.
  intros margs Hempty i d a q Hd Ha Hq.
  rewrite (Hempty i a Ha).
  assert (Hexp : d = expon).
  { destruct i as [| [| i]]; simpl in Hd; try congruence.
    destruct i; discriminate. }
  subst d. do 2 eexists.
  split; [reflexivity |]. split; [reflexivity |].
  unfold wf in *. simpl. rewrite !length_map. auto.
Qed.

Lemma repeat_empty : forall (n i : nat) (a : list xreal),
  nth_error (repeat [] n) i = Some a -> a = [].
Proof.
  intros n i a Ha. apply nth_error_In in Ha.
  apply repeat_spec in Ha. exact Ha.
Qed.

Lemma map2_length_min : forall f (xs ys : list xreal),
  length (map2 f xs ys) = Nat.min (length xs) (length ys).
Proof.
  intros f xs. induction xs as [| x0 xs IH]; intros [| y0 ys]; simpl;
    try reflexivity.
  rewrite IH. reflexivity.
Qed.

Lemma by_rows_per_row : forall f (u : ndarray xreal) rows,
  wf u -> shape u = rows ++ [2] ->
  exists r, by_rows f u = Ok r /\ shape r = rows /\ wf r.
Proof.
  intros f u rows Hw Hs. unfold by_rows.
  pose proof (index_last_eq u rows 2 0 Hs) as H0.
  pose proof (index_last_eq u rows 2 1 Hs) as H1.
  cbn [Nat.ltb Nat.leb] in H0, H1.
  pose proof (index_last_wf u rows 2 0 _ Hs Hw H0) as Hw0.
  pose proof (index_last_wf u rows 2 1 _ Hs Hw H1) as Hw1.
  rewrite H0, H1. cbn [bind]. eexists. split; [reflexivity |].
  split; [reflexivity |].
  unfold wf in *. cbn [shape data] in *.
  rewrite map2_length_min, Hw0, Hw1. apply Nat.min_id.
Qed.

Lemma fgm_per_row : forall th (u : ndarray xreal) rows,
  wf u -> shape u = rows ++ [2] ->
  exists c l,
    Copula.cdf (fgm th) u (PyTuple []) = Ok c
    /\ Copula.logpdf (fgm th) u (PyTuple []) = Ok l
    /\ shape c = rows /\ shape l = rows /\ wf l.
Proof.
  intros th u rows Hw Hs.
  destruct (by_rows_per_row (fgm_distribution th) u rows Hw Hs)
    as [c [Hc [Hsc _]]].
  destruct (by_rows_per_row (fgm_density th) u rows Hw Hs)
    as [p [Hp [Hsp Hwp]]].
  exists c, (arr_map f_log p).
  unfold Copula.logpdf, Copula.base_logpdf, Copula.pdf_star. simpl.
  rewrite Hc, Hp. simpl.
  repeat split; try assumption.
  unfold wf in *. simpl. rewrite length_map. exact Hwp.
Qed.

Lemma lomax_ppf_binary64 : forall (rnd : R -> R) (q : ndarray xreal),
  Rounded.rounds_to_nearest Rounded.binary64 rnd ->
  Forall (Rounded.interior Rounded.binary64) (data q) ->
  exists v,
    dist_ppf (lomax (H := Rounded.rounded_float rnd)) q [] = Ok v
    /\ shape v = shape q
    /\ length (data v) = length (data q)
    /\ Forall is_finite (data v).
Proof.
  intros rnd q Hrnd Hq. eexists. split; [reflexivity |].
  split; [reflexivity |]. split; [apply length_map |].
  simpl. apply Forall_map. revert Hq. apply Forall_impl.
  intros u [r [-> [Hf Hr]]].
  pose proof (binary64_one_minus rnd r Hrnd Hf Hr) as Hpos.
  assert (H1 : (rnd 1 = 1)%R).
  { apply (rnd_representable Rounded.binary64 rnd Hrnd); [lra |].
    apply binary64_halves. }
  simpl. rewrite H1.
  destruct (Req_dec_T (rnd (1 + - r)) 0)%R as [E | _]; [| exact I].
  unfold Rminus in Hpos. lra.
Qed.

End ExampleFacts.

(** C1 on two exponential marginals under the FGM copula and a matrix of
    two observations. *)
Lemma logpdf_is_sklar_sum_witness :
  exists u,
    NumPy.shape u = [2; 2]
    /\ NumPy.wf u
    /\ (forall i c,
          nth_error Examples.cdfs_2x2 i = Some c ->
          NumPy.index_axis1 u i = Ok c)
    /\ forall cl,
         Copula.logpdf (Examples.fgm (Examples.num (/ 2))) u (PyTuple []) = Ok cl ->
         NumPy.shape cl = [2] ->
         NumPy.wf cl ->
         CopulaDistribution.logpdf Examples.joint Examples.y_2x2 None None
         = Ok (Sklar.log_density Examples.logpdfs_2x2 cl).
Proof.
  apply (logpdf_is_sklar_sum (Examples.fgm (Examples.num (/ 2)))
           [Examples.expon; Examples.expon] (PyTuple [])
           Examples.y_2x2 None None 2
           Examples.logpdfs_2x2 Examples.cdfs_2x2).
  - reflexivity.
  - simpl. lia.
  - reflexivity.
  - reflexivity.
  - intros i d y_i Hd Hy.
    destruct i as [| [| i]].
    + inversion Hd; subst d. inversion Hy; subst y_i.
      exists [].
      exists (nth 0 Examples.logpdfs_2x2 Examples.y_2x2).
      exists (nth 0 Examples.cdfs_2x2 Examples.y_2x2).
      repeat split; reflexivity.
    + inversion Hd; subst d. inversion Hy; subst y_i.
      exists [].
      exists (nth 1 Examples.logpdfs_2x2 Examples.y_2x2).
      exists (nth 1 Examples.cdfs_2x2 Examples.y_2x2).
      repeat split; reflexivity.
    + simpl in Hd. destruct i; discriminate.
Defined.

(** The exponential [ppf] answers on the contracted corner draws. *)
Lemma corner_ppf_calls :
  forall i d col a,
    nth_error [Examples.expon; Examples.expon] i = Some d ->
    NumPy.index_axis1 Examples.corner_sample i = Ok col ->
    nth_error (repeat (@nil XReal.xreal) 2) i = Some a ->
    exists v,
      CopulaDistribution.dist_ppf d
        (NumPy.arr_map CopulaDistribution.contract col) a = Ok v
      /\ NumPy.shape v = [2] /\ NumPy.wf v.
Proof.
  intros i d col a Hd Hcol Ha.
  destruct i as [| [| i]].
  - inversion Hd; subst d. inversion Hcol; subst col.
    inversion Ha; subst a. eexists. repeat split; reflexivity.
  - inversion Hd; subst d. inversion Hcol; subst col.
    inversion Ha; subst a. eexists. repeat split; reflexivity.
  - simpl in Hd. destruct i; discriminate.
Defined.

(** C3 on two draws of the corner generator. *)
Lemma rvs_column_is_ppf_of_contracted_draw_witness :
  exists out,
    CopulaDistribution.rvs Examples.corner_joint 2 None None RandomNone
    = Ok out
    /\ NumPy.shape out = [2; 2]
    /\ forall i d u_i a,
         nth_error [Examples.expon; Examples.expon] i = Some d ->
         NumPy.index_axis1 Examples.corner_sample i = Ok u_i ->
         nth_error (repeat (@nil XReal.xreal) 2) i = Some a ->
         NumPy.index_axis1 out i
         = CopulaDistribution.dist_ppf d
             (NumPy.arr_map
                (fun u => f_add f_0_5
                            (f_mul (f_sub f_1 f_1em10) (f_sub u f_0_5)))
                u_i) a.
Proof.
  apply (rvs_column_is_ppf_of_contracted_draw Examples.corner_family
           [Examples.expon; Examples.expon] (PyTuple [])
           2%Z None None RandomNone Examples.corner_sample 2 2).
  - reflexivity.
  - reflexivity.
  - reflexivity.
  - simpl. lia.
  - simpl. lia.
  - exact corner_ppf_calls.
Defined.



(** C5, amended, on three observations of a three-dimensional family. *)
Lemma fit_corr_param_tau_witness :
  let col := fun i => nth i Examples.columns_3x3 Examples.data_3x3 in
  let tau := fun ij : nat * nat =>
               Examples.kendall_tau (col (fst ij)) (col (snd ij)) in
  (3 = 2 ->
   Copula.fit_corr_param Examples.kendall_tau Examples.arithmetic_mean
     Examples.trivariate Examples.data_3x3
   = Copula._arg_from_tau Examples.trivariate (tau (0, 1)))
  /\ (3 <> 2 -> 3 <= 3 ->
      Copula.fit_corr_param Examples.kendall_tau Examples.arithmetic_mean
        Examples.trivariate Examples.data_3x3
      = Copula._arg_from_tau Examples.trivariate
          (Examples.arithmetic_mean (map tau (Copula.pairs 3))))
  /\ (3 <> 2 -> 3 < 3 -> 2 <= 3 ->
      Copula.fit_corr_param Examples.kendall_tau Examples.arithmetic_mean
        Examples.trivariate Examples.data_3x3
      = Raise IndexError)
  /\ length (Copula.pairs 3) = 3 * (3 - 1) / 2
  /\ NoDup (Copula.pairs 3)
  /\ (forall i j, In (i, j) (Copula.pairs 3) <-> i < j < 3).
Proof.
  intros col tau.
  apply (fit_corr_param_tau Examples.kendall_tau Examples.arithmetic_mean
           Examples.trivariate Examples.data_3x3 3 3 col).
  - reflexivity.
  - intros i Hi.
    destruct i as [| [| [| i]]]; [reflexivity | reflexivity | reflexivity |].
    lia.
Defined.

(** C5 fails as stated: a family with [k_dim = 3], fitted to data of two
    columns, is handed the Kendall's tau of the two columns, not a mean
    over three pairs of columns; the data has no third column, and the
    loop over the three pairs would raise [IndexError]. *)
Lemma fit_corr_param_branches_on_columns :
  Copula.k_dim (F := XReal.xreal) Examples.trivariate = 3
  /\ Copula.fit_corr_param Examples.kendall_tau Examples.arithmetic_mean
       Examples.trivariate Examples.y_2x2
     = Copula._arg_from_tau Examples.trivariate
         (Examples.kendall_tau (nth 0 Examples.columns_2x2 Examples.y_2x2)
            (nth 1 Examples.columns_2x2 Examples.y_2x2))
  /\ for_each (Copula.pairs 3)
       (Copula.pair_tau Examples.kendall_tau Examples.y_2x2) []
     = Raise IndexError.
Proof.
  repeat split.
Qed.

(** C7 on a flat vector and on a matrix of two observations. *)
Lemma shape_contract_witness :
  (exists c p l,
     CopulaDistribution.cdf Examples.joint Examples.y_flat None None = Ok c
     /\ CopulaDistribution.pdf Examples.joint Examples.y_flat None None = Ok p
     /\ CopulaDistribution.logpdf Examples.joint Examples.y_flat None None
        = Ok l
     /\ NumPy.shape c = [] /\ NumPy.shape p = [] /\ NumPy.shape l = [])
  /\ (exists c p l,
        CopulaDistribution.cdf Examples.joint Examples.y_2x2 None None = Ok c
        /\ CopulaDistribution.pdf Examples.joint Examples.y_2x2 None None
           = Ok p
        /\ CopulaDistribution.logpdf Examples.joint Examples.y_2x2 None None
           = Ok l
        /\ NumPy.shape c = [2] /\ NumPy.shape p = [2]
        /\ NumPy.shape l = [2]).
Proof.
  split.
  - apply (proj1 (shape_contract (Examples.fgm (Examples.num (/ 2)))
                    [Examples.expon; Examples.expon] (PyTuple [])
                    Examples.y_flat None None
                    ltac:(simpl; lia) eq_refl ltac:(simpl; lia)
                    (expon_elementwise _ (repeat_empty 2))
                    (fun u rows Hw Hs =>
                       fgm_per_row (Examples.num (/ 2)) u rows Hw Hs))).
    reflexivity.
  - apply (proj2 (shape_contract (Examples.fgm (Examples.num (/ 2)))
                    [Examples.expon; Examples.expon] (PyTuple [])
                    Examples.y_2x2 None None
                    ltac:(simpl; lia) eq_refl ltac:(simpl; lia)
                    (expon_elementwise _ (repeat_empty 2))
                    (fun u rows Hw Hs =>
                       fgm_per_row (Examples.num (/ 2)) u rows Hw Hs))).
    reflexivity.
Defined.

(** C8, amended, on a matrix of one column and on one of three. *)
Lemma last_axis_mismatch_witness :
  (CopulaDistribution.cdf Examples.joint Examples.y_2x1 None None
   = Raise IndexError
   /\ CopulaDistribution.logpdf Examples.joint Examples.y_2x1 None None
      = Raise IndexError)
  /\ (CopulaDistribution.cdf Examples.joint Examples.y_2x3 None None
      = CopulaDistribution.cdf Examples.joint
          (NumPy.take_columns 2 Examples.y_2x3) None None
      /\ CopulaDistribution.logpdf Examples.joint Examples.y_2x3 None None
         = CopulaDistribution.logpdf Examples.joint
             (NumPy.take_columns 2 Examples.y_2x3) None None).
Proof.
  split.
  - apply (proj1 (last_axis_mismatch (Examples.fgm (Examples.num (/ 2)))
                    [Examples.expon; Examples.expon] (PyTuple [])
                    Examples.y_2x1 None None [2] 1 eq_refl eq_refl)).
    + simpl. lia.
    + simpl. lia.
    + apply expon_elementwise. apply repeat_empty.
  - apply (proj2 (last_axis_mismatch (Examples.fgm (Examples.num (/ 2)))
                    [Examples.expon; Examples.expon] (PyTuple [])
                    Examples.y_2x3 None None [2] 3 eq_refl eq_refl)).
    simpl. lia.
Defined.

(** C8 fails as stated: with two marginals, a matrix of three columns goes
    through [cdf] and [logpdf] and no exception is raised; a matrix of one
    column is stopped by the indexing [y[..., 1]], an [IndexError], and
    nothing reaches [column_stack]. *)
Lemma last_axis_longer_raises_nothing :
  (exists r,
     CopulaDistribution.cdf Examples.joint Examples.y_2x3 None None = Ok r)
  /\ (exists r,
        CopulaDistribution.logpdf Examples.joint Examples.y_2x3 None None
        = Ok r)
  /\ NumPy.index_last Examples.y_2x1 1 = Raise IndexError
  /\ CopulaDistribution.cdf Examples.joint Examples.y_2x1 None None
     = Raise IndexError.
Proof.
  split; [eexists; reflexivity |].
  split; [eexists; reflexivity |].
  split; reflexivity.
Qed.

(** * Further properties *)

(** ** The value of [cdf], and one observation at a time *)

Section ValueFacts.
Import NumPy.
Import CopulaDistribution.
Import Loops.
Context {F : Type} `{Float F} `{Elementary F}.

Lemma cdf_loop_values :
  forall (self : CopulaDistribution.t F) (y : ndarray F) margs
         (cf : nat -> ndarray F) bound,
    (forall i, i < bound ->
       exists d yi a,
         nth_error (marginals self) i = Some d
         /\ index_last y i = Ok yi
         /\ nth_error margs i = Some a
         /\ dist_cdf d yi a = Ok (cf i)) ->
    forall i, i <= bound ->
      for_each (seq 0 i) (cdf_body self y margs) [] = Ok (map cf (seq 0 i)).
Proof.
  intros self y margs cf bound Hcalls.
  induction i as [| i IH]; intros Hi; [reflexivity |].
  rewrite seq_S, for_each_app, IH by lia. simpl.
  destruct (Hcalls i Hi) as [d [yi [a [Hd [Hy [Ha Hc]]]]]].
  unfold cdf_body, getitem. rewrite Hd. simpl. rewrite Hy. simpl.
  rewrite Ha. simpl. rewrite Hc. simpl.
  rewrite map_app. reflexivity.
Qed.

(** X1: on an [(n, k_vars)] matrix, when each marginal returns one cdf
    value per observation, [cdf] is [copula.cdf(u, cop_args)] for the matrix
    [u] whose column [i] is [marginals[i].cdf(y_i, *marg_args[i])]; it
    raises what the copula raises. *)
Theorem cdf_is_copula_cdf_of_marginal_cdfs :
  forall (copula : Copula.family F) (ds : list (dist F)) cop_args0
         (y : ndarray F) cop_args marg_args n (cdfs : list (ndarray F)),
    let self := __init__ copula ds cop_args0 in
    let k := length ds in
    let margs := match marg_args with
                 | None => repeat [] k
                 | Some a => a
                 end in
    shape y = [n; k] ->
    1 <= k ->
    length cdfs = k ->
    (forall i d y_i,
       nth_error ds i = Some d ->
       index_last y i = Ok y_i ->
       exists a c,
         nth_error margs i = Some a
         /\ nth_error cdfs i = Some c
         /\ dist_cdf d y_i a = Ok c
         /\ shape c = [n] /\ wf c) ->
    exists u,
      shape u = [n; k]
      /\ wf u
      /\ (forall i c, nth_error cdfs i = Some c -> index_axis1 u i = Ok c)
      /\ cdf self y cop_args marg_args
         = Copula.cdf copula u (resolve_cop_args self cop_args).
Proof.
  intros copula ds ca0 y ca ma n cdfs self k margs Hs Hk Hcdfs Hcalls.
  set (dflt := scalar f_0_0).
  set (cf := fun i => nth i cdfs dflt).
  assert (Hfacts : forall i, i < k ->
            exists d yi a,
              nth_error ds i = Some d
              /\ index_last y i = Ok yi
              /\ nth_error margs i = Some a
              /\ dist_cdf d yi a = Ok (cf i)
              /\ shape (cf i) = [n] /\ wf (cf i)).
  { intros i Hi.
    destruct (nth_error ds i) as [d |] eqn:Hd;
      [| apply nth_error_None in Hd; fold k in Hd; lia].
    pose proof (index_last_eq y [n] k i Hs) as Hy.
    apply Nat.ltb_lt in Hi. rewrite Hi in Hy.
    destruct (Hcalls i d _ Hd Hy) as [a [c [Ha [Hc [Hcd [Hsc Hwc]]]]]].
    exists d. eexists. exists a. unfold cf.
    rewrite (nth_error_nth _ _ dflt Hc).
    split; [reflexivity |]. split; [exact Hy |]. split; [exact Ha |].
    split; [exact Hcd |]. split; assumption. }
  assert (Hcf : map cf (seq 0 k) = cdfs).
  { unfold cf. rewrite <- Hcdfs.
    rewrite (map_seq_nth _ _ (fun c => c) cdfs dflt). apply map_id. }
  assert (Hcols : Forall (fun c => shape c = [n] /\ wf c) cdfs).
  { rewrite <- Hcf. apply Forall_forall. intros c Hc.
    apply in_map_iff in Hc. destruct Hc as [i [<- Hi]]. apply in_seq in Hi.
    destruct (Hfacts i ltac:(lia)) as [_ [_ [_ [_ [_ [_ [_ Hc]]]]]]].
    exact Hc. }
  exists (stacked cdfs n).
  split; [simpl; rewrite Hcdfs; reflexivity |].
  split; [apply stacked_wf, vectors_lengths; exact Hcols |].
  split; [intros i c Hc; apply stacked_index; assumption |].
  destruct (defaults_resolved self y ca ma (repeat [] k)
              (y_default_last y [n] k Hs)) as [E1 _].
  fold margs in E1. rewrite E1. unfold cdf. cbn [bind resolve_cop_args].
  change (k_vars self) with k.
  rewrite (cdf_loop_values self y margs cf k).
  - cbn [bind]. rewrite Hcf.
    rewrite (column_stack_vectors cdfs n).
    + cbn [bind]. unfold ndim. rewrite Hs. reflexivity.
    + intros ->. simpl in Hcdfs. lia.
    + apply Forall_forall. intros c Hc. rewrite Forall_forall in Hcols.
      apply (Hcols c Hc).
  - intros i Hi. destruct (Hfacts i Hi) as [d [yi [a [Hd [Hy [Ha [Hc _]]]]]]].
    exists d, yi, a. repeat split; assumption.
  - apply Nat.le_refl.
Qed.

Lemma index_last_vector : forall (vals : list F) i v,
  nth_error vals i = Some v ->
  index_last {| shape := [length vals]; data := vals |} i = Ok (scalar v).
Proof.
  intros vals i v Hv.
  assert (Hi : i < length vals) by (apply nth_error_Some; congruence).
  rewrite (index_last_eq {| shape := [length vals]; data := vals |} []
             (length vals) i eq_refl).
  apply Nat.ltb_lt in Hi. rewrite Hi. unfold scalar. f_equal. f_equal.
  cbn [size_of fold_right data chunks seq map concat].
  unfold block at 2. cbn [Nat.mul skipn]. rewrite firstn_all, app_nil_r.
  apply Nat.ltb_lt in Hi.
  rewrite (block_1 i vals v Hi), (nth_error_nth _ _ v Hv). reflexivity.
Qed.

Lemma squeeze_stacked_scalars : forall vals : list F,
  length vals <> 1 ->
  squeeze (stacked (map scalar vals) 1)
  = {| shape := [length vals]; data := vals |}.
Proof.
  intros vals Hne. unfold squeeze, stacked. cbn [shape data].
  rewrite length_map. cbn [filter Nat.eqb negb].
  destruct (Nat.eqb_spec (length vals) 1) as [E | _]; [contradiction |].
  cbn [negb]. f_equal.
  cbn [seq map concat]. rewrite app_nil_r, map_map.
  clear Hne. induction vals as [| v vals IH]; [reflexivity |].
  cbn [map concat]. rewrite IH. reflexivity.
Qed.

End ValueFacts.

Section OneObservation.
Import NumPy.
Import CopulaDistribution.
Import Loops.
Context {F : Type} `{Float F} `{Elementary F}.

(** X2: on one observation [(y_0, ..., y_{k-1})] given as a flat vector,
    [k >= 2], the copula is evaluated at the vector of the marginal cdf
    values [(F_0(y_0), ..., F_{k-1}(y_{k-1}))], [cdf] is its [cdf] there,
    and [logpdf] is the number
    [((0.0 + log f_0(y_0)) + ... + log f_{k-1}(y_{k-1})) + log c(u)],
    [pdf] its exponential. *)
Theorem one_observation :
  forall (copula : Copula.family F) (ds : list (dist F)) cop_args0
         (yvals : list F) cop_args marg_args (lvals cvals : list F),
    let self := __init__ copula ds cop_args0 in
    let k := length ds in
    let margs := match marg_args with
                 | None => repeat [] k
                 | Some a => a
                 end in
    let cargs := resolve_cop_args self cop_args in
    let y := {| shape := [length yvals]; data := yvals |} in
    let u := {| shape := [length cvals]; data := cvals |} in
    2 <= k ->
    length yvals = k ->
    length lvals = k ->
    length cvals = k ->
    (forall i d y_i,
       nth_error ds i = Some d ->
       nth_error yvals i = Some y_i ->
       exists a l c,
         nth_error margs i = Some a
         /\ nth_error lvals i = Some l
         /\ nth_error cvals i = Some c
         /\ dist_logpdf d (scalar y_i) a = Ok (scalar l)
         /\ dist_cdf d (scalar y_i) a = Ok (scalar c)) ->
    cdf self y cop_args marg_args = Copula.cdf copula u cargs
    /\ forall cl,
         Copula.logpdf copula u cargs = Ok (scalar cl) ->
         logpdf self y cop_args marg_args
         = Ok (scalar (f_add (fold_left f_add lvals f_0_0) cl))
         /\ pdf self y cop_args marg_args
            = Ok (scalar (f_exp (f_add (fold_left f_add lvals f_0_0) cl))).
Proof.
  intros copula ds ca0 yvals ca ma lvals cvals self k margs cargs y u
         Hk Hy Hl Hc Hcalls.
  set (lf := fun i => scalar (nth i lvals f_0_0)).
  set (cf := fun i => scalar (nth i cvals f_0_0)).
  assert (Hall : forall i, i < k ->
            exists d yi a,
              nth_error (marginals self) i = Some d
              /\ index_last y i = Ok yi
              /\ nth_error margs i = Some a
              /\ dist_logpdf d yi a = Ok (lf i)
              /\ dist_cdf d yi a = Ok (cf i)
              /\ shape (lf i) = [] /\ wf (lf i)).
  { intros i Hi. change (marginals self) with ds.
    destruct (nth_error ds i) as [d |] eqn:Hd;
      [| apply nth_error_None in Hd; fold k in Hd; lia].
    destruct (nth_error yvals i) as [yi |] eqn:Hyi;
      [| apply nth_error_None in Hyi; lia].
    destruct (Hcalls i d yi Hd Hyi) as [a [l [c [Ha [Hli [Hci [Hlp Hcd]]]]]]].
    exists d, (scalar yi), a. unfold lf, cf.
    rewrite (nth_error_nth _ _ f_0_0 Hli), (nth_error_nth _ _ f_0_0 Hci).
    split; [reflexivity |].
    split; [apply index_last_vector; exact Hyi |].
    split; [exact Ha |]. split; [exact Hlp |]. split; [exact Hcd |].
    split; reflexivity. }
  assert (Hcf : map cf (seq 0 k) = map scalar cvals).
  { unfold cf. rewrite <- Hc. apply (map_seq_nth _ _ scalar cvals f_0_0). }
  assert (Hstack : column_stack (map scalar cvals)
                   = Ok (stacked (map scalar cvals) 1)).
  { apply column_stack_scalars.
    - destruct cvals; [simpl in Hc; lia | discriminate].
    - apply Forall_forall. intros c Hin. apply in_map_iff in Hin.
      destruct Hin as [v [<- _]]. reflexivity. }
  assert (Hu : squeeze (stacked (map scalar cvals) 1) = u).
  { apply squeeze_stacked_scalars. lia. }
  destruct (defaults_resolved self y ca ma (repeat [] k)) as [E1 [E2 E3]].
  { apply (y_default_last y [] k). unfold y. simpl. rewrite Hy. reflexivity. }
  fold margs cargs in E1, E2, E3. rewrite E1, E2, E3.
  split.
  - unfold cdf. cbn [bind resolve_cop_args].
    change (k_vars self) with k.
    rewrite (cdf_loop self y margs [] lf cf k Hall k (Nat.le_refl k)).
    cbn [bind]. rewrite Hcf, Hstack. cbn [bind].
    change (ndim y) with 1. cbn [Nat.eqb]. rewrite Hu. reflexivity.
  - intros cl Hcl.
    assert (Hlog : logpdf self y (Some cargs) (Some margs)
                   = Ok (scalar (f_add (fold_left f_add lvals f_0_0) cl))).
    { unfold logpdf. cbn [bind resolve_cop_args].
      change (k_vars self) with k.
      rewrite (logpdf_loop self y margs [] lf cf k Hall k (Nat.le_refl k)).
      cbn [bind]. rewrite Hcf, Hstack. cbn [bind].
      change (ndim y) with 1. cbn [Nat.eqb]. rewrite Hu.
      change (CopulaDistribution.copula self) with copula.
      rewrite Hcl. cbn [bind].
      assert (Hafter : lpdf_after [] lf k = running [] lf k).
      { destruct k; [lia | reflexivity]. }
      rewrite Hafter.
      rewrite iadd_same_shape;
        [| apply running_wf | reflexivity | reflexivity].
      unfold scalar, running. cbn [shape data size_of fold_right seq map map2].
      f_equal. f_equal. f_equal. f_equal. f_equal.
      unfold lf. cbn [scalar data nth]. rewrite <- Hl.
      rewrite (map_seq_nth _ _ (fun v => v) lvals f_0_0). apply map_id. }
    split; [exact Hlog |].
    unfold pdf. rewrite Hlog. reflexivity.
Qed.

End OneObservation.

(** ** What [rvs] leaves alone, and which arguments are read *)

Section ArgumentFacts.
Import NumPy.
Import CopulaDistribution.
Import Loops.
Context {F : Type} `{Float F} `{Elementary F}.

(** X3: [rvs] returns a matrix of the shape the copula drew, and a column
    beyond the marginals (the copula drew more columns than there are
    marginals) comes back as drawn. *)
Theorem rvs_keeps_shape_and_other_columns :
  forall (copula : Copula.family F) (ds : list (dist F)) cop_args0
         nobs cop_args marg_args rs sample n m,
    let self := __init__ copula ds cop_args0 in
    let margs := match marg_args with
                 | None => repeat [] (length ds)
                 | Some a => a
                 end in
    Copula.rvs copula nobs (resolve_cop_args self cop_args) rs = Ok sample ->
    shape sample = [n; m] ->
    wf sample ->
    length ds <= m ->
    length ds <= length margs ->
    (forall i d col a,
       nth_error ds i = Some d ->
       index_axis1 sample i = Ok col ->
       nth_error margs i = Some a ->
       exists v,
         dist_ppf d (arr_map contract col) a = Ok v
         /\ shape v = [n] /\ wf v) ->
    exists out,
      rvs self nobs cop_args marg_args rs = Ok out
      /\ shape out = shape sample
      /\ wf out
      /\ forall j,
           length ds <= j -> index_axis1 out j = index_axis1 sample j.
Proof.
  intros copula ds ca0 nobs ca ma rs sample n m self margs
         Hdraw Hs Hw Hm Hlen Hppf.
  destruct (rvs_transforms_columns copula ds ca0 nobs ca ma rs sample n m
              Hdraw Hs Hw Hm Hlen Hppf) as [out [Hout [Hso [Hwo Hcols]]]].
  exists out. split; [exact Hout |]. split; [congruence |].
  split; [exact Hwo |].
  intros j Hj. destruct (Nat.lt_ge_cases j m) as [Hjm | Hjm].
  - rewrite (Hcols j Hjm).
    destruct (Nat.ltb_spec j (length ds)); [lia | reflexivity].
  - unfold index_axis1, take_axis. rewrite Hso, Hs. cbn [nth_error].
    apply Nat.ltb_ge in Hjm. rewrite Hjm. reflexivity.
Qed.

Lemma getitem_firstn : forall (A : Type) (l : list A) k i,
  i < k -> getitem (firstn k l) i = getitem l i.
Proof.
  intros A l k i Hi. unfold getitem. rewrite nth_error_firstn.
  apply Nat.ltb_lt in Hi. rewrite Hi. reflexivity.
Qed.

Lemma enumerate_indices : forall (A : Type) (l : list A) i x start,
  In (i, x) (combine (seq start (length l)) l) -> i < start + length l.
Proof.
  intros A l. induction l as [| a l IH]; intros i x start Hin;
    simpl in Hin; [contradiction |].
  destruct Hin as [Heq | Hin].
  - inversion Heq; subst. simpl. lia.
  - apply IH in Hin. simpl. lia.
Qed.

(** X4: every method reads [marg_args[i]] for [i < k_vars] only: entries
    of [marg_args] beyond the number of marginals change nothing. *)
Theorem marg_args_beyond_k_vars_are_ignored :
  forall (copula : Copula.family F) (ds : list (dist F)) cop_args0
         (y : ndarray F) cop_args (margs : list (list F)) nobs rs,
    let self := __init__ copula ds cop_args0 in
    let short := firstn (length ds) margs in
    cdf self y cop_args (Some margs) = cdf self y cop_args (Some short)
    /\ logpdf self y cop_args (Some margs)
       = logpdf self y cop_args (Some short)
    /\ pdf self y cop_args (Some margs) = pdf self y cop_args (Some short)
    /\ rvs self nobs cop_args (Some margs) rs
       = rvs self nobs cop_args (Some short) rs.
Proof.
  intros copula ds ca0 y ca margs nobs rs self short.
  assert (Hcdf : forall i acc, In i (seq 0 (k_vars self)) ->
            cdf_body self y margs i acc = cdf_body self y short i acc).
  { intros i acc Hi. apply in_seq in Hi.
    change (k_vars self) with (length ds) in Hi.
    unfold cdf_body, short.
    rewrite (getitem_firstn _ margs (length ds) i) by lia.
    reflexivity. }
  assert (Hlog : forall i st, In i (seq 0 (k_vars self)) ->
            logpdf_body self y margs i st = logpdf_body self y short i st).
  { intros i st Hi. apply in_seq in Hi.
    change (k_vars self) with (length ds) in Hi.
    unfold logpdf_body, short.
    rewrite (getitem_firstn _ margs (length ds) i) by lia.
    reflexivity. }
  assert (Hrvs : forall id s, In id (enumerate (marginals self)) ->
            rvs_body margs id s = rvs_body short id s).
  { intros [i d] s Hin. apply enumerate_indices in Hin.
    change (marginals self) with ds in Hin.
    unfold rvs_body, short.
    rewrite (getitem_firstn _ margs (length ds) i) by lia.
    reflexivity. }
  assert (Elog : logpdf self y ca (Some margs)
                 = logpdf self y ca (Some short)).
  { unfold logpdf. cbn [bind].
    rewrite (for_each_ext_in _ _ _ _ _ _ Hlog). reflexivity. }
  split; [| split; [exact Elog | split]].
  - unfold cdf. cbn [bind].
    rewrite (for_each_ext_in _ _ _ _ _ _ Hcdf). reflexivity.
  - unfold pdf. rewrite Elog. reflexivity.
  - unfold rvs.
    destruct (Copula.rvs (CopulaDistribution.copula self) nobs
                (resolve_cop_args self ca) rs) as [sample | e];
      [| reflexivity].
    cbn [bind]. apply for_each_ext_in. intros id s Hin. apply Hrvs. exact Hin.
Qed.

(** X5: without marginals there is nothing to stack: [cdf], [logpdf] and
    [pdf] raise [ValueError] on every [y] of one dimension or more, and
    [rvs] returns what the copula draws, untouched. *)
Theorem no_marginals :
  forall (copula : Copula.family F) cop_args0 (y : ndarray F)
         cop_args marg_args nobs rs rows m,
    let self := __init__ copula [] cop_args0 in
    shape y = rows ++ [m] ->
    cdf self y cop_args marg_args = Raise ValueError
    /\ logpdf self y cop_args marg_args = Raise ValueError
    /\ pdf self y cop_args marg_args = Raise ValueError
    /\ rvs self nobs cop_args marg_args rs
       = Copula.rvs copula nobs (resolve_cop_args self cop_args) rs.
Proof.
  intros copula ca0 y ca ma nobs rs rows m self Hs.
  destruct (defaults_resolved self y ca ma (repeat [] m)
              (y_default_last y rows m Hs)) as [E1 [E2 E3]].
  rewrite E1, E2, E3.
  repeat split; try reflexivity.
  unfold rvs. change (CopulaDistribution.copula self) with copula.
  destruct (Copula.rvs copula nobs (resolve_cop_args self ca) rs);
    reflexivity.
Qed.

(** X6: a 0-dimensional [y] has no last axis: with at least one marginal,
    [cdf], [logpdf] and [pdf] raise [IndexError], whether [marg_args] is
    given or not. *)
Theorem scalar_observation_is_an_index_error :
  forall (copula : Copula.family F) (ds : list (dist F)) cop_args0
         (y : ndarray F) cop_args marg_args,
    let self := __init__ copula ds cop_args0 in
    shape y = [] ->
    1 <= length ds ->
    cdf self y cop_args marg_args = Raise IndexError
    /\ logpdf self y cop_args marg_args = Raise IndexError
    /\ pdf self y cop_args marg_args = Raise IndexError.
Proof.
  intros copula ds ca0 y ca ma self Hs Hk.
  destruct ds as [| d ds]; [simpl in Hk; lia |].
  assert (Hidx : forall i, index_last y i = Raise IndexError).
  { intros i. unfold index_last, take_axis, ndim. rewrite Hs. reflexivity. }
  assert (Elog : logpdf self y ca ma = Raise IndexError).
  { unfold logpdf, y_default_marg_args, shape_last. rewrite Hs.
    destruct ma as [margs |]; [| reflexivity].
    cbn [bind k_vars self __init__ length seq for_each].
    unfold logpdf_body at 1. cbn [getitem nth_error marginals bind].
    rewrite Hidx. reflexivity. }
  split; [| split; [exact Elog |]].
  - unfold cdf, y_default_marg_args, shape_last. rewrite Hs.
    destruct ma as [margs |]; [| reflexivity].
    cbn [bind k_vars self __init__ length seq for_each].
    unfold cdf_body at 1. cbn [getitem nth_error marginals bind].
    rewrite Hidx. reflexivity.
  - unfold pdf. rewrite Elog. reflexivity.
Qed.

End ArgumentFacts.

(** ** A family that leaves methods to the base class *)

Section InheritedFacts.
Import NumPy.
Import CopulaDistribution.
Import Loops.
Context {F : Type} `{Float F} `{Elementary F}.
Variable kendalltau : ndarray F -> ndarray F -> F.

(** X7: nothing can be drawn from a family that does not override [rvs]:
    the [rvs] of a joint distribution built on it, [tau_simulated], and
    [plot_scatter] called without a sample on a two-dimensional family all
    raise [NotImplementedError], whatever their other arguments. *)
Theorem sampling_needs_rvs :
  forall (fam : Copula.family F),
    Copula.rvs_override fam = None ->
    (forall ds cop_args0 nobs cop_args marg_args rs,
       rvs (__init__ fam ds cop_args0) nobs cop_args marg_args rs
       = Raise NotImplementedError)
    /\ (forall nobs rs,
          Copula.tau_simulated kendalltau fam nobs rs
          = Raise NotImplementedError)
    /\ (Copula.k_dim fam = 2 ->
        forall nobs rs ax,
          Plot.plot_scatter fam None nobs rs ax = Raise NotImplementedError).
Proof.
  intros fam Hno.
  assert (Hrvs : forall nobs args rs,
            Copula.rvs fam nobs args rs = Raise NotImplementedError).
  { intros. unfold Copula.rvs. rewrite Hno. reflexivity. }
  split; [| split].
  - intros. unfold rvs. cbn [CopulaDistribution.copula __init__].
    rewrite Hrvs. reflexivity.
  - intros. unfold Copula.tau_simulated. rewrite Hrvs. reflexivity.
  - intros Hk nobs rs ax. unfold Plot.plot_scatter. rewrite Hk, Hrvs.
    reflexivity.
Qed.

(** X8: through the joint distribution, the unpacking of [args] in the
    inherited [logpdf] shows as follows: with a copula that does not
    override [logpdf] and two or more copula parameters in [cop_args],
    [logpdf] and [pdf] raise [TypeError] on every well-formed matrix of
    observations. *)
Theorem joint_logpdf_with_two_parameters :
  forall (copula : Copula.family F) (ds : list (dist F)) cop_args0
         (y : ndarray F) cop_args marg_args n a b rest,
    let self := __init__ copula ds cop_args0 in
    let k := length ds in
    let margs := match marg_args with
                 | None => repeat [] k
                 | Some m => m
                 end in
    Copula.logpdf_override copula = None ->
    resolve_cop_args self cop_args = PyTuple (a :: b :: rest) ->
    shape y = [n; k] ->
    wf y ->
    1 <= k ->
    k <= length margs ->
    elementwise ds margs ->
    logpdf self y cop_args marg_args = Raise TypeError
    /\ pdf self y cop_args marg_args = Raise TypeError.
Proof.
  intros copula ds ca0 y ca ma n a b rest self k margs
         Hno Hargs Hs Hw Hk Hma Hel.
  set (lf := marginal_value dist_logpdf ds y margs).
  set (cf := marginal_value dist_cdf ds y margs).
  assert (Hcalls : forall i, i < k ->
            exists d yi a0,
              nth_error (marginals self) i = Some d
              /\ index_last y i = Ok yi
              /\ nth_error margs i = Some a0
              /\ dist_logpdf d yi a0 = Ok (lf i)
              /\ dist_cdf d yi a0 = Ok (cf i)
              /\ shape (lf i) = [n] /\ wf (lf i)).
  { intros i Hi.
    apply (elementwise_calls copula ds ca0 y margs [n] k Hs Hw Hel i);
      fold k; lia. }
  assert (Hvec : Forall (fun c => shape c = [n]) (map cf (seq 0 k))).
  { apply Forall_forall. intros c Hc. apply in_map_iff in Hc.
    destruct Hc as [i [<- Hi]]. apply in_seq in Hi.
    apply (elementwise_cdfs ds y margs [n] k Hs Hw Hel i); fold k; lia. }
  assert (Elog : logpdf self y ca ma = Raise TypeError).
  { destruct (defaults_resolved self y ca ma (repeat [] k)
                (y_default_last y [n] k Hs)) as [_ [E2 _]].
    fold margs in E2. rewrite E2. unfold logpdf. cbn [bind resolve_cop_args].
    change (k_vars self) with k.
    rewrite (logpdf_loop self y margs [n] lf cf k Hcalls k (Nat.le_refl k)).
    cbn [bind]. rewrite (column_stack_vectors (map cf (seq 0 k)) n).
    - cbn [bind]. change (CopulaDistribution.copula self) with copula.
      unfold Copula.logpdf. rewrite Hno.
      unfold Copula.base_logpdf, Copula.pdf_star. rewrite Hargs.
      reflexivity.
    - destruct k; [lia | discriminate].
    - exact Hvec. }
  split; [exact Elog |]. unfold pdf. rewrite Elog. reflexivity.
Qed.

(** X19: [tau_simulated] draws with the family's own parameters and
    looks at the first two columns drawn only: it is their Kendall's tau,
    and an [IndexError] when fewer than two columns are drawn. *)
Theorem tau_simulated_of_a_sample :
  forall (fam : Copula.family F) nobs rs (x : ndarray F) n m,
    Copula.rvs fam nobs (PyTuple []) rs = Ok x ->
    shape x = [n; m] ->
    (2 <= m ->
     exists x0 x1,
       index_axis1 x 0 = Ok x0
       /\ index_axis1 x 1 = Ok x1
       /\ Copula.tau_simulated kendalltau fam nobs rs
          = Ok (kendalltau x0 x1))
    /\ (m < 2 ->
        Copula.tau_simulated kendalltau fam nobs rs = Raise IndexError).
Proof.
  intros fam nobs rs x n m Hx Hs.
  unfold Copula.tau_simulated. rewrite Hx. cbn [bind].
  unfold index_axis1, take_axis. rewrite Hs. cbn [nth_error].
  split.
  - intros Hm.
    assert (H0' : (0 <? m) = true) by (apply Nat.ltb_lt; lia).
    assert (H1' : (1 <? m) = true) by (apply Nat.ltb_lt; lia).
    rewrite H0', H1'. do 2 eexists.
    split; [reflexivity |]. split; reflexivity.
  - intros Hm. destruct m as [| [| m]]; [reflexivity | reflexivity | lia].
Qed.

End InheritedFacts.

(** ** [fit_corr_param] on data that does not fit the family *)

Section FitEdgeFacts.
Import NumPy.
Context {F : Type} `{Float F}.
Variable kendalltau : ndarray F -> ndarray F -> F.
Variable np_mean : list F -> F.

(** X9: [fit_corr_param] reads [data.shape[1]]: on data of fewer than two
    dimensions it raises [IndexError], before any tau is computed and
    whatever the family. *)
Theorem fit_corr_param_needs_two_dimensions :
  forall (fam : Copula.family F) (data : ndarray F),
    ndim data < 2 ->
    Copula.fit_corr_param kendalltau np_mean fam data = Raise IndexError.
Proof.
  intros fam data Hnd. unfold Copula.fit_corr_param, ndim in *.
  destruct (shape data) as [| n [| m rest]]; simpl in Hnd;
    try reflexivity; lia.
Qed.

(** X10: the branch is taken on the number of columns of the data, not on
    [k_dim]: on two-column data every family, of any dimension, is fitted
    from the Kendall's tau of the two columns. *)
Theorem fit_corr_param_two_columns :
  forall (fam : Copula.family F) (data : ndarray F) n c0 c1,
    shape data = [n; 2] ->
    index_last data 0 = Ok c0 ->
    index_last data 1 = Ok c1 ->
    Copula.fit_corr_param kendalltau np_mean fam data
    = Copula._arg_from_tau fam (kendalltau c0 c1).
Proof.
  intros fam data n c0 c1 Hs H0 H1.
  unfold Copula.fit_corr_param. rewrite Hs. simpl.
  rewrite <- !(index_last_matrix data n 2) by exact Hs.
  rewrite H0, H1. reflexivity.
Qed.

(** X11: on a matrix with fewer columns than [k_dim] (and not exactly two
    columns), the loop over the pairs reaches a column that is not there:
    [fit_corr_param] raises [IndexError]. *)
Theorem fit_corr_param_missing_columns :
  forall (fam : Copula.family F) (data : ndarray F) n m,
    shape data = [n; m] ->
    m <> 2 ->
    m < Copula.k_dim fam ->
    2 <= Copula.k_dim fam ->
    Copula.fit_corr_param kendalltau np_mean fam data = Raise IndexError.
Proof.
  intros fam data n m Hs Hm2 Hm Hk.
  unfold Copula.fit_corr_param. rewrite Hs. cbn [getitem nth_error bind].
  destruct (Nat.eqb_spec m 2) as [E | _]; [contradiction |].
  rewrite (pair_taus_stop kendalltau data [n] m
             (Copula.pairs (Copula.k_dim fam)) [] Hs).
  - reflexivity.
  - exists 0, (Copula.k_dim fam - 1). split.
    + apply pairs_In. lia.
    + right. lia.
Qed.

(** X12: with the tau-inversion hook left to the base class,
    [fit_corr_param] computes the taus and then raises
    [NotImplementedError] on every data matrix that has two columns or at
    least [k_dim] of them. *)
Theorem fit_corr_param_needs_the_hook :
  forall (fam : Copula.family F) (data : ndarray F) n m,
    Copula.arg_from_tau_override fam = None ->
    shape data = [n; m] ->
    m = 2 \/ Copula.k_dim fam <= m ->
    Copula.fit_corr_param kendalltau np_mean fam data
    = Raise NotImplementedError.
Proof.
  intros fam data n m Hno Hs Hm.
  assert (Hhook : forall tau,
            Copula._arg_from_tau fam tau = Raise NotImplementedError).
  { intros tau. unfold Copula._arg_from_tau. rewrite Hno. reflexivity. }
  set (col := fun i =>
                {| shape := [n];
                   data := concat (map (block i 1)
                                       (chunks (size_of [n]) m (NumPy.data data))) |}).
  assert (Hcol : forall i, i < m -> index_last data i = Ok (col i)).
  { intros i Hi. rewrite (index_last_eq data [n] m i Hs).
    apply Nat.ltb_lt in Hi. rewrite Hi. reflexivity. }
  unfold Copula.fit_corr_param. rewrite Hs. cbn [getitem nth_error bind].
  destruct (Nat.eqb_spec m 2) as [E | Hne].
  - subst m. rewrite <- !(index_last_matrix data n 2) by exact Hs.
    rewrite (Hcol 0), (Hcol 1) by lia. cbn [bind]. apply Hhook.
  - destruct Hm as [E | Hk]; [contradiction |].
    rewrite (pair_taus kendalltau data col m
               (Copula.pairs (Copula.k_dim fam)) [] Hcol).
    + cbn [bind]. apply Hhook.
    + intros i j Hij. apply pairs_In in Hij. lia.
Qed.

End FitEdgeFacts.

(** ** The contraction of the draws, whatever the precision *)

Section ContractionFacts.
Import CopulaDistribution.
Import XReal.

(** X13: in an arithmetic that rounds every operation to a nearest
    representable number and represents [0], [1/2], [-1/2] and [1], as
    binary32 and binary64 both do, the map
    [u -> 0.5 + (1 - 1e-10) * (u - 0.5)] that [rvs] applies to a draw
    never reverses the order of two draws of the unit interval, and
    leaves [0.5] where it is. *)
Theorem contract_keeps_order_and_one_half :
  forall (format : R -> Prop) (rnd : R -> R) (r s : R),
    Rounded.rounds_to_nearest format rnd ->
    format (- / 2)%R -> format 0%R -> format (/ 2)%R -> format 1%R ->
    (0 <= r)%R -> (r <= s)%R -> (s <= 1)%R ->
    exists cr cs : R,
      contract (H := Rounded.rounded_float rnd) (Finite r) = Finite cr
      /\ contract (H := Rounded.rounded_float rnd) (Finite s) = Finite cs
      /\ (cr <= cs)%R
      /\ (r = / 2 -> cr = / 2)%R.
Proof.
  intros format rnd r s Hrnd Hmh H0 Hh H1 Hr Hrs Hs.
  rewrite !contract_rounded. do 2 eexists.
  split; [reflexivity |]. split; [reflexivity |]. split.
  - exact (contract_nondecreasing format rnd Hrnd Hmh H0 Hh H1 r s Hr Hrs Hs).
  - intros ->. exact (contract_one_half format rnd Hrnd H0 Hh).
Qed.

End ContractionFacts.

(** ** The scatter plot *)

Section PlotFacts.
Import NumPy.
Context {F : Type}.

(** X14: [plot_scatter] refuses a family that is not two-dimensional with
    [ValueError] before it looks at anything else: the sample given, or the
    family's [rvs]. *)
Theorem plot_scatter_needs_two_dimensions :
  forall (fam : Copula.family F) sample nobs rs ax,
    Copula.k_dim fam <> 2 ->
    Plot.plot_scatter fam sample nobs rs ax = Raise ValueError.
Proof.
  intros fam sample nobs rs ax Hk. unfold Plot.plot_scatter.
  destruct (Nat.eqb_spec (Copula.k_dim fam) 2) as [E | _];
    [contradiction | reflexivity].
Qed.

(** X15: given a sample with two columns or more, [plot_scatter] on a
    two-dimensional family draws nothing from the family (none need be
    defined), returns the sample as it was given, and adds to the axes one
    scatter of column 1 against column 0 and the labels [u] and [v], after
    what the axes already held. *)
Theorem plot_scatter_of_a_given_sample :
  forall (fam : Copula.family F) (sample : ndarray F) nobs rs ax n m,
    Copula.k_dim fam = 2 ->
    shape sample = [n; m] ->
    2 <= m ->
    exists x0 x1,
      index_axis1 sample 0 = Ok x0
      /\ index_axis1 sample 1 = Ok x1
      /\ Plot.plot_scatter fam (Some sample) nobs rs ax
         = Ok (Plot.create_mpl_ax ax
                 ++ [Plot.Scatter x0 x1;
                     Plot.XLabel Plot.Labels.u;
                     Plot.YLabel Plot.Labels.v],
               sample).
Proof.
  intros fam sample nobs rs ax n m Hk Hs Hm.
  unfold Plot.plot_scatter. rewrite Hk. cbn [Nat.eqb negb bind].
  unfold index_axis1, take_axis. rewrite Hs. cbn [nth_error].
  assert (H0 : (0 <? m) = true) by (apply Nat.ltb_lt; lia).
  assert (H1 : (1 <? m) = true) by (apply Nat.ltb_lt; lia).
  rewrite H0, H1. do 2 eexists.
  split; [reflexivity |]. split; reflexivity.
Qed.

End PlotFacts.

(** ** Too few argument tuples, too few columns drawn *)

Section ShortFacts.
Import NumPy.
Import CopulaDistribution.
Import Loops.
Context {F : Type} `{Float F} `{Elementary F}.

Lemma loops_stop_at :
  forall (self : CopulaDistribution.t F) (y : ndarray F) margs rows m b,
    shape y = rows ++ [m] -> wf y ->
    k_vars self = length (marginals self) ->
    b < length (marginals self) ->
    b <= m -> b <= length margs ->
    b = m \/ b = length margs ->
    elementwise (marginals self) margs ->
    for_each (seq 0 (k_vars self)) (cdf_body self y margs) []
    = Raise IndexError
    /\ for_each (seq 0 (k_vars self)) (logpdf_body self y margs)
         (scalar f_0_0, [])
       = Raise IndexError.
Proof.
  intros self y margs rows m b Hs Hw Hk Hb Hbm Hba Hend Hel.
  set (lf := marginal_value dist_logpdf (marginals self) y margs).
  set (cf := marginal_value dist_cdf (marginals self) y margs).
  assert (Hcalls : forall i, i < b ->
            exists d yi a,
              nth_error (marginals self) i = Some d
              /\ index_last y i = Ok yi
              /\ nth_error margs i = Some a
              /\ dist_logpdf d yi a = Ok (lf i)
              /\ dist_cdf d yi a = Ok (cf i)
              /\ shape (lf i) = rows /\ wf (lf i)).
  { intros i Hi.
    destruct self as [cop ds ca kv]. cbn [marginals] in *.
    apply (elementwise_calls cop ds ca y margs rows m Hs Hw Hel i); lia. }
  assert (Hseq : seq 0 (k_vars self)
                 = seq 0 b ++ b :: seq (S b) (k_vars self - S b)).
  { rewrite Hk.
    replace (length (marginals self))
      with (b + S (length (marginals self) - S b)) at 1 by lia.
    rewrite seq_app. reflexivity. }
  destruct (nth_error (marginals self) b) as [d |] eqn:Hd;
    [| apply nth_error_None in Hd; lia].
  rewrite Hseq, !for_each_app.
  rewrite (cdf_loop self y margs rows lf cf b Hcalls b (Nat.le_refl b)).
  rewrite (logpdf_loop self y margs rows lf cf b Hcalls b (Nat.le_refl b)).
  cbn [bind for_each]. unfold cdf_body, logpdf_body, getitem.
  rewrite Hd. cbn [bind].
  rewrite (index_last_eq y rows m b Hs).
  destruct (Nat.ltb_spec b m) as [Hlt | Hge]; [| split; reflexivity].
  cbn [bind].
  assert (Hnone : nth_error margs b = None)
    by (apply nth_error_None; lia).
  rewrite Hnone. split; reflexivity.
Qed.

(** X16: a [marg_args] with fewer tuples than marginals is found out at
    the first marginal without one: [cdf], [logpdf] and [pdf] raise
    [IndexError], provided the marginals before it answer. *)
Theorem too_few_marg_args :
  forall (copula : Copula.family F) (ds : list (dist F)) cop_args0
         (y : ndarray F) cop_args (margs : list (list F)) rows m,
    let self := __init__ copula ds cop_args0 in
    shape y = rows ++ [m] ->
    wf y ->
    length margs < length ds ->
    elementwise ds margs ->
    cdf self y cop_args (Some margs) = Raise IndexError
    /\ logpdf self y cop_args (Some margs) = Raise IndexError
    /\ pdf self y cop_args (Some margs) = Raise IndexError.
Proof.
  intros copula ds ca0 y ca margs rows m self Hs Hw Hlen Hel.
  destruct (loops_stop_at self y margs rows m (Nat.min m (length margs))
              Hs Hw eq_refl) as [Hc Hl].
  - change (marginals self) with ds. lia.
  - lia.
  - lia.
  - lia.
  - exact Hel.
  - assert (Elog : logpdf self y ca (Some margs) = Raise IndexError).
    { unfold logpdf. cbn [bind]. rewrite Hl. reflexivity. }
    split; [| split; [exact Elog |]].
    + unfold cdf. cbn [bind]. rewrite Hc. reflexivity.
    + unfold pdf. rewrite Elog. reflexivity.
Qed.

Lemma enumerate_from_app : forall (A : Type) (l1 l2 : list A) start,
  combine (seq start (length (l1 ++ l2))) (l1 ++ l2)
  = combine (seq start (length l1)) l1
      ++ combine (seq (start + length l1) (length l2)) l2.
Proof.
  intros A l1. induction l1 as [| a l1 IH]; intros l2 start; simpl.
  - rewrite Nat.add_0_r. reflexivity.
  - f_equal. rewrite IH. f_equal. f_equal. f_equal. lia.
Qed.

(** X17: when the copula draws fewer columns than there are marginals, or
    [marg_args] holds fewer tuples than that, [rvs] transforms the columns
    it can and then raises [IndexError]: no sample is returned. *)
Theorem rvs_too_few_columns_or_marg_args :
  forall (copula : Copula.family F) (ds : list (dist F)) cop_args0
         nobs cop_args marg_args rs sample n m,
    let self := __init__ copula ds cop_args0 in
    let margs := match marg_args with
                 | None => repeat [] (length ds)
                 | Some a => a
                 end in
    Copula.rvs copula nobs (resolve_cop_args self cop_args) rs = Ok sample ->
    shape sample = [n; m] ->
    wf sample ->
    m < length ds \/ length margs < length ds ->
    (forall i d col a,
       nth_error ds i = Some d ->
       index_axis1 sample i = Ok col ->
       nth_error margs i = Some a ->
       exists v,
         dist_ppf d (arr_map contract col) a = Ok v
         /\ shape v = [n] /\ wf v) ->
    rvs self nobs cop_args marg_args rs = Raise IndexError.
Proof.
  intros copula ds ca0 nobs ca ma rs sample n m self margs
         Hdraw Hs Hw Hshort Hppf.
  set (b := Nat.min m (length margs)).
  assert (Hb : b < length ds) by (unfold b; lia).
  set (ds1 := firstn b ds).
  assert (Hl1 : length ds1 = b)
    by (unfold ds1; rewrite length_firstn; lia).
  destruct (rvs_all ds1 margs n m sample (ppf_of_column ds margs sample)
              Hs Hw) as [out [Hout [Hso [Hwo Hcols]]]].
  - rewrite Hl1. unfold b. lia.
  - intros i d col Hd Hcol.
    assert (Hi : i < b).
    { rewrite <- Hl1. apply nth_error_Some. congruence. }
    unfold ds1 in Hd. rewrite nth_error_firstn in Hd.
    assert (Hlt : (i <? b) = true) by (apply Nat.ltb_lt; exact Hi).
    rewrite Hlt in Hd.
    destruct (nth_error margs i) as [a |] eqn:Ha;
      [| apply nth_error_None in Ha; unfold b in Hi; lia].
    destruct (Hppf i d col a Hd Hcol Ha) as [v [Hv [Hvs Hvw]]].
    exists a. unfold ppf_of_column. rewrite Hd, Hcol, Ha, Hv.
    repeat split; assumption.
  - unfold rvs, rvs_default_marg_args.
    change (CopulaDistribution.copula self) with copula.
    change (marginals self) with ds.
    change (k_vars self) with (length ds).
    rewrite Hdraw. cbn [bind].
    assert (Hloop : for_each (enumerate ds) (rvs_body margs) sample
                    = Raise IndexError).
    { unfold enumerate.
      rewrite <- (firstn_skipn b ds) at 1 2.
      fold ds1. rewrite enumerate_from_app, for_each_app.
      fold (enumerate ds1). rewrite Hout. cbn [bind].
      destruct (skipn b ds) as [| d rest] eqn:Hsk.
      { apply (f_equal (@length _)) in Hsk. rewrite length_skipn in Hsk.
        simpl in Hsk. lia. }
      cbn [length seq combine for_each Nat.add]. rewrite Hl1.
      unfold rvs_body.
      destruct (Nat.lt_ge_cases b m) as [Hbm | Hbm].
      - rewrite (Hcols b Hbm), Hl1, Nat.ltb_irrefl.
        rewrite (take_axis1_matrix sample n m b Hs Hbm). cbn [bind].
        unfold getitem.
        assert (Hnone : nth_error margs b = None)
          by (apply nth_error_None; unfold b in *; lia).
        rewrite Hnone. reflexivity.
      - unfold index_axis1, take_axis. rewrite Hso. cbn [nth_error].
        apply Nat.ltb_ge in Hbm. rewrite Hbm. reflexivity. }
    destruct ma; exact Hloop.
Qed.

End ShortFacts.

(** ** The further properties on concrete inputs *)

(** X1 on the matrix of two observations. *)
Lemma cdf_is_copula_cdf_of_marginal_cdfs_witness :
  exists u,
    NumPy.shape u = [2; 2]
    /\ NumPy.wf u
    /\ (forall i c,
          nth_error Examples.cdfs_2x2 i = Some c ->
          NumPy.index_axis1 u i = Ok c)
    /\ CopulaDistribution.cdf Examples.joint Examples.y_2x2 None None
       = Copula.cdf (Examples.fgm (Examples.num (/ 2))) u (PyTuple []).
Proof.
  apply (cdf_is_copula_cdf_of_marginal_cdfs
           (Examples.fgm (Examples.num (/ 2)))
           [Examples.expon; Examples.expon] (PyTuple [])
           Examples.y_2x2 None None 2 Examples.cdfs_2x2).
  - reflexivity.
  - simpl. lia.
  - reflexivity.
  - intros i d y_i Hd Hy.
    destruct i as [| [| i]].
    + inversion Hd; subst d. inversion Hy; subst y_i.
      exists [], (nth 0 Examples.cdfs_2x2 Examples.y_2x2).
      repeat split; reflexivity.
    + inversion Hd; subst d. inversion Hy; subst y_i.
      exists [], (nth 1 Examples.cdfs_2x2 Examples.y_2x2).
      repeat split; reflexivity.
    + simpl in Hd. destruct i; discriminate.
Defined.

(** X2 on the observation [(1, 2)]. *)
Lemma one_observation_witness :
  let y := {| NumPy.shape := [2]; NumPy.data := Examples.observation |} in
  let u := {| NumPy.shape := [2]; NumPy.data := Examples.observation_cdfs |} in
  CopulaDistribution.cdf Examples.joint y None None
  = Copula.cdf (Examples.fgm (Examples.num (/ 2))) u (PyTuple [])
  /\ forall cl,
       Copula.logpdf (Examples.fgm (Examples.num (/ 2))) u (PyTuple [])
       = Ok (NumPy.scalar cl) ->
       CopulaDistribution.logpdf Examples.joint y None None
       = Ok (NumPy.scalar
               (f_add (fold_left f_add Examples.observation_logpdfs f_0_0)
                      cl))
       /\ CopulaDistribution.pdf Examples.joint y None None
          = Ok (NumPy.scalar
                  (f_exp
                     (f_add
                        (fold_left f_add Examples.observation_logpdfs f_0_0)
                        cl))).
Proof.
  apply (one_observation (Examples.fgm (Examples.num (/ 2)))
           [Examples.expon; Examples.expon] (PyTuple [])
           Examples.observation None None
           Examples.observation_logpdfs Examples.observation_cdfs).
  - simpl. lia.
  - reflexivity.
  - reflexivity.
  - reflexivity.
  - intros i d y_i Hd Hy.
    destruct i as [| [| i]].
    + inversion Hd; subst d. inversion Hy; subst y_i.
      exists []. do 2 eexists. repeat split; reflexivity.
    + inversion Hd; subst d. inversion Hy; subst y_i.
      exists []. do 2 eexists. repeat split; reflexivity.
    + simpl in Hd. destruct i; discriminate.
Defined.

(** X3 with one marginal on the two columns the corner generator draws. *)
Lemma rvs_keeps_shape_and_other_columns_witness :
  exists out,
    CopulaDistribution.rvs
      (CopulaDistribution.__init__ Examples.corner_family [Examples.expon]
         (PyTuple []))
      2 None None RandomNone
    = Ok out
    /\ NumPy.shape out = NumPy.shape Examples.corner_sample
    /\ NumPy.wf out
    /\ forall j,
         1 <= j ->
         NumPy.index_axis1 out j = NumPy.index_axis1 Examples.corner_sample j.
Proof.
  apply (rvs_keeps_shape_and_other_columns Examples.corner_family
           [Examples.expon] (PyTuple [])
           2%Z None None RandomNone Examples.corner_sample 2 2).
  - reflexivity.
  - reflexivity.
  - reflexivity.
  - simpl. lia.
  - simpl. lia.
  - intros i d col a Hd Hcol Ha.
    destruct i as [| i]; [| simpl in Hd; destruct i; discriminate].
    inversion Hd; subst d. inversion Hcol; subst col.
    inversion Ha; subst a. eexists. repeat split; reflexivity.
Defined.

(** X5 on the FGM copula without marginals. *)
Lemma no_marginals_witness :
  let self := CopulaDistribution.__init__
                (Examples.fgm (Examples.num (/ 2))) [] (PyTuple []) in
  CopulaDistribution.cdf self Examples.y_2x2 None None = Raise ValueError
  /\ CopulaDistribution.logpdf self Examples.y_2x2 None None
     = Raise ValueError
  /\ CopulaDistribution.pdf self Examples.y_2x2 None None = Raise ValueError
  /\ CopulaDistribution.rvs self 2 None None RandomNone
     = Copula.rvs (Examples.fgm (Examples.num (/ 2))) 2
         (CopulaDistribution.resolve_cop_args self None) RandomNone.
Proof.
  apply (no_marginals (Examples.fgm (Examples.num (/ 2))) (PyTuple [])
           Examples.y_2x2 None None 2%Z RandomNone [2] 2).
  reflexivity.
Defined.

(** X6 on a single number. *)
Lemma scalar_observation_is_an_index_error_witness :
  CopulaDistribution.cdf Examples.joint Examples.y_scalar None None
  = Raise IndexError
  /\ CopulaDistribution.logpdf Examples.joint Examples.y_scalar None None
     = Raise IndexError
  /\ CopulaDistribution.pdf Examples.joint Examples.y_scalar None None
     = Raise IndexError.
Proof.
  apply (scalar_observation_is_an_index_error
           (Examples.fgm (Examples.num (/ 2)))
           [Examples.expon; Examples.expon] (PyTuple [])
           Examples.y_scalar None None).
  - reflexivity.
  - simpl. lia.
Defined.

(** X7 on the FGM family, which has no [rvs]. *)
Lemma sampling_needs_rvs_witness :
  let fam := Examples.fgm (Examples.num (/ 2)) in
  (forall ds cop_args0 nobs cop_args marg_args rs,
     CopulaDistribution.rvs (CopulaDistribution.__init__ fam ds cop_args0)
       nobs cop_args marg_args rs
     = Raise NotImplementedError)
  /\ (forall nobs rs,
        Copula.tau_simulated Examples.kendall_tau fam nobs rs
        = Raise NotImplementedError)
  /\ (Copula.k_dim fam = 2 ->
      forall nobs rs ax,
        Plot.plot_scatter fam None nobs rs ax = Raise NotImplementedError).
Proof.
  apply (sampling_needs_rvs Examples.kendall_tau
           (Examples.fgm (Examples.num (/ 2)))).
  reflexivity.
Defined.

(** X8 on the iterated FGM copula with its two parameters. *)
Lemma joint_logpdf_with_two_parameters_witness :
  CopulaDistribution.logpdf Examples.joint_two_parameters Examples.y_2x2
    None None
  = Raise TypeError
  /\ CopulaDistribution.pdf Examples.joint_two_parameters Examples.y_2x2
       None None
     = Raise TypeError.
Proof.
  apply (joint_logpdf_with_two_parameters
           (Examples.iterated_fgm (Examples.num 0, Examples.num 0))
           [Examples.expon; Examples.expon]
           (PyTuple [PyFloat (Examples.num (/ 2));
                     PyFloat (Examples.num (/ 4))])
           Examples.y_2x2 None None 2
           (PyFloat (Examples.num (/ 2))) (PyFloat (Examples.num (/ 4))) []).
  - reflexivity.
  - reflexivity.
  - reflexivity.
  - reflexivity.
  - simpl. lia.
  - simpl. lia.
  - apply expon_elementwise. apply repeat_empty.
Defined.

(** The inherited [logpdf] by number of parameters, on the FGM family. *)
Lemma base_logpdf_by_arity_witness :
  let fam := Examples.fgm (Examples.num (/ 2)) in
  let u := Examples.u_1x2 in
  Copula.logpdf fam u (PyTuple [])
  = fmap (NumPy.arr_map f_log) (Copula.pdf fam u (PyTuple []))
  /\ (forall a,
        Copula.logpdf fam u (PyTuple [a])
        = fmap (NumPy.arr_map f_log) (Copula.pdf fam u a))
  /\ (forall a b rest,
        Copula.logpdf fam u (PyTuple (a :: b :: rest)) = Raise TypeError)
  /\ (forall x, Copula.logpdf fam u (PyFloat x) = Raise TypeError).
Proof.
  apply (base_logpdf_by_arity (Examples.fgm (Examples.num (/ 2)))
           Examples.u_1x2).
  reflexivity.
Defined.

(** X9 on a flat vector. *)
Lemma fit_corr_param_needs_two_dimensions_witness :
  Copula.fit_corr_param Examples.kendall_tau Examples.arithmetic_mean
    (Examples.fgm (Examples.num (/ 2))) Examples.y_flat
  = Raise IndexError.
Proof.
  apply (fit_corr_param_needs_two_dimensions Examples.kendall_tau
           Examples.arithmetic_mean
           (Examples.fgm (Examples.num (/ 2))) Examples.y_flat).
  unfold NumPy.ndim. simpl. lia.
Defined.

(** X10: a three-dimensional family on two-column data. *)
Lemma fit_corr_param_two_columns_witness :
  Copula.fit_corr_param Examples.kendall_tau Examples.arithmetic_mean
    Examples.trivariate
    Examples.y_2x2
  = Copula._arg_from_tau Examples.trivariate
      (Examples.kendall_tau (nth 0 Examples.columns_2x2 Examples.y_2x2)
         (nth 1 Examples.columns_2x2 Examples.y_2x2)).
Proof.
  apply (fit_corr_param_two_columns Examples.kendall_tau
           Examples.arithmetic_mean Examples.trivariate
           Examples.y_2x2 2); reflexivity.
Defined.

(** X11: a three-dimensional family on one-column data. *)
Lemma fit_corr_param_missing_columns_witness :
  Copula.fit_corr_param Examples.kendall_tau Examples.arithmetic_mean
    Examples.trivariate
    Examples.y_2x1
  = Raise IndexError.
Proof.
  apply (fit_corr_param_missing_columns Examples.kendall_tau
           Examples.arithmetic_mean
           Examples.trivariate Examples.y_2x1 2 1).
  - reflexivity.
  - discriminate.
  - simpl. lia.
  - simpl. lia.
Defined.

(** X12: the independence copula has no hook. *)
Lemma fit_corr_param_needs_the_hook_witness :
  Copula.fit_corr_param Examples.kendall_tau Examples.arithmetic_mean
    (Examples.independence 3) Examples.data_3x3
  = Raise NotImplementedError.
Proof.
  apply (fit_corr_param_needs_the_hook Examples.kendall_tau
           Examples.arithmetic_mean
           (Examples.independence 3) Examples.data_3x3 3 3).
  - reflexivity.
  - reflexivity.
  - right. simpl. lia.
Defined.

(** X13 in binary64, on the two boundary draws. *)
Lemma contract_keeps_order_and_one_half_witness :
  exists rnd : R -> R,
    Rounded.rounds_to_nearest Rounded.binary64 rnd
    /\ exists cr cs : R,
         CopulaDistribution.contract (H := Rounded.rounded_float rnd)
           (XReal.Finite 0)
         = XReal.Finite cr
         /\ CopulaDistribution.contract (H := Rounded.rounded_float rnd)
              (XReal.Finite 1)
            = XReal.Finite cs
         /\ (cr <= cs)%R
         /\ (0 = / 2 -> cr = / 2)%R.
Proof.
  destruct binary64_rounding_exists as [rnd Hrnd].
  exists rnd. split; [exact Hrnd |].
  destruct binary64_halves as [Hmh [H0 [Hh H1]]].
  apply (contract_keeps_order_and_one_half Rounded.binary64 rnd 0 1 Hrnd
           Hmh H0 Hh H1).
  - lra.
  - lra.
  - lra.
Defined.

(** X14: a three-dimensional family cannot be plotted. *)
Lemma plot_scatter_needs_two_dimensions_witness :
  Plot.plot_scatter (Examples.trivariate (F := XReal.xreal))
    (Some Examples.corner_sample) 500 RandomNone None
  = Raise ValueError.
Proof.
  apply (plot_scatter_needs_two_dimensions Examples.trivariate
           (Some Examples.corner_sample) 500%Z RandomNone None).
  discriminate.
Defined.

(** X15: the FGM family, which cannot draw, plots a sample it is given. *)
Lemma plot_scatter_of_a_given_sample_witness :
  exists x0 x1,
    NumPy.index_axis1 Examples.corner_sample 0 = Ok x0
    /\ NumPy.index_axis1 Examples.corner_sample 1 = Ok x1
    /\ Plot.plot_scatter (Examples.fgm (Examples.num (/ 2)))
         (Some Examples.corner_sample) 500 RandomNone None
       = Ok (Plot.create_mpl_ax None
               ++ [Plot.Scatter x0 x1;
                   Plot.XLabel Plot.Labels.u;
                   Plot.YLabel Plot.Labels.v],
             Examples.corner_sample).
Proof.
  apply (plot_scatter_of_a_given_sample (Examples.fgm (Examples.num (/ 2)))
           Examples.corner_sample 500%Z RandomNone None 2 2).
  - reflexivity.
  - reflexivity.
  - lia.
Defined.

(** X16: one tuple of arguments for two marginals. *)
Lemma too_few_marg_args_witness :
  CopulaDistribution.cdf Examples.joint Examples.y_2x2 None (Some [[]])
  = Raise IndexError
  /\ CopulaDistribution.logpdf Examples.joint Examples.y_2x2 None (Some [[]])
     = Raise IndexError
  /\ CopulaDistribution.pdf Examples.joint Examples.y_2x2 None (Some [[]])
     = Raise IndexError.
Proof.
  apply (too_few_marg_args (Examples.fgm (Examples.num (/ 2)))
           [Examples.expon; Examples.expon] (PyTuple [])
           Examples.y_2x2 None [[]] [2] 2).
  - reflexivity.
  - reflexivity.
  - simpl. lia.
  - apply expon_elementwise. apply (repeat_empty 1).
Defined.

(** X17: three marginals on the two columns the corner generator draws. *)
Lemma rvs_too_few_columns_or_marg_args_witness :
  CopulaDistribution.rvs
    (CopulaDistribution.__init__ Examples.corner_family
       [Examples.expon; Examples.expon; Examples.expon] (PyTuple []))
    2 None None RandomNone
  = Raise IndexError.
Proof.
  apply (rvs_too_few_columns_or_marg_args Examples.corner_family
           [Examples.expon; Examples.expon; Examples.expon] (PyTuple [])
           2%Z None None RandomNone Examples.corner_sample 2 2).
  - reflexivity.
  - reflexivity.
  - reflexivity.
  - left. simpl. lia.
  - intros i d col a Hd Hcol Ha.
    destruct i as [| [| i]].
    + inversion Hd; subst d. inversion Hcol; subst col.
      inversion Ha; subst a. eexists. repeat split; reflexivity.
    + inversion Hd; subst d. inversion Hcol; subst col.
      inversion Ha; subst a. eexists. repeat split; reflexivity.
    + unfold NumPy.index_axis1, NumPy.take_axis in Hcol.
      simpl in Hcol. discriminate.
Defined.

(** X19 on two draws of the corner generator. *)
Lemma tau_simulated_of_a_sample_witness :
  (2 <= 2 ->
   exists x0 x1,
     NumPy.index_axis1 Examples.corner_sample 0 = Ok x0
     /\ NumPy.index_axis1 Examples.corner_sample 1 = Ok x1
     /\ Copula.tau_simulated Examples.kendall_tau Examples.corner_family 2
          RandomNone
        = Ok (Examples.kendall_tau x0 x1))
  /\ (2 < 2 ->
      Copula.tau_simulated Examples.kendall_tau Examples.corner_family 2
        RandomNone
      = Raise IndexError).
Proof.
  apply (tau_simulated_of_a_sample Examples.kendall_tau
           Examples.corner_family 2%Z RandomNone Examples.corner_sample 2 2);
    reflexivity.
Defined.
